(** * SSE-Lang rule checker: a shallow embedding of [checker.js]

    The development follows the v0.2 checker script of the goldisle site
    (alias resolution, the legacy line parser, the SSE-Lang tokenizer and
    parser, derived fields, ordinal-aware comparison, rule evaluation, the
    tiered decision and the trace fingerprint) function by function.

    Conventions of the embedding.
    - A JavaScript string is a [string]: a sequence of code units, read in
      the range 0..255 (ASCII and Latin-1).  [toLowerCase], [trim] and the
      regular-expression classes below follow ECMAScript on that range.
    - A JavaScript number is an element of an abstract carrier, class
      [JSNumber]: the engine's comparisons, [Number::toString], [parseInt]
      and [parseFloat] are operations of the class.  Every theorem holds for
      every implementation; [DecimalNumber] is the instance used to run the
      code on concrete inputs.
    - A plain object read as a record is a [Record] whose optional members
      are [option]s ([None] is [undefined]); an object used as a dictionary
      is a [gmap] (lookup only) or an association list in property order
      (when the code enumerates it).  A lookup in a dictionary by a computed
      key finds the members of the dictionary and, failing that, the
      members that every object inherits ([objectPrototype]).  A JavaScript
      [Map] is an association list in insertion order.
    - A thrown [Error] is the [Throw] case of [result].
    - The objects that the runs of the click handler share or leave behind
      are the cells of a [Store]; the handler is a step on it ([onClick]). *)

From Stdlib Require Import Ascii String ZArith List Bool Lia DecimalString.
From stdpp Require Import base option list gmap strings sorting.

Open Scope string_scope.
Open Scope list_scope.

(** ** Characters and strings *)

Definition code (c : ascii) : nat := nat_of_ascii c.

Definition in_range (lo hi : nat) (c : ascii) : bool :=
  (lo <=? code c)%nat && (code c <=? hi)%nat.

(** [String.prototype.toLowerCase] on one code unit: A-Z, and the Latin-1
    capitals U+00C0..U+00DE except the multiplication sign U+00D7. *)
Definition lower_ascii (c : ascii) : ascii :=
  if in_range 65 90 c || in_range 192 214 c || in_range 216 222 c
  then ascii_of_nat (code c + 32) else c.

(** [String.prototype.toUpperCase] on a to z; the checker applies it to
    identifier tokens only, which hold ASCII letters, digits, [_] and [-]. *)
Definition upper_ascii (c : ascii) : ascii :=
  if in_range 97 122 c then ascii_of_nat (code c - 32) else c.

Fixpoint toLowerCase (s : string) : string :=
  match s with
  | EmptyString => EmptyString
  | String c s' => String (lower_ascii c) (toLowerCase s')
  end.

Fixpoint toUpperCase (s : string) : string :=
  match s with
  | EmptyString => EmptyString
  | String c s' => String (upper_ascii c) (toUpperCase s')
  end.

(** ECMAScript WhiteSpace and LineTerminator below 256: TAB, LF, VT, FF, CR,
    SP and NBSP.  This is the set [trim] strips and [\s] matches. *)
Definition is_space (c : ascii) : bool :=
  in_range 9 13 c || (code c =? 32)%nat || (code c =? 160)%nat.

(** [\d], [\w], and [.] (anything but a line terminator). *)
Definition is_digit (c : ascii) : bool := in_range 48 57 c.
Definition is_alpha_ (c : ascii) : bool :=
  in_range 65 90 c || in_range 97 122 c || (code c =? 95)%nat.
Definition is_word (c : ascii) : bool := is_alpha_ c || is_digit c.
Definition is_dot_any (c : ascii) : bool :=
  negb ((code c =? 10)%nat || (code c =? 13)%nat).

Definition is_char (x : ascii) (c : ascii) : bool := Ascii.eqb x c.

Fixpoint trimStart (s : string) : string :=
  match s with
  | String c s' => if is_space c then trimStart s' else s
  | EmptyString => EmptyString
  end.

(** [trimEnd] keeps a character when it is not a space or when something
    that is kept follows it. *)
Fixpoint trimEnd (s : string) : string :=
  match s with
  | EmptyString => EmptyString
  | String c s' =>
      match trimEnd s' with
      | EmptyString => if is_space c then EmptyString else String c EmptyString
      | t => String c t
      end
  end.

Definition trim (s : string) : string := trimEnd (trimStart s).

Definition is_empty (s : string) : bool :=
  match s with EmptyString => true | _ => false end.

(** [s.startsWith(p)] and [s.includes(p)]. *)
Fixpoint startsWith (p s : string) : bool :=
  match p, s with
  | EmptyString, _ => true
  | String a p', String b s' => Ascii.eqb a b && startsWith p' s'
  | String _ _, EmptyString => false
  end.

Fixpoint includes (p s : string) : bool :=
  startsWith p s ||
  match s with
  | EmptyString => false
  | String _ s' => includes p s'
  end.

(** [s.replace(/`/g, "")]. *)
Fixpoint stripBackticks (s : string) : string :=
  match s with
  | EmptyString => EmptyString
  | String c s' =>
      if (code c =? 96)%nat then stripBackticks s' else String c (stripBackticks s')
  end.

(** Truthiness of an optional string member: [undefined] and [""] are falsy. *)
Definition truthy (o : option string) : bool :=
  match o with
  | Some s => negb (is_empty s)
  | None => false
  end.

(** [a || b] on optional strings. *)
Definition or_else (o : option string) (d : option string) : option string :=
  if truthy o then o else d.

(** ** Numbers *)

Class JSNumber := {
  number : Type;
  (** [a < b], [a <= b], [a === b] on numbers (IEEE 754 in the engine);
      [a > b] is [b < a] and [a >= b] is [b <= a]. *)
  num_ltb : number -> number -> bool;
  num_leb : number -> number -> bool;
  num_eqb : number -> number -> bool;
  (** [Number::toString], radix 10. *)
  num_to_string : number -> string;
  (** [Number.isNaN] and [isFinite]. *)
  num_is_nan : number -> bool;
  num_is_finite : number -> bool;
  (** [Number.parseInt(s, 10)] and [Number.parseFloat(s)]. *)
  parseInt : string -> number;
  parseFloat : string -> number;
  (** The number that an array length is. *)
  num_of_nat : nat -> number
}.

(** ** Regular expressions

    The regular expressions of the checker, as a syntax tree and a
    backtracking matcher in continuation-passing style.  Repetition is over
    a character class (every [*] and [+] of the source is); alternatives
    and repetitions are tried in ECMAScript's order (left first, greedy), so
    the captures of the first successful path are the ones [match]
    returns.  [prev] is the character before the current position, for
    [^] and [\b]. *)

Inductive regex :=
| REps
| RChar (p : ascii -> bool)
| RStar (p : ascii -> bool)
| RSeq (a b : regex)
| RAlt (a b : regex)
| RGroup (i : nat) (r : regex)
| RWordB
| RBol
| REol.

Definition RPlus (p : ascii -> bool) : regex := RSeq (RChar p) (RStar p).
Definition ROpt (r : regex) : regex := RAlt r REps.

Definition captures := list (nat * string).

Definition word_before (prev : option ascii) : bool :=
  match prev with Some c => is_word c | None => false end.

Definition word_after (s : string) : bool :=
  match s with String c _ => is_word c | EmptyString => false end.

(** The part of [s] consumed when [s'] is what remains. *)
Definition consumed (s s' : string) : string :=
  substring 0 (String.length s - String.length s') s.

Fixpoint star_loop (p : ascii -> bool) (prev : option ascii) (s : string)
    (caps : captures) (k : option ascii -> string -> captures -> option captures)
    : option captures :=
  match s with
  | String c s' =>
      if p c then
        match star_loop p (Some c) s' caps k with
        | Some r => Some r
        | None => k prev s caps
        end
      else k prev s caps
  | EmptyString => k prev s caps
  end.

Fixpoint rmatch (r : regex) (prev : option ascii) (s : string) (caps : captures)
    (k : option ascii -> string -> captures -> option captures) : option captures :=
  match r with
  | REps => k prev s caps
  | RChar p =>
      match s with
      | String c s' => if p c then k (Some c) s' caps else None
      | EmptyString => None
      end
  | RStar p => star_loop p prev s caps k
  | RSeq a b => rmatch a prev s caps (fun prev' s' caps' => rmatch b prev' s' caps' k)
  | RAlt a b =>
      match rmatch a prev s caps k with
      | Some c => Some c
      | None => rmatch b prev s caps k
      end
  | RGroup i r' =>
      rmatch r' prev s caps (fun prev' s' caps' => k prev' s' ((i, consumed s s') :: caps'))
  | RWordB => if xorb (word_before prev) (word_after s) then k prev s caps else None
  | RBol => match prev with None => k prev s caps | Some _ => None end
  | REol => match s with EmptyString => k prev s caps | _ => None end
  end.

(** [RegExp.prototype.exec] without the [g] flag: the leftmost start at which
    the pattern matches, and the captures of that match. *)
Fixpoint exec_from (r : regex) (prev : option ascii) (s : string) : option captures :=
  match rmatch r prev s [] (fun _ _ caps => Some caps) with
  | Some caps => Some caps
  | None =>
      match s with
      | String c s' => exec_from r (Some c) s'
      | EmptyString => None
      end
  end.

Definition regex_exec (r : regex) (s : string) : option captures := exec_from r None s.

Definition regex_test (r : regex) (s : string) : bool :=
  match regex_exec r s with Some _ => true | None => false end.

(** [m[i]] of a match result: the capture recorded last for group [i]. *)
Fixpoint capture (i : nat) (caps : captures) : string :=
  match caps with
  | [] => EmptyString
  | (j, s) :: rest => if (i =? j)%nat then s else capture i rest
  end.

(** A literal under the flag [i]: each character in either case. *)
Definition is_char_ci (x : ascii) (c : ascii) : bool := Ascii.eqb (lower_ascii x) (lower_ascii c).

Fixpoint RLitCI (s : string) : regex :=
  match s with
  | EmptyString => REps
  | String c s' => RSeq (RChar (is_char_ci c)) (RLitCI s')
  end.

Definition is_sep (c : ascii) : bool := (code c =? 58)%nat || (code c =? 61)%nat.
Definition not_sep (c : ascii) : bool := negb (is_sep c).

(** [/^([^:=]+)\s*[:=]\s*(.+)$/] *)
Definition re_line : regex :=
  RSeq RBol (RSeq (RGroup 1 (RPlus not_sep)) (RSeq (RStar is_space)
    (RSeq (RChar is_sep) (RSeq (RStar is_space) (RSeq (RGroup 2 (RPlus is_dot_any)) REol))))).

(** [/^-?\d+(\.\d+)?$/] *)
Definition re_number : regex :=
  RSeq RBol (RSeq (ROpt (RChar (is_char "-"))) (RSeq (RPlus is_digit)
    (RSeq (ROpt (RGroup 1 (RSeq (RChar (is_char ".")) (RPlus is_digit)))) REol))).

(** [/\b(CHECK|EVAL)\b/i] *)
Definition re_query : regex :=
  RSeq RWordB (RSeq (RGroup 1 (RAlt (RLitCI "CHECK") (RLitCI "EVAL"))) RWordB).

(** [/#\w+/] *)
Definition re_symbol : regex := RSeq (RChar (is_char "#")) (RPlus is_word).

(** [/[A-Za-z_]\w*\.[A-Za-z_]\w*/] *)
Definition re_dotted : regex :=
  RSeq (RChar is_alpha_) (RSeq (RStar is_word) (RSeq (RChar (is_char "."))
    (RSeq (RChar is_alpha_) (RStar is_word)))).

(** ** An implementation of [JSNumber]: exact decimals

    [Dec m e] is [m / 10^e].  The operations agree with the engine's on the
    numbers the checker produces from digit strings of at most 15
    significant digits (where a double determines the decimal and back);
    exponents and infinities are not represented. *)

Inductive decimal := DNaN | Dec (m : Z) (e : nat).

Definition dec_cmp (f : Z -> Z -> bool) (a b : decimal) : bool :=
  match a, b with
  | Dec m e, Dec m' e' => f (m * 10 ^ Z.of_nat e')%Z (m' * 10 ^ Z.of_nat e)%Z
  | _, _ => false
  end.

Fixpoint dec_norm (m : Z) (e : nat) : Z * nat :=
  match e with
  | O => (m, O)
  | S e' => if (m mod 10 =? 0)%Z then dec_norm (m / 10)%Z e' else (m, e)
  end.

Definition N_to_string (n : N) : string := NilZero.string_of_uint (N.to_uint n).

Fixpoint zeros (n : nat) : string :=
  match n with O => EmptyString | S n' => String "0" (zeros n') end.

Definition pad_left (w : nat) (s : string) : string := zeros (w - String.length s) +:+ s.

Definition dec_to_string (d : decimal) : string :=
  match d with
  | DNaN => "NaN"
  | Dec m e =>
      let '(m', e') := dec_norm m e in
      let a := Z.abs_N m' in
      let p := (10 ^ N.of_nat e')%N in
      (if (m' <? 0)%Z then "-" else "") +:+ N_to_string (a / p)%N +:+
      match e' with
      | O => ""
      | S _ => "." +:+ pad_left e' (N_to_string (a mod p)%N)
      end
  end.

Fixpoint take_digits (s : string) : string * string :=
  match s with
  | String c s' =>
      if is_digit c then let '(d, r) := take_digits s' in (String c d, r) else (EmptyString, s)
  | EmptyString => (EmptyString, EmptyString)
  end.

Fixpoint digits_value (acc : Z) (s : string) : Z :=
  match s with
  | String c s' => digits_value (10 * acc + Z.of_nat (code c - 48))%Z s'
  | EmptyString => acc
  end.

Definition take_sign (s : string) : bool * string :=
  match s with
  | String c s' =>
      if is_char "-" c then (true, s') else if is_char "+" c then (false, s') else (false, s)
  | EmptyString => (false, s)
  end.

Definition signed (neg : bool) (z : Z) : Z := if neg then (- z)%Z else z.

Definition dec_parseInt (s : string) : decimal :=
  let '(neg, s1) := take_sign (trimStart s) in
  let '(ds, _) := take_digits s1 in
  if is_empty ds then DNaN else Dec (signed neg (digits_value 0 ds)) 0.

Definition dec_parseFloat (s : string) : decimal :=
  let '(neg, s1) := take_sign (trimStart s) in
  let '(ds, rest) := take_digits s1 in
  let fs := match rest with
            | String c r => if is_char "." c then fst (take_digits r) else EmptyString
            | EmptyString => EmptyString
            end in
  if is_empty ds && is_empty fs then DNaN
  else Dec (signed neg (digits_value 0 (ds +:+ fs))) (String.length fs).

Definition dec_is_nan (d : decimal) : bool :=
  match d with DNaN => true | Dec _ _ => false end.

#[export] Instance DecimalNumber : JSNumber := {|
  number := decimal;
  num_ltb := dec_cmp Z.ltb;
  num_leb := dec_cmp Z.leb;
  num_eqb := dec_cmp Z.eqb;
  num_to_string := dec_to_string;
  num_is_nan := dec_is_nan;
  num_is_finite := fun d => negb (dec_is_nan d);
  parseInt := dec_parseInt;
  parseFloat := dec_parseFloat;
  num_of_nat := fun n => Dec (Z.of_nat n) 0
|}.

(** ** Errors *)

Inductive error :=
| ParseError (msg : string)
| TypeError (msg : string).

Inductive result (A : Type) :=
| Ok (a : A)
| Throw (e : error).

Arguments Ok {A} a.
Arguments Throw {A} e.

#[export] Instance result_ret : MRet result := fun A a => Ok a.

#[export] Instance result_bind : MBind result := fun A B f x =>
  match x with
  | Ok a => f a
  | Throw e => Throw e
  end.

(** Heap addresses. *)
Abbreviation addr := nat.

(** ** The data model *)

Section Engine.
Context {JN : JSNumber}.

(** The values a field or a condition literal holds. *)
Inductive value :=
| VUndef
| VNull
| VBool (b : bool)
| VNum (n : number)
| VStr (s : string).

(** [String(v)]. *)
Definition ToString (v : value) : string :=
  match v with
  | VUndef => "undefined"
  | VNull => "null"
  | VBool true => "true"
  | VBool false => "false"
  | VNum n => num_to_string n
  | VStr s => s
  end.

(** [typeof v === "number"]. *)
Definition is_number (v : value) : bool :=
  match v with VNum _ => true | _ => false end.

(** [c.raw], [c.field], [c.op], [c.value] of a condition. *)
Record Condition := {
  c_raw : option string;
  c_field : option string;
  c_op : option string;
  c_value : value
}.

(** [rule.then]: the judgement is the only member the checker's decision reads. *)
Record Consequence := {
  judgement : option string
}.

Record Rule := {
  r_id : string;
  r_name : string;
  r_cit : option string;
  r_level : option string;
  r_if : option (list Condition);
  r_then : option Consequence
}.

Record Defaults := {
  d_level : option string
}.

(** [aliases] is enumerated with [Object.entries], so it is kept in property
    order; [ordinal_scales] is only indexed by field name. *)
Record Ruleset := {
  rs_spec : option string;
  rs_version : option string;
  rs_source : option string;
  defaults : option Defaults;
  aliases : option (list (string * option (list string)));
  ordinal_scales : option (gmap string (list value));
  rules : option (list Rule)
}.

(** The field map: a JavaScript [Map] from field name to value, as the list
    of its entries in insertion order. *)
Definition FieldMap := list (string * value).

Fixpoint map_get (m : FieldMap) (k : string) : option value :=
  match m with
  | [] => None
  | (k', v) :: m' => if String.eqb k' k then Some v else map_get m' k
  end.

Definition map_has (m : FieldMap) (k : string) : bool :=
  match map_get m k with Some _ => true | None => false end.

(** [map.set(k, v)]: an existing key keeps its place, a new one goes last. *)
Fixpoint map_set (k : string) (v : value) (m : FieldMap) : FieldMap :=
  match m with
  | [] => [(k, v)]
  | (k', v') :: m' =>
      if String.eqb k' k then (k, v) :: m' else (k', v') :: map_set k v m'
  end.

(** ** Alias resolver *)

(** One turn of the loop over [Object.entries(aliases)]. *)
Definition aliasEntry (acc : gmap string string) (e : string * option (list string))
    : gmap string string :=
  fold_left (fun acc a => <[toLowerCase a := fst e]> acc)
            (default [] (snd e))
            (<[toLowerCase (fst e) := fst e]> acc).

Definition aliasToCanonical (ruleset : Ruleset) : gmap string string :=
  fold_left aliasEntry (default [] (aliases ruleset)) ∅.

(** [aliasToCanonical.get(String(key).toLowerCase()) || key] *)
Definition canonKey (ruleset : Ruleset) (key : string) : string :=
  match aliasToCanonical ruleset !! toLowerCase key with
  | Some c => if is_empty c then key else c
  | None => key
  end.

(** ** The legacy line parser *)

Definition normalizeKey (s : string) : string := trim s.

Definition prepend (c : ascii) (ls : list string) : list string :=
  match ls with
  | [] => [String c EmptyString]
  | l :: ls' => String c l :: ls'
  end.

(** [text.split(/\r?\n/)] *)
Fixpoint splitLines (s : string) : list string :=
  match s with
  | EmptyString => [EmptyString]
  | String c s' =>
      if (code c =? 10)%nat then EmptyString :: splitLines s'
      else
        match s' with
        | String d s'' =>
            if (code c =? 13)%nat && (code d =? 10)%nat
            then EmptyString :: splitLines s''
            else prepend c (splitLines s')
        | EmptyString => prepend c (splitLines s')
        end
  end.

(** [.map(l => l.trim()).filter(Boolean)] *)
Definition lines (text : string) : list string :=
  List.filter (fun l => negb (is_empty l)) (List.map trim (splitLines text)).

(** The value of a legacy line, after trimming and stripping backticks. *)
Definition legacyValue (val : string) : value :=
  if regex_test re_number val
  then VNum (if includes "." val then parseFloat val else parseInt val)
  else VStr (toLowerCase val).

(** The body of the loop over the lines. *)
Definition legacyLine (ruleset : Ruleset) (map : FieldMap) (line : string) : FieldMap :=
  match regex_exec re_line line with
  | None => map
  | Some m =>
      let key := normalizeKey (capture 1 m) in
      let val := normalizeKey (capture 2 m) in
      let canon := canonKey ruleset key in
      let val := stripBackticks val in
      map_set canon (legacyValue val) map
  end.

Definition parseKeyValueLines (text : string) (ruleset : Ruleset) : FieldMap :=
  fold_left (legacyLine ruleset) (lines text) [].

(** ** Dialect selection *)

Definition isLikelySSELang (text : string) : bool :=
  let t := trim text in
  if is_empty t then false
  else if includes ";" t then true
  else if regex_test re_query t then true
  else if regex_test re_symbol t then true
  else if regex_test re_dotted t then true
  else false.

(** ** The SSE-Lang tokenizer *)

Inductive tokType :=
| COLON | EQUAL | SEMI | DOT | STRING | SYMBOL | NUMBER | IDENT | KW_CHECK | KW_EVAL | EOF.

Definition tokType_name (t : tokType) : string :=
  match t with
  | COLON => "COLON" | EQUAL => "EQUAL" | SEMI => "SEMI" | DOT => "DOT"
  | STRING => "STRING" | SYMBOL => "SYMBOL" | NUMBER => "NUMBER" | IDENT => "IDENT"
  | KW_CHECK => "KW_CHECK" | KW_EVAL => "KW_EVAL" | EOF => "EOF"
  end.

Definition tokType_eqb (a b : tokType) : bool :=
  String.eqb (tokType_name a) (tokType_name b).

Record Loc := { line : nat; col : nat; index : nat }.

Record Token := { type : tokType; tvalue : option string; loc : Loc }.

Definition nat_to_string (n : nat) : string := N_to_string (N.of_nat n).

Definition LF : ascii := ascii_of_nat 10.
Definition quote : ascii := ascii_of_nat 34.
Definition backslash : ascii := ascii_of_nat 92.
Definition str1 (c : ascii) : string := String c EmptyString.

(** [" ".repeat(n)] *)
Fixpoint spaces (n : nat) : string :=
  match n with O => EmptyString | S n' => String " " (spaces n') end.

(** [err(msg)] at offset [i]: the message with the position, twenty
    characters of context on either side, and a caret under the offset. *)
Definition err (src : string) (i line col : nat) (msg : string) : error :=
  let context := substring (i - 20) (Nat.min (String.length src) (i + 20) - (i - 20)) src in
  let caretPos := Nat.min 20 i in
  ParseError ("SSE-Lang parse error: " +:+ msg +:+ " at " +:+ nat_to_string line +:+ ":" +:+
              nat_to_string col +:+ str1 LF +:+ "..." +:+ context +:+ str1 LF +:+
              spaces (3 + caretPos) +:+ "^").

(** [isAlpha], [isAlnum], [isDigit] of the tokenizer. *)
Definition isAlpha (c : ascii) : bool := is_alpha_ c.
Definition isAlnum (c : ascii) : bool := is_word c || is_char "-" c.
Definition isDigit (c : ascii) : bool := is_digit c.

(** The longest prefix whose characters satisfy [p]. *)
Fixpoint span (p : ascii -> bool) (s : string) : string :=
  match s with
  | String c s' => if p c then String c (span p s') else EmptyString
  | EmptyString => EmptyString
  end.

Definition drop (n : nat) (s : string) : string := substring n (String.length s - n) s.

(** The body of a string literal, from the character after the opening
    quote: the text, and the number of characters read, closing quote
    included; or the number of characters read before the literal was found
    unterminated (a raw newline, or the end of the input). *)
Fixpoint lexString (rest : string) (s : string) (n : nat) : (string * nat) + nat :=
  match rest with
  | EmptyString => inr n
  | String c r =>
      if Ascii.eqb c quote then inl (s, S n)
      else if Ascii.eqb c LF then inr n
      else if Ascii.eqb c backslash then
        match r with
        | String e r' =>
            if Ascii.eqb e quote || Ascii.eqb e backslash
            then lexString r' (s +:+ str1 e) (n + 2)
            else lexString r (s +:+ str1 c) (S n)
        | EmptyString => lexString r (s +:+ str1 c) (S n)
        end
      else lexString r (s +:+ str1 c) (S n)
  end.

(** The text of a number token starting at [rest]: [-?\d+(\.\d+)?], or
    [None] when no digit follows the minus sign. *)
Definition lexNumber (rest : string) : option string :=
  let sign := match rest with
              | String c _ => if is_char "-" c then "-" else ""
              | EmptyString => ""
              end in
  let r1 := drop (String.length sign) rest in
  let ds := span isDigit r1 in
  if is_empty ds then None
  else
    let r2 := drop (String.length ds) r1 in
    let frac := match r2 with
                | String c r3 =>
                    if is_char "." c && negb (is_empty (span isDigit r3))
                    then "." +:+ span isDigit r3 else ""
                | EmptyString => ""
                end in
    Some (sign +:+ ds +:+ frac).

Definition mkToken (t : tokType) (v : string) (l : Loc) : Token :=
  {| type := t; tvalue := Some v; loc := l |}.

(** One turn of the tokenizer's loop at offset [i], where [c] is the
    character there and [r] the text after it: the token pushed (if any),
    the number of characters passed, and the line and column after them. *)
Definition lexStep (src : string) (c : ascii) (r : string) (i ln cl : nat)
    : result (option Token * nat * nat * nat) :=
  let here := {| line := ln; col := cl; index := i |} in
  if is_char " " c || (code c =? 9)%nat || (code c =? 13)%nat then Ok (None, 1, ln, cl + 1)
  else if Ascii.eqb c LF then Ok (None, 1, ln + 1, 1)
  else if is_char "/" c && startsWith "/" r then
    let n := 2 + String.length (span (fun x => negb (Ascii.eqb x LF)) (drop 1 r)) in
    Ok (None, n, ln, cl + n)
  else if is_char ":" c then Ok (Some (mkToken COLON ":" here), 1, ln, cl + 1)
  else if is_char "=" c then Ok (Some (mkToken EQUAL "=" here), 1, ln, cl + 1)
  else if is_char ";" c then Ok (Some (mkToken SEMI ";" here), 1, ln, cl + 1)
  else if is_char "." c then Ok (Some (mkToken DOT "." here), 1, ln, cl + 1)
  else if Ascii.eqb c quote then
    match lexString r EmptyString 0 with
    | inl (s, n) => Ok (Some (mkToken STRING s here), 1 + n, ln, cl + 1 + n)
    | inr n => Throw (err src (i + 1 + n) ln (cl + 1 + n) "Unterminated string literal")
    end
  else if is_char "#" c then
    if startsWith "!" r
    then Throw (err src i ln cl "Directive syntax '#!' not supported in v0.1.1 input")
    else
      (* [isAlnum(src[i])] past the end tests the text [undefined], which
         holds letters: the end of the input passes the test. *)
      match r with
      | String d _ =>
          if isAlnum d then
            let name := span isAlnum r in
            Ok (Some (mkToken SYMBOL name here), 1 + String.length name, ln,
                cl + 1 + String.length name)
          else Throw (err src (i + 1) ln (cl + 1) "Expected symbol after '#'")
      | EmptyString => Ok (Some (mkToken SYMBOL "" here), 1, ln, cl + 1)
      end
  else if is_char "-" c || isDigit c then
    match lexNumber (String c r) with
    | Some raw => Ok (Some (mkToken NUMBER raw here), String.length raw, ln, cl + String.length raw)
    | None => Throw (err src i ln cl "Unexpected '-'")
    end
  else if isAlpha c then
    let name := span isAlnum (String c r) in
    let upper := toUpperCase name in
    let t := if String.eqb upper "CHECK" then mkToken KW_CHECK upper here
             else if String.eqb upper "EVAL" then mkToken KW_EVAL upper here
             else mkToken IDENT name here in
    Ok (Some t, String.length name, ln, cl + String.length name)
  else Throw (err src i ln cl ("Unexpected character '" +:+ str1 c +:+ "'")).

(** The tokenizer's [while (i < src.length)]: [rest] is the text from the
    offset the recursion stands at; [skip] counts the characters that the
    last turn of the loop has passed beyond its first, which belong to the
    same turn and are stepped over. *)
Fixpoint lexLoop (src rest : string) (skip i ln cl : nat) (tokens : list Token)
    : result (list Token) :=
  match rest with
  | EmptyString =>
      Ok (tokens ++ [{| type := EOF; tvalue := None; loc := {| line := ln; col := cl; index := i |} |}])
  | String c r =>
      match skip with
      | S k => lexLoop src r k i ln cl tokens
      | O =>
          match lexStep src c r i ln cl with
          | Throw e => Throw e
          | Ok (tok, n, ln', cl') =>
              lexLoop src r (n - 1) (i + n) ln' cl'
                      (tokens ++ match tok with Some t => [t] | None => [] end)
          end
      end
  end.

Definition tokenizeSSE (text : string) : result (list Token) :=
  lexLoop text text 0 0 1 1 [].

(** ** The SSE-Lang parser

    [toks] is the token array from the parser's position [k] on: [peek()] is
    its head and [next()] its head and tail.  Reading [toks[k]] past the end
    gives [undefined], whose [type] cannot be read. *)

Definition past_end : error := TypeError "Cannot read properties of undefined (reading 'type')".

(** Only the end-of-input token has a null value, and its value is never read. *)
Definition tokenText (t : Token) : string := default "" (tvalue t).

Definition at_loc (t : Token) : string :=
  nat_to_string (line (loc t)) +:+ ":" +:+ nat_to_string (col (loc t)).

Definition expect (ty : tokType) (toks : list Token) : result (Token * list Token) :=
  match toks with
  | [] => Throw past_end
  | t :: rest =>
      if tokType_eqb (type t) ty then Ok (t, rest)
      else Throw (ParseError ("SSE-Lang parse error: expected " +:+ tokType_name ty +:+
                              " but got " +:+ tokType_name (type t) +:+ " at " +:+ at_loc t))
  end.

Fixpoint parseEnumPath (parts : list string) (toks : list Token)
    : result (list string * list Token) :=
  match toks with
  | [] => Throw past_end
  | t :: rest =>
      if tokType_eqb (type t) DOT then
        match rest with
        | [] => Throw past_end
        | t' :: rest' =>
            if tokType_eqb (type t') IDENT then parseEnumPath (parts ++ [tokenText t']) rest'
            else Throw (ParseError ("SSE-Lang parse error: expected IDENT but got " +:+
                                    tokType_name (type t') +:+ " at " +:+ at_loc t'))
        end
      else Ok (parts, toks)
  end.

Definition parseValue (toks : list Token) : result (value * list Token) :=
  match toks with
  | [] => Throw past_end
  | t :: rest =>
      match type t with
      | NUMBER =>
          let raw := tokenText t in
          let v := if includes "." raw then parseFloat raw else parseInt raw in
          if num_is_nan v then Throw (ParseError ("Invalid number: " +:+ raw))
          else Ok (VNum v, rest)
      | STRING => Ok (VStr (tokenText t), rest)
      | SYMBOL => Ok (VStr (toLowerCase (tokenText t)), rest)
      | IDENT =>
          '(parts, rest') ← parseEnumPath [tokenText t] rest;
          Ok (VStr (toLowerCase (List.last parts EmptyString)), rest')
      | _ => Throw (ParseError ("SSE-Lang parse error: expected value at " +:+ at_loc t))
      end
  end.

Record ParseState := { pmap : FieldMap; seenQuery : bool }.

Definition parseAssign (ruleset : Ruleset) (st : ParseState) (toks : list Token)
    : result (ParseState * list Token) :=
  '(keyTok, rest) ← expect IDENT toks;
  match rest with
  | [] => Throw past_end
  | opTok :: rest1 =>
      if negb (tokType_eqb (type opTok) COLON) && negb (tokType_eqb (type opTok) EQUAL)
      then Throw (ParseError ("SSE-Lang parse error: expected ':' or '=' at " +:+ at_loc opTok))
      else
        '(val, rest2) ← parseValue rest1;
        '(_, rest3) ← expect SEMI rest2;
        let key := canonKey ruleset (tokenText keyTok) in
        let normVal := match val with
                       | VStr v => VStr (stripBackticks (toLowerCase v))
                       | _ => val
                       end in
        Ok ({| pmap := map_set key normVal (pmap st); seenQuery := seenQuery st |}, rest3)
  end.

Definition parseQuery (st : ParseState) (toks : list Token)
    : result (ParseState * list Token) :=
  match toks with
  | [] => Throw past_end
  | t :: rest =>
      if negb (tokType_eqb (type t) KW_CHECK) && negb (tokType_eqb (type t) KW_EVAL)
      then Throw (ParseError ("SSE-Lang parse error: expected CHECK/EVAL at " +:+ at_loc t))
      else
        '(_, rest') ← expect SEMI rest;
        Ok ({| pmap := pmap st; seenQuery := true |}, rest')
  end.

(** One statement, chosen by the type of the token at the position. *)
Definition parseStatement (ruleset : Ruleset) (st : ParseState) (t : Token) (toks : list Token)
    : result (ParseState * list Token) :=
  match type t with
  | IDENT => parseAssign ruleset st toks
  | KW_CHECK | KW_EVAL => parseQuery st toks
  | _ => Throw (ParseError ("SSE-Lang parse error: unexpected token " +:+
                            tokType_name (type t) +:+ " at " +:+ at_loc t))
  end.

(** [while (peek().type !== "EOF")]: [skip] counts the tokens of the last
    statement beyond its first, which are stepped over. *)
Fixpoint parseLoop (ruleset : Ruleset) (toks : list Token) (skip : nat) (st : ParseState)
    : result ParseState :=
  match toks with
  | [] => Throw past_end
  | t :: rest =>
      match skip with
      | S k => parseLoop ruleset rest k st
      | O =>
          if tokType_eqb (type t) EOF then Ok st
          else
            match parseStatement ruleset st t toks with
            | Throw e => Throw e
            | Ok (st', toks') =>
                parseLoop ruleset rest (length toks - length toks' - 1) st'
            end
      end
  end.

Definition parseSSELangProgram (text : string) (ruleset : Ruleset) : result ParseState :=
  toks ← tokenizeSSE text;
  parseLoop ruleset toks 0 {| pmap := []; seenQuery := false |}.

Definition parseSSELangOrLegacy (text : string) (ruleset : Ruleset) : result FieldMap :=
  if isLikelySSELang text then
    st ← parseSSELangProgram text ruleset;
    Ok (pmap st)
  else Ok (parseKeyValueLines text ruleset).

(** ** Derived fields *)

Definition RATING_SCALE : list string :=
  ["excellent"; "good"; "fair"; "moderate"; "poor"; "major"; "critical"].

(** [l.indexOf(x)]: the first position of [x], or -1. *)
Fixpoint indexOf (x : string) (l : list string) : Z :=
  match l with
  | [] => (-1)%Z
  | y :: l' =>
      if String.eqb y x then 0%Z
      else let i := indexOf x l' in if (i <? 0)%Z then (-1)%Z else (i + 1)%Z
  end.

Definition ratingRank (level : string) : Z :=
  let x := trim (toLowerCase level) in
  indexOf x RATING_SCALE.

Record Contributor := { field : string; level : string }.

Record Derivation := {
  name : string;
  dvalue : value;
  from : option (list Contributor)
}.

Record DeriveState := {
  derivations : list Derivation;
  counted : list Contributor;
  totalRatings : nat
}.

(** The body of the loop over [map.entries()]. *)
Definition deriveEntry (st : DeriveState) (kv : string * value) : DeriveState :=
  let key := fst kv in
  if negb (startsWith "rating." (toLowerCase key)) then st
  else
    let total := totalRatings st + 1 in
    let level := trim (toLowerCase (ToString (snd kv))) in
    let r := ratingRank level in
    if (r =? -1)%Z then
      {| derivations := derivations st ++
           [{| name := "RatingParseWarning";
               dvalue := VStr ("Ignored Rating field '" +:+ key +:+
                               "' with unrecognized level '" +:+ level +:+ "'");
               from := None |}];
         counted := counted st;
         totalRatings := total |}
    else if (ratingRank "moderate" <=? r)%Z then
      {| derivations := derivations st;
         counted := counted st ++ [{| field := key; level := level |}];
         totalRatings := total |}
    else
      {| derivations := derivations st; counted := counted st; totalRatings := total |}.

Definition deriveScan (map : FieldMap) : DeriveState :=
  fold_left deriveEntry map {| derivations := []; counted := []; totalRatings := 0 |}.

(** The key the tally is stored under. *)
Definition derivedKey (ruleset : Ruleset) : string :=
  let t := aliasToCanonical ruleset in
  default "ModerateOrWorseCount"
    (or_else (t !! "moderateorworsecount")
       (or_else (t !! "count of attributes rated moderate or worse")
          (Some "ModerateOrWorseCount"))).

Definition deriveInput (map : FieldMap) (ruleset : Ruleset) : FieldMap * list Derivation :=
  let st := deriveScan map in
  if (0 <? totalRatings st)%nat then
    let count := num_of_nat (length (counted st)) in
    let map' := map_set (derivedKey ruleset) (VNum count) map in
    let anyCritical := existsb (fun x => String.eqb (level x) "critical") (counted st) in
    (map',
     derivations st ++
       [{| name := "ModerateOrWorseCount"; dvalue := VNum count; from := Some (counted st) |};
        {| name := "AnyCriticalFlag"; dvalue := VBool anyCritical; from := None |}])
  else (map, derivations st).

(** ** Condition and rule evaluation *)

(** The members that every object inherits from [Object.prototype].  An
    object answers to these names even when it has no member of its own by
    that name; a member of its own takes precedence. *)
Definition objectPrototype : list string :=
  ["constructor"; "__defineGetter__"; "__defineSetter__"; "hasOwnProperty";
   "__lookupGetter__"; "__lookupSetter__"; "isPrototypeOf"; "propertyIsEnumerable";
   "toString"; "valueOf"; "__proto__"; "toLocaleString"].

Definition inherited (k : string) : bool := existsb (String.eqb k) objectPrototype.

(** [(ruleset.ordinal_scales || {})[field]] is the scale configured for the
    field, or else the inherited member of that name, or else [undefined].
    An inherited member is truthy and has no [map] method, so calling
    [scale.map] on it throws. *)
Definition ordinalIndex (ruleset : Ruleset) (field : string) (v : value)
    : result (option Z) :=
  match default ∅ (ordinal_scales ruleset) !! field with
  | Some scale =>
      let idx := indexOf (toLowerCase (ToString v))
                         (List.map (fun x => toLowerCase (ToString x)) scale) in
      Ok (if (0 <=? idx)%Z then Some idx else None)
  | None =>
      if inherited field then Throw (TypeError "scale.map is not a function")
      else Ok None
  end.

(** [op === s] for the operator member of a condition. *)
Definition op_is (op : option string) (s : string) : bool :=
  match op with
  | Some o => String.eqb o s
  | None => false
  end.

Definition compareValue (ruleset : Ruleset) (field : string) (op : option string)
    (lhs rhs : value) : result bool :=
  li ← ordinalIndex ruleset field lhs;
  ri ← ordinalIndex ruleset field rhs;
  Ok
  match li, ri with
  | Some li, Some ri =>
      if op_is op ">=" then (ri <=? li)%Z
      else if op_is op "<=" then (li <=? ri)%Z
      else if op_is op ">" then (ri <? li)%Z
      else if op_is op "<" then (li <? ri)%Z
      else if op_is op "=" then (li =? ri)%Z
      else if op_is op "!=" then negb (li =? ri)%Z
      else false
  | _, _ =>
      match lhs, rhs with
      | VNum a, VNum b =>
          if op_is op ">=" then num_leb b a
          else if op_is op "<=" then num_leb a b
          else if op_is op ">" then num_ltb b a
          else if op_is op "<" then num_ltb a b
          else if op_is op "=" then num_eqb a b
          else if op_is op "!=" then negb (num_eqb a b)
          else false
      | _, _ =>
          let ls := toLowerCase (ToString lhs) in
          let rs := toLowerCase (ToString rhs) in
          if op_is op "=" then String.eqb ls rs
          else if op_is op "!=" then negb (String.eqb ls rs)
          else false
      end
  end.

Record MatchResult := { matched : bool; reason : option string }.

(** The text of an optional member inside a template literal. *)
Definition show (o : option string) : string := default "undefined" o.

(** The loop of [ruleMatches] over the conditions. *)
Fixpoint conditionsMatch (ruleset : Ruleset) (conds : list Condition) (inputMap : FieldMap)
    : result MatchResult :=
  match conds with
  | [] => Ok {| matched := true; reason := None |}
  | c :: conds' =>
      if truthy (c_raw c) && (negb (truthy (c_field c)) || negb (truthy (c_op c)))
      then Ok {| matched := false; reason := Some "Unparsed condition" |}
      else
        let op := c_op c in
        let rhs := c_value c in
        match c_field c with
        | None => Ok {| matched := false; reason := Some "Missing field: undefined" |}
        | Some field =>
            match map_get inputMap field with
            | None => Ok {| matched := false; reason := Some ("Missing field: " +:+ field) |}
            | Some lhs =>
                holds ← compareValue ruleset field op lhs rhs;
                if negb holds
                then Ok {| matched := false;
                           reason := Some ("Condition failed: " +:+ field +:+ " " +:+
                                           show op +:+ " " +:+ ToString rhs) |}
                else conditionsMatch ruleset conds' inputMap
            end
        end
  end.

Definition ruleMatches (ruleset : Ruleset) (rule : Rule) (inputMap : FieldMap)
    : result MatchResult :=
  conditionsMatch ruleset (default [] (r_if rule)) inputMap.

(** ** The decision *)

Record DecisionResult := {
  res_ruleset : Ruleset;
  verdict : string;
  res_judgement : option string;
  rule : option Rule;
  triggered : list Rule;
  triggeredHard : list Rule;
  triggeredSoft : list Rule;
  res_derivations : option (list Derivation)
}.

(** [a || d] where [d] is a string. *)
Definition or_str (o : option string) (d : string) : string :=
  match o with
  | Some s => if is_empty s then d else s
  | None => d
  end.

(** [String(rule.level || ruleset.defaults?.level || "hard").toLowerCase()] *)
Definition levelOf (ruleset : Ruleset) (rule : Rule) : string :=
  toLowerCase (or_str (r_level rule) (or_str (defaults ruleset ≫= d_level) "hard")).

(** [(r.then?.judgement || "").toLowerCase() === "infeasible"] *)
Definition isInfeasible (r : Rule) : bool :=
  String.eqb (toLowerCase (or_str (r_then r ≫= judgement) "")) "infeasible".

Definition isSoft (ruleset : Ruleset) (rule : Rule) : bool :=
  String.eqb (levelOf ruleset rule) "soft".

(** The loop of [decide] over the rules: the rules it pushes on
    [triggered], in order.  An error of [ruleMatches] ends the loop. *)
Fixpoint triggeredLoop (ruleset : Ruleset) (rs : list Rule) (inputMap : FieldMap)
    : result (list Rule) :=
  match rs with
  | [] => Ok []
  | rule :: rs' =>
      m ← ruleMatches ruleset rule inputMap;
      triggered ← triggeredLoop ruleset rs' inputMap;
      Ok (if matched m then rule :: triggered else triggered)
  end.

Definition triggeredRules (ruleset : Ruleset) (inputMap : FieldMap) : result (list Rule) :=
  triggeredLoop ruleset (default [] (rules ruleset)) inputMap.

Definition decide (ruleset : Ruleset) (inputMap : FieldMap) : result DecisionResult :=
  triggered ← triggeredRules ruleset inputMap;
  let triggeredHard := List.filter (fun r => negb (isSoft ruleset r)) triggered in
  let triggeredSoft := List.filter (isSoft ruleset) triggered in
  let mk v j r :=
    {| res_ruleset := ruleset; verdict := v; res_judgement := j; rule := r;
       triggered := triggered; triggeredHard := triggeredHard; triggeredSoft := triggeredSoft;
       res_derivations := None |} in
  match List.find isInfeasible triggeredHard with
  | Some hardInfeasible => Ok (mk "NO" (Some "Infeasible") (Some hardInfeasible))
  | None =>
      match List.find (fun r => negb (isInfeasible r)) triggeredHard with
      | Some hardOther =>
          match r_then hardOther with
          | Some t => Ok (mk "YES*" (judgement t) (Some hardOther))
          | None => Throw (TypeError "Cannot read properties of undefined (reading 'judgement')")
          end
      | None =>
          match triggeredSoft with
          | primary :: _ =>
              Ok (mk "YES (ADVISORY)"
                     (Some (or_str (r_then primary ≫= judgement) "Advisory flags present"))
                     (Some primary))
          | [] => Ok (mk "YES" (Some "No hard infeasibility triggered") None)
          end
      end
  end.

(** ** Objects, and the deterministic serializer

    [stableStringify] tells objects apart by identity (its [WeakSet]), so
    its argument is a value over a heap: an object or array is a reference
    [JRef a] to a heap cell.  What [recur] builds is fresh and never shared:
    it is a [tree].  An object's members are listed in property order. *)


Inductive jsval :=
| JUndefined
| JNull
| JBool (b : bool)
| JNumber (n : number)
| JString (s : string)
| JRef (a : addr).

Inductive jsobj :=
| JArray (elems : list jsval)
| JObject (props : list (string * jsval)).

#[warnings="-register-all"]
Inductive tree :=
| TUndefined
| TNull
| TBool (b : bool)
| TNumber (n : number)
| TString (s : string)
| TArray (elems : list tree)
| TObject (props : list (string * tree)).

(** [x[k]] on the members of an object. *)
Fixpoint member {A : Type} (k : string) (props : list (string * A)) : option A :=
  match props with
  | [] => None
  | (k', v) :: props' => if String.eqb k' k then Some v else member k props'
  end.

(** An array index: the canonical decimal text of an integer from 0 to
    2^32 - 2.  The engine lists such keys first, in ascending order. *)
Definition arrayIndex (k : string) : option N :=
  match k with
  | EmptyString => None
  | String c k' =>
      if forallb is_digit (list_ascii_of_string k)
         && (negb (Ascii.eqb c "0") || is_empty k')
         && (String.length k <=? 10)%nat
      then
        let n := Z.to_N (digits_value 0 k) in
        if (n <=? 4294967294)%N then Some n else None
      else None
  end.

Definition is_index (k : string) : bool :=
  match arrayIndex k with Some _ => true | None => false end.

Definition index_le (x y : string) : Prop :=
  (default 0%N (arrayIndex x) <= default 0%N (arrayIndex y))%N.

Definition entry_le {A : Type} (x y : string * A) : Prop := index_le (fst x) (fst y).

#[export] Instance entry_le_dec {A : Type} : RelDecision (@entry_le A).
Proof. intros x y. unfold entry_le, index_le. apply _. Defined.

(** [OrdinaryOwnPropertyKeys]: the order in which an object lists the
    members it was given in the order [props]. *)
Definition propertyOrder {A : Type} (props : list (string * A)) : list (string * A) :=
  merge_sort entry_le
             (List.filter (fun kv => is_index (fst kv)) props)
  ++ List.filter (fun kv => negb (is_index (fst kv))) props.

(** [Object.keys(x).sort()] *)
Definition sortedKeys {A : Type} (props : list (string * A)) : list string :=
  merge_sort String.le (List.map fst props).

#[local] Abbreviation heap := (gmap addr jsobj).

(** A visit of the items [xs] in order, each with the set of objects seen
    so far: [xs.map(f)], and the [for] loop over the sorted keys. *)
Fixpoint visitAll {A B : Type} (f : A -> gset addr -> option (B * gset addr))
    (xs : list A) (seen : gset addr) : option (list B * gset addr) :=
  match xs with
  | [] => Some ([], seen)
  | x :: xs' =>
      match f x seen with
      | Some (t, seen1) =>
          match visitAll f xs' seen1 with
          | Some (ts, seen2) => Some (t :: ts, seen2)
          | None => None
          end
      | None => None
      end
  end.

(** The members that the assignments [out[k] = v] create on a fresh
    object: one for each key but [__proto__], where the assignment goes to
    the inherited setter, which changes the prototype of [out] (when [v] is
    an object or [null]) and creates no member. *)
Definition assigned {A : Type} (out : list (string * A)) : list (string * A) :=
  List.filter (fun kv => negb (String.eqb (fst kv) "__proto__")) out.

(** [recur], with the [WeakSet] threaded through.  [fuel] bounds the depth
    of the recursion; [stableStringify] gives one more than the number of
    heap cells, and [recur_enough_fuel] shows that this is never used up.  A
    reference outside the heap (there is none in a JavaScript heap) reads
    as [undefined].  The tree is what [JSON.stringify] reads of the result:
    its own members, whatever its prototype. *)
Fixpoint recur (fuel : nat) (h : heap) (x : jsval) (seen : gset addr)
    : option (tree * gset addr) :=
  match fuel with
  | O => None
  | S n =>
      match x with
      | JUndefined => Some (TUndefined, seen)
      | JNull => Some (TNull, seen)
      | JBool b => Some (TBool b, seen)
      | JNumber z => Some (TNumber z, seen)
      | JString s => Some (TString s, seen)
      | JRef a =>
          if base.decide (a ∈ seen) then Some (TNull, seen)
          else
            let seen := {[a]} ∪ seen in
            match h !! a with
            | None => Some (TUndefined, seen)
            | Some (JArray elems) =>
                match visitAll (recur n h) elems seen with
                | Some (ts, seen') => Some (TArray ts, seen')
                | None => None
                end
            | Some (JObject props) =>
                match
                  visitAll (fun k sn =>
                              match recur n h (default JUndefined (member k props)) sn with
                              | Some (t, sn') => Some ((k, t), sn')
                              | None => None
                              end)
                           (sortedKeys props) seen
                with
                | Some (out, seen') => Some (TObject (propertyOrder (assigned out)), seen')
                | None => None
                end
            end
      end
  end.

(** [QuoteJSONString] on code units below 256. *)
Definition hexDigit (n : nat) : ascii :=
  if (n <? 10)%nat then ascii_of_nat (48 + n) else ascii_of_nat (87 + n).

Definition quoteChar (c : ascii) : string :=
  let n := code c in
  if (n =? 34)%nat then String backslash (str1 quote)
  else if (n =? 92)%nat then String backslash (str1 backslash)
  else if (n =? 8)%nat then String backslash "b"
  else if (n =? 12)%nat then String backslash "f"
  else if (n =? 10)%nat then String backslash "n"
  else if (n =? 13)%nat then String backslash "r"
  else if (n =? 9)%nat then String backslash "t"
  else if (n <? 32)%nat
       then String backslash ("u00" +:+ str1 (hexDigit (n / 16)) +:+ str1 (hexDigit (n mod 16)))
  else str1 c.

Fixpoint quoteBody (s : string) : string :=
  match s with
  | EmptyString => EmptyString
  | String c s' => quoteChar c +:+ quoteBody s'
  end.

Definition quoteJSON (s : string) : string := str1 quote +:+ quoteBody s +:+ str1 quote.

(** [parts.join(",")] *)
Fixpoint join (parts : list string) : string :=
  match parts with
  | [] => EmptyString
  | [x] => x
  | x :: rest => x +:+ "," +:+ join rest
  end.

(** [JSON.stringify] of a tree; [None] is [undefined].  A member whose value
    is [undefined] is left out of an object, and written [null] in an array;
    a number that is not finite is written [null]. *)
Fixpoint stringify (t : tree) : option string :=
  match t with
  | TUndefined => None
  | TNull => Some "null"
  | TBool true => Some "true"
  | TBool false => Some "false"
  | TNumber n => Some (if num_is_finite n then num_to_string n else "null")
  | TString s => Some (quoteJSON s)
  | TArray elems =>
      Some ("[" +:+ join (List.map (fun e => default "null" (stringify e)) elems) +:+ "]")
  | TObject props =>
      Some ("{" +:+
            join (List.flat_map
                    (fun kv => match stringify (snd kv) with
                               | Some v => [quoteJSON (fst kv) +:+ ":" +:+ v]
                               | None => []
                               end)
                    props) +:+ "}")
  end.

(** What [recur(obj)] returns, with the fuel that is enough. *)
Definition stableTree (h : heap) (obj : jsval) : option tree :=
  match recur (S (size h)) h obj ∅ with
  | Some (t, _) => Some t
  | None => None
  end.

Definition stableStringify (h : heap) (obj : jsval) : option string :=
  stableTree h obj ≫= stringify.

(** ** The fingerprint *)

(** [ToInt32], [ToUint32], and [Math.imul]. *)
Definition toInt32 (z : Z) : Z := ((z + 2 ^ 31) mod 2 ^ 32 - 2 ^ 31)%Z.
Definition toUint32 (z : Z) : Z := (z mod 2 ^ 32)%Z.
Definition imul (a b : Z) : Z := toInt32 (toInt32 a * toInt32 b).

(** [n.toString(16)] for a natural number. *)
Fixpoint hexDigits (fuel : nat) (n : Z) (acc : string) : string :=
  match fuel with
  | O => acc
  | S f =>
      let acc' := String (hexDigit (Z.to_nat (n mod 16))) acc in
      if (n <? 16)%Z then acc' else hexDigits f (n / 16)%Z acc'
  end.

Definition toHex (n : Z) : string := hexDigits (S (Z.to_nat (Z.log2 n))) n EmptyString.

(** [s.padStart(8, "0")] *)
Definition padStart8 (s : string) : string := zeros (8 - String.length s) +:+ s.

(** The loop of [simpleHash]: [h ^= str.charCodeAt(i); h = Math.imul(h, 16777619)]. *)
Fixpoint hashLoop (h : Z) (str : string) : Z :=
  match str with
  | EmptyString => h
  | String c str' => hashLoop (imul (Z.lxor (toInt32 h) (Z.of_nat (code c))) 16777619) str'
  end.

Definition simpleHash (str : string) : string :=
  padStart8 (toHex (toUint32 (hashLoop 2166136261 str))).

(** The 32-bit FNV-1a recurrence over code units, on unsigned words. *)
Fixpoint fnv1a (h : Z) (str : string) : Z :=
  match str with
  | EmptyString => h
  | String c str' => fnv1a ((Z.lxor h (Z.of_nat (code c)) * 16777619) mod 2 ^ 32)%Z str'
  end.

(** ** HTML escaping *)

(** [s.replaceAll(c, by)] for a pattern of one character. *)
Fixpoint replaceAll (c : ascii) (by_ : string) (s : string) : string :=
  match s with
  | EmptyString => EmptyString
  | String x s' =>
      if Ascii.eqb x c then by_ +:+ replaceAll c by_ s' else String x (replaceAll c by_ s')
  end.

Definition escapeHtml (s : string) : string :=
  replaceAll "'" "&#039;"
    (replaceAll quote "&quot;"
       (replaceAll ">" "&gt;"
          (replaceAll "<" "&lt;"
             (replaceAll "&" "&amp;" s)))).

(** ** The trace record and the pipeline *)

(** An object literal is evaluated into fresh heap cells; [alloc] returns
    the value and the heap after it, [next] being the first free address.
    [allocAll] evaluates the items of a literal from left to right. *)
Section AllocAll.
Context {A B St : Type} (f : A -> St -> B * St).

Fixpoint allocAll (xs : list A) (st : St) : list B * St :=
  match xs with
  | [] => ([], st)
  | x :: xs' =>
      let '(v, st1) := f x st in
      let '(vs, st2) := allocAll xs' st1 in
      (v :: vs, st2)
  end.

End AllocAll.

Fixpoint alloc (t : tree) (st : heap * addr) : jsval * (heap * addr) :=
  match t with
  | TUndefined => (JUndefined, st)
  | TNull => (JNull, st)
  | TBool b => (JBool b, st)
  | TNumber n => (JNumber n, st)
  | TString s => (JString s, st)
  | TArray elems =>
      let '(vs, (h, next)) := allocAll alloc elems st in
      (JRef next, (<[next := JArray vs]> h, S next))
  | TObject props =>
      let '(vs, (h, next)) :=
        allocAll (fun kv st' => let '(v, st'') := alloc (snd kv) st' in ((fst kv, v), st''))
                 props st in
      (JRef next, (<[next := JObject vs]> h, S next))
  end.

Definition optString (o : option string) : tree :=
  match o with Some s => TString s | None => TUndefined end.

Definition valueTree (v : value) : tree :=
  match v with
  | VUndef => TUndefined
  | VNull => TNull
  | VBool b => TBool b
  | VNum n => TNumber n
  | VStr s => TString s
  end.

(** [tracePayload] of [renderResult]; [now] is [new Date().toISOString()]. *)
Definition tracePayload (now : string) (result : DecisionResult) : tree :=
  TObject
    [("when", TString now);
     ("ruleset", TObject [("spec", optString (rs_spec (res_ruleset result)));
                          ("version", optString (rs_version (res_ruleset result)));
                          ("source", optString (rs_source (res_ruleset result)))]);
     ("verdict", TString (verdict result));
     ("judgement", optString (res_judgement result));
     ("primary_rule",
      match rule result with
      | Some r => TObject [("id", TString (r_id r));
                           ("cit", TString (or_str (r_cit r) ""));
                           ("level", TString (or_str (r_level r) ""))]
      | None => TNull
      end);
     ("triggered", TArray (List.map (fun r => TString (r_id r)) (triggered result)));
     ("derivations",
      match res_derivations result with
      | Some ds =>
          TArray (List.map
                    (fun d => TObject
                       [("name", TString (name d));
                        ("value", valueTree (dvalue d));
                        ("from",
                         match from d with
                         | Some cs =>
                             TArray (List.map (fun x => TObject [("field", TString (field x));
                                                                 ("level", TString (level x))]) cs)
                         | None => TUndefined
                         end)])
                    ds)
      | None => TArray []
      end)].

(** [`SSE-${simpleHash(stableStringify(tracePayload))}`]; [simpleHash] reads
    [str.length], which throws when [str] is [undefined]. *)
Definition traceId (now : string) (res : DecisionResult) : result string :=
  let '(obj, (h, _)) := alloc (tracePayload now res) (∅, 0) in
  match stableStringify h obj with
  | Some str => Ok ("SSE-" +:+ simpleHash str)
  | None => Throw (TypeError "Cannot read properties of undefined (reading 'length')")
  end.

(** The click handler of [main]: parse, derive, decide, render.  The clock
    is read once, by [renderResult], for the trace record. *)
Definition evaluate (now : string) (input : string) (ruleset : Ruleset)
    : result (DecisionResult * string) :=
  map ← parseSSELangOrLegacy input ruleset;
  let derived := deriveInput map ruleset in
  let map := fst derived in
  r ← decide ruleset map;
  let r := {| res_ruleset := res_ruleset r; verdict := verdict r;
              res_judgement := res_judgement r; rule := rule r;
              triggered := triggered r; triggeredHard := triggeredHard r;
              triggeredSoft := triggeredSoft r;
              res_derivations := Some (snd derived) |} in
  id ← traceId now r;
  Ok (r, id).

(** ** The session

    [main] loads the ruleset once, and every click runs the handler against
    that one object.  A session is the store of the objects that the clicks
    share or leave behind: the ruleset in its cell, and the field maps and
    the results that the runs create.  A run is a step on the store, which
    returns or throws; what it did to the store before it threw stays
    done. *)

Inductive cell :=
| CRuleset (ruleset : Ruleset)
| CMap (map : FieldMap)
| CResult (result : DecisionResult).

Record Store := { cells : gmap addr cell; free : addr }.

Definition Run (A : Type) : Type := Store -> result A * Store.

#[global] Instance run_ret : MRet Run := fun A a s => (Ok a, s).

#[global] Instance run_bind : MBind Run := fun A B f x s =>
  match x s with
  | (Ok a, s') => f a s'
  | (Throw e, s') => (Throw e, s')
  end.

(** A step that does not touch the store. *)
Definition pure {A : Type} (r : result A) : Run A := fun s => (r, s).

(** A new object, and an assignment to an object. *)
Definition create (c : cell) : Run addr := fun s =>
  (Ok (free s), {| cells := <[free s := c]> (cells s); free := S (free s) |}).

Definition assign (a : addr) (c : cell) : Run unit := fun s =>
  (Ok tt, {| cells := <[a := c]> (cells s); free := free s |}).

(** Reading through a variable: the ruleset, a field map, a result.  A
    variable that holds no such object reads as [undefined], whose members
    cannot be read. *)
Definition undefinedMember : error := TypeError "Cannot read properties of undefined".

Definition rulesetAt (a : addr) : Run Ruleset := fun s =>
  match cells s !! a with
  | Some (CRuleset ruleset) => (Ok ruleset, s)
  | _ => (Throw undefinedMember, s)
  end.

Definition mapAt (a : addr) : Run FieldMap := fun s =>
  match cells s !! a with
  | Some (CMap map) => (Ok map, s)
  | _ => (Throw undefinedMember, s)
  end.

Definition resultAt (a : addr) : Run DecisionResult := fun s =>
  match cells s !! a with
  | Some (CResult result) => (Ok result, s)
  | _ => (Throw undefinedMember, s)
  end.

(** [deriveInput(map, ruleset)] on the map object: [map.set] changes the
    object that was passed, and that same object is returned. *)
Definition deriveInputAt (map : addr) (ruleset : Ruleset) : Run (addr * list Derivation) :=
  m ← mapAt map;
  let derived := deriveInput m ruleset in
  _ ← assign map (CMap (fst derived));
  mret (map, snd derived).

(** [decide(ruleset, map)]: the result is a new object. *)
Definition decideAt (ruleset : Ruleset) (map : addr) : Run addr :=
  m ← mapAt map;
  r ← pure (decide ruleset m);
  create (CResult r).

(** The click handler of [main], as a step of the session.  [ruleset] is
    the variable that the handler closes over, [input] the text of the
    input box, [now] the clock that [renderResult] reads. *)
Definition onClick (ruleset : addr) (now input : string) : Run (DecisionResult * string) :=
  rs ← rulesetAt ruleset;
  m ← pure (parseSSELangOrLegacy input rs);
  map ← create (CMap m);
  derived ← deriveInputAt map rs;
  result ← decideAt rs (fst derived);
  r ← resultAt result;
  _ ← assign result
        (CResult {| res_ruleset := res_ruleset r; verdict := verdict r;
                    res_judgement := res_judgement r; rule := rule r;
                    triggered := triggered r; triggeredHard := triggeredHard r;
                    triggeredSoft := triggeredSoft r;
                    res_derivations := Some (snd derived) |});
  r ← resultAt result;
  id ← pure (traceId now r);
  mret (r, id).

(** ** Vocabulary of the statements *)

(** The canonical field names a ruleset declares. *)
Definition canonicalNames (ruleset : Ruleset) : list string :=
  List.map fst (default [] (aliases ruleset)).

(** [r] is the first element of [l] that satisfies [P]. *)
Definition FirstSuch {A : Type} (P : A -> Prop) (l : list A) (r : A) : Prop :=
  exists l1 l2, l = l1 ++ r :: l2 /\ P r /\ Forall (fun x => ~ P x) l1.

(** A rule is triggered when [ruleMatches] returns a match for it. *)
Definition Triggered (ruleset : Ruleset) (inputMap : FieldMap) (r : Rule) : Prop :=
  exists m, ruleMatches ruleset r inputMap = Ok m /\ matched m = true.

(** The level a rule stands at: the one it states, else the default that
    the ruleset states, else [hard]; an empty text states nothing.  The
    rule is soft when that level is [soft] in any case, and hard otherwise. *)
Definition stated (o : option string) : option string :=
  match o with
  | Some EmptyString => None
  | _ => o
  end.

Definition standingLevel (ruleset : Ruleset) (r : Rule) : string :=
  match stated (r_level r) with
  | Some l => l
  | None =>
      match defaults ruleset with
      | Some d => default "hard" (stated (d_level d))
      | None => "hard"
      end
  end.

Definition Soft (ruleset : Ruleset) (r : Rule) : Prop :=
  toLowerCase (standingLevel ruleset r) = "soft".

Definition Hard (ruleset : Ruleset) (r : Rule) : Prop :=
  toLowerCase (standingLevel ruleset r) <> "soft".

(** The judgement of a rule is infeasible when the rule has a consequence
    whose judgement is the label [infeasible], in any case. *)
Definition Infeasible (r : Rule) : Prop :=
  exists t j, r_then r = Some t /\ judgement t = Some j /\ toLowerCase j = "infeasible".

(** A field has no scale to be looked up when the ruleset configures none
    for it and its name is that of a member every object inherits: the
    lookup then finds the inherited member instead of a scale. *)
Definition Inherits (ruleset : Ruleset) (field : string) : Prop :=
  default ∅ (ordinal_scales ruleset) !! field = None /\ In field objectPrototype.

(** The error of a comparison on such a field. *)
Definition notAScale : error := TypeError "scale.map is not a function".

(** The matching of a rule returns when [ruleMatches] gives a result for
    it, a match or not; and the boolean readings of [Triggered] and [Soft]. *)
Definition Returns (ruleset : Ruleset) (inputMap : FieldMap) (r : Rule) : Prop :=
  exists m, ruleMatches ruleset r inputMap = Ok m.

Definition triggers (ruleset : Ruleset) (inputMap : FieldMap) (r : Rule) : bool :=
  match ruleMatches ruleset r inputMap with
  | Ok m => matched m
  | Throw _ => false
  end.

Definition soft (ruleset : Ruleset) (r : Rule) : bool :=
  String.eqb (toLowerCase (standingLevel ruleset r)) "soft".

(** The level names of a scale, as [ordinalIndex] compares them. *)
Definition levelNames (scale : list value) : list string :=
  List.map (fun x => toLowerCase (ToString x)) scale.

(** [v] resolves to position [i] of the scale configured for [field]: the
    first position whose level name is the text of [v], case apart. *)
Definition scalePosition (ruleset : Ruleset) (field : string) (v : value) (i : nat) : Prop :=
  exists scale,
    default ∅ (ordinal_scales ruleset) !! field = Some scale /\
    levelNames scale !! i = Some (toLowerCase (ToString v)) /\
    forall j, (j < i)%nat -> levelNames scale !! j <> Some (toLowerCase (ToString v)).

Definition onScale (ruleset : Ruleset) (field : string) (v : value) : Prop :=
  exists i, scalePosition ruleset field v i.

(** [a > b] and [a >= b] on numbers. *)
Definition num_gtb (a b : number) : bool := num_ltb b a.
Definition num_geb (a b : number) : bool := num_leb b a.

(** The entries of a field map under the reserved rating prefix, and the
    text of a rating's level: in lower case, without the blanks around it.
    The seven levels of the rating scale, from the weakest to the
    strongest; the fourth and those above it are moderate or worse.  An
    entry counts when its level is one of these four, and carries an
    unrecognized level when its level is none of the seven. *)
Definition isRatingEntry (kv : string * value) : bool :=
  startsWith "rating." (toLowerCase (fst kv)).

Definition levelText (v : value) : string := trim (toLowerCase (ToString v)).

Definition recognizedLevels : list string :=
  ["excellent"; "good"; "fair"; "moderate"; "poor"; "major"; "critical"].

Definition moderateOrWorseLevels : list string :=
  ["moderate"; "poor"; "major"; "critical"].

Definition unrecognized (kv : string * value) : bool :=
  isRatingEntry kv && negb (existsb (String.eqb (levelText (snd kv))) recognizedLevels).

Definition moderateOrWorse (kv : string * value) : bool :=
  isRatingEntry kv && existsb (String.eqb (levelText (snd kv))) moderateOrWorseLevels.

Definition ratingFields (map : FieldMap) : list (string * value) :=
  List.filter isRatingEntry map.

Definition warningOf (kv : string * value) : Derivation :=
  {| name := "RatingParseWarning";
     dvalue := VStr ("Ignored Rating field '" +:+ fst kv +:+
                     "' with unrecognized level '" +:+ levelText (snd kv) +:+ "'");
     from := None |}.

Definition contributorOf (kv : string * value) : Contributor :=
  {| field := fst kv; level := levelText (snd kv) |}.

(** The moderate-or-worse tally of a field map. *)
Definition tally (map : FieldMap) : nat := length (List.filter moderateOrWorse map).

(** The declarative reading of a regular expression: [Matches r prev u rest]
    says that [r] matches the text [u] when the character before it is
    [prev] and the text after it is [rest]. *)
Fixpoint lastChar (prev : option ascii) (s : string) : option ascii :=
  match s with
  | EmptyString => prev
  | String c s' => lastChar (Some c) s'
  end.

Fixpoint allChars (p : ascii -> bool) (s : string) : bool :=
  match s with
  | EmptyString => true
  | String c s' => p c && allChars p s'
  end.

Fixpoint Matches (r : regex) (prev : option ascii) (u rest : string) : Prop :=
  match r with
  | REps => u = EmptyString
  | RChar p => exists c, u = String c EmptyString /\ p c = true
  | RStar p => allChars p u = true
  | RSeq a b =>
      exists u1 u2, u = u1 +:+ u2 /\ Matches a prev u1 (u2 +:+ rest) /\
                    Matches b (lastChar prev u1) u2 rest
  | RAlt a b => Matches a prev u rest \/ Matches b prev u rest
  | RGroup _ r' => Matches r' prev u rest
  | RWordB => u = EmptyString /\ xorb (word_before prev) (word_after rest) = true
  | RBol => u = EmptyString /\ prev = None
  | REol => u = EmptyString /\ rest = EmptyString
  end.

(** [r] matches somewhere in [s]. *)
Definition MatchesIn (r : regex) (s : string) : Prop :=
  exists a u b, s = a +:+ u +:+ b /\ Matches r (lastChar None a) u b.

(** [u] occurs in [text]; when [bounded], as a word of its own: with no word
    character before it or after it. *)
Definition Occurs (bounded : bool) (u text : string) : Prop :=
  exists a b, text = a +:+ u +:+ b /\
    (bounded = true -> word_before (lastChar None a) = false /\ word_after b = false).

(** A text that is empty or ends in a character that is not a space, and
    one that starts with a character that is not a space. *)
Definition EndsNonSpace (x : string) : Prop :=
  x = "" \/ exists c, lastChar None x = Some c /\ is_space c = false.

Definition StartsNonSpace (x : string) : Prop :=
  exists c x', x = String c x' /\ is_space c = false.

(** What dialect selection looks for in a text: a semicolon; the word CHECK
    or EVAL in any case; the marker [#] before a word character; an
    identifier, a dot, and the start of an identifier. *)
Definition hasSemicolon (text : string) : Prop := Occurs false ";" text.

Definition hasQueryKeyword (text : string) : Prop :=
  exists w, (toLowerCase w = "check" \/ toLowerCase w = "eval") /\ Occurs true w text.

Definition hasMarkerToken (text : string) : Prop :=
  exists c, is_word c = true /\ Occurs false (String "#" (String c "")) text.

Definition hasDottedIdentifier (text : string) : Prop :=
  exists x w y, is_alpha_ x = true /\ allChars is_word w = true /\ is_alpha_ y = true /\
    Occurs false (String x w +:+ "." +:+ String y "") text.

(** A line of the legacy dialect has a separator when a colon or an equals
    sign occurs in it. *)
Definition hasSeparator (line : string) : bool := negb (allChars not_sep line).

(** [P] holds of the list of keys of every object of a tree, at every
    nesting level. *)
Fixpoint everyObject (P : list string -> Prop) (t : tree) : Prop :=
  match t with
  | TArray elems => fold_right (fun e acc => everyObject P e /\ acc) True elems
  | TObject props =>
      P (List.map fst props) /\
      fold_right (fun kv acc => everyObject P (snd kv) /\ acc) True props
  | _ => True
  end.

(** Keys in lexicographic order of their code units. *)
Definition lexicographic (ks : list string) : Prop := StronglySorted String.le ks.

(** The order in which the engine lists the keys of an object that was
    given them in lexicographic order: the array indices first, by
    ascending value, then the other keys, lexicographically. *)
Definition engineOrder (ks : list string) : Prop :=
  exists idx rest,
    ks = idx ++ rest /\
    Forall (fun k => is_index k = true) idx /\ StronglySorted index_le idx /\
    Forall (fun k => is_index k = false) rest /\ lexicographic rest.

(** Lowercase hexadecimal digits, and the number a text of them writes. *)
Definition is_lower_hex (c : ascii) : bool := in_range 48 57 c || in_range 97 102 c.

Definition hexDigitValue (c : ascii) : Z :=
  if in_range 48 57 c then Z.of_nat (code c - 48) else Z.of_nat (code c - 87).

Fixpoint hexValue (acc : Z) (s : string) : Z :=
  match s with
  | EmptyString => acc
  | String c s' => hexValue (16 * acc + hexDigitValue c)%Z s'
  end.

(** Keys none of which is an array index, and a heap whose objects have
    only such keys. *)
Definition plainKeys (ks : list string) : Prop := Forall (fun k => is_index k = false) ks.

Definition PlainHeap (h : gmap addr jsobj) : Prop :=
  forall a props, h !! a = Some (JObject props) -> plainKeys (List.map fst props).

(** The canonical form of a record.  A member named [__proto__] apart,
    an object has the members of the record, each in its canonical form,
    with the keys in the order of the engine; an array has the elements of
    the record, each in its canonical form, in their order; anything else
    is as it is. *)
Definition ownMember {A : Type} (kv : string * A) : bool :=
  negb (String.eqb (fst kv) "__proto__").

#[warnings="-register-all"]
Inductive Canon : tree -> tree -> Prop :=
| Canon_undefined : Canon TUndefined TUndefined
| Canon_null : Canon TNull TNull
| Canon_bool (b : bool) : Canon (TBool b) (TBool b)
| Canon_number (n : number) : Canon (TNumber n) (TNumber n)
| Canon_string (s : string) : Canon (TString s) (TString s)
| Canon_array (ts ts' : list tree) :
    Forall2 Canon ts ts' -> Canon (TArray ts) (TArray ts')
| Canon_object (props mid out : list (string * tree)) :
    Forall2 (fun kv kv' => fst kv = fst kv' /\ Canon (snd kv) (snd kv'))
            (List.filter ownMember props) mid ->
    Permutation mid out -> engineOrder (List.map fst out) ->
    Canon (TObject props) (TObject out).

(** A record is well keyed when no object of it has two members of one
    key, as no object has. *)
Definition wellKeyed (t : tree) : Prop := everyObject (fun ks => List.NoDup ks) t.

(** A visit of items one after the other: each is visited with the set of
    the objects seen up to it, and leaves the set for the next. *)
Inductive Visits {A B : Type} (visit : A -> gset addr -> B -> gset addr -> Prop)
    : list A -> gset addr -> list B -> gset addr -> Prop :=
| Visits_nil (s : gset addr) : Visits visit [] s [] s
| Visits_cons (x : A) (xs : list A) (s : gset addr) (b : B) (s1 : gset addr)
    (bs : list B) (s2 : gset addr) :
    visit x s b s1 -> Visits visit xs s1 bs s2 -> Visits visit (x :: xs) s (b :: bs) s2.

(** A value whose cells lie between two addresses is serialized into the
    canonical form of a record, with enough fuel, in every heap that has
    these cells, whenever none of them has been seen; and the visit sees
    no cell but these. *)
Definition Serial (h : gmap addr jsobj) (v : jsval) (lo hi : addr) (t : tree) : Prop :=
  exists f0, forall fuel h' seen,
    f0 <= fuel -> (forall a, lo <= a < hi -> h' !! a = h !! a) ->
    (forall a, a ∈ seen -> ~ (lo <= a < hi)) ->
    exists t' seen', recur fuel h' v seen = Some (t', seen') /\ Canon t t' /\
                     (forall a, a ∈ seen' -> a ∈ seen \/ lo <= a < hi).

(** A condition that [ruleMatches] gives up on: it has a [raw] text, and
    lacks a field or an operator. *)
Definition Unparsed (c : Condition) : Prop :=
  truthy (c_raw c) = true /\ (truthy (c_field c) = false \/ truthy (c_op c) = false).

(** A condition holds of a field map when it is not unparsed, the map has
    its field, and the value there compares true with the condition's. *)
Definition Holds (ruleset : Ruleset) (inputMap : FieldMap) (c : Condition) : Prop :=
  ~ Unparsed c /\
  exists field lhs,
    c_field c = Some field /\ map_get inputMap field = Some lhs /\
    compareValue ruleset field (c_op c) lhs (c_value c) = Ok true.

(** A condition fails when it is unparsed, or the map lacks its field, or
    the value there compares false with the condition's. *)
Definition Fails (ruleset : Ruleset) (inputMap : FieldMap) (c : Condition) : Prop :=
  Unparsed c \/
  (exists field, c_field c = Some field /\ map_get inputMap field = None) \/
  c_field c = None \/
  exists field lhs,
    c_field c = Some field /\ map_get inputMap field = Some lhs /\
    compareValue ruleset field (c_op c) lhs (c_value c) = Ok false.

(** A condition breaks when it is not unparsed and the map has its field,
    which has no scale to be looked up: the comparison then throws. *)
Definition Breaks (ruleset : Ruleset) (inputMap : FieldMap) (c : Condition) : Prop :=
  ~ Unparsed c /\
  exists field, c_field c = Some field /\ map_has inputMap field = true /\
                Inherits ruleset field.

(** The six operators of a condition. *)
Definition operators : list string := [">="; "<="; ">"; "<"; "="; "!="].

(** A normalized text is in lower case and has no backtick; a normalized
    value is a number or a normalized text. *)
Definition normalText (s : string) : Prop :=
  toLowerCase s = s /\ allChars (fun c => negb (is_char "`" c)) s = true.

Definition normalValue (v : value) : Prop :=
  match v with
  | VNum _ => True
  | VStr s => normalText s
  | _ => False
  end.

(** A field map as the readers build it: from the empty map, by assigning
    normalized values. *)
Inductive Assigned : FieldMap -> Prop :=
| Assigned_empty : Assigned []
| Assigned_set (k : string) (v : value) (m : FieldMap) :
    normalValue v -> Assigned m -> Assigned (map_set k v m).

(** The line and the column of an offset in a text, counted from 1: one
    more than the line feeds before the offset, and one more than the
    characters between the last of them (or the start) and the offset. *)
Fixpoint countLF (s : string) : nat :=
  match s with
  | EmptyString => 0
  | String c s' => (if Ascii.eqb c LF then 1 else 0) + countLF s'
  end.

Fixpoint sinceLF (acc : nat) (s : string) : nat :=
  match s with
  | EmptyString => acc
  | String c s' => if Ascii.eqb c LF then sinceLF 0 s' else sinceLF (S acc) s'
  end.

Definition lineOf (text : string) (i : nat) : nat := 1 + countLF (substring 0 i text).
Definition colOf (text : string) (i : nat) : nat := 1 + sinceLF 0 (substring 0 i text).

(** A token stands where its location says. *)
Definition Located (text : string) (t : Token) : Prop :=
  line (loc t) = lineOf text (index (loc t)) /\ col (loc t) = colOf text (index (loc t)).

(** The text of a number token: an optional minus sign, digits, and
    optionally a point and digits. *)
Definition Numeral (v : string) : Prop :=
  exists sign ds frac,
    v = sign +:+ ds +:+ frac /\
    (sign = "" \/ sign = "-") /\
    ds <> "" /\ allChars isDigit ds = true /\
    (frac = "" \/ exists fs, frac = "." +:+ fs /\ fs <> "" /\ allChars isDigit fs = true).

(** What the value of a token is, by the type of the token. *)
Definition Lexeme (t : Token) : Prop :=
  let v := tokenText t in
  match type t with
  | COLON => v = ":"
  | EQUAL => v = "="
  | SEMI => v = ";"
  | DOT => v = "."
  | KW_CHECK => v = "CHECK"
  | KW_EVAL => v = "EVAL"
  | IDENT =>
      (exists c r, v = String c r /\ isAlpha c = true) /\ allChars isAlnum v = true /\
      toUpperCase v <> "CHECK" /\ toUpperCase v <> "EVAL"
  | SYMBOL => allChars isAlnum v = true
  | NUMBER => Numeral v
  | STRING => allChars (fun c => negb (Ascii.eqb c LF)) v = true
  | EOF => tvalue t = None
  end.

(** A token array as the tokenizer leaves it: the end-of-input token last,
    and nowhere else. *)
Fixpoint endsWithEOF (toks : list Token) : Prop :=
  match toks with
  | [] => False
  | t :: rest =>
      match rest with
      | [] => type t = EOF
      | _ :: _ => type t <> EOF /\ endsWithEOF rest
      end
  end.

(** The characters that [escapeHtml] replaces, and the replacement of a
    character. *)
Definition is_markup (c : ascii) : bool :=
  is_char "<" c || is_char ">" c || is_char quote c || is_char "'" c.

Definition entity (c : ascii) : string :=
  if is_char "&" c then "&amp;"
  else if is_char "<" c then "&lt;"
  else if is_char ">" c then "&gt;"
  else if is_char quote c then "&quot;"
  else if is_char "'" c then "&#039;"
  else String c EmptyString.

Fixpoint entities (s : string) : string :=
  match s with
  | EmptyString => EmptyString
  | String c s' => entity c +:+ entities s'
  end.

(** The messages of the errors that the SSE-Lang reader throws itself. *)
Definition parseErrorText (msg : string) : Prop :=
  startsWith "SSE-Lang parse error: " msg = true \/ startsWith "Invalid number: " msg = true.

Definition parseFailure (e : error) : Prop :=
  exists msg, e = ParseError msg /\ parseErrorText msg.

(** The lines that the legacy reader reads, and what it reads from them. *)
Definition LegacyShape (line : string) : Prop :=
  exists k sep w g,
    line = k +:+ String sep (w +:+ g) /\
    k <> "" /\ allChars not_sep k = true /\ is_sep sep = true /\
    allChars is_space w = true /\ g <> "" /\ allChars is_dot_any g = true.

(** An entry of the alias table declares a key when the key is, in lower
    case, its canonical name or one of its synonyms. *)
Definition declares (k : string) (e : string * option (list string)) : bool :=
  String.eqb (toLowerCase (fst e)) k ||
  existsb (fun a => String.eqb (toLowerCase a) k) (default [] (snd e)).

(** The last entry of the alias table that declares a key. *)
Definition lastDeclaration (ruleset : Ruleset) (k : string)
    : option (string * option (list string)) :=
  List.find (declares k) (rev (default [] (aliases ruleset))).

(** The record of the critical flag among the derivations. *)
Definition criticalFlag (b : bool) : Derivation :=
  {| name := "AnyCriticalFlag"; dvalue := VBool b; from := None |}.

Definition countRecord (map : FieldMap) : Derivation :=
  {| name := "ModerateOrWorseCount"; dvalue := VNum (num_of_nat (tally map));
     from := Some (List.map contributorOf (List.filter moderateOrWorse map)) |}.

(** ** The grammar of SSE-Lang, over tokens

    [assign := ident (":"|"=") value ";"], [enumPath := ident ("." ident)*],
    and the query [CHECK;] or [EVAL;]. *)

(** The number that the text of a number token writes. *)
Definition numberOf (raw : string) : number :=
  if includes "." raw then parseFloat raw else parseInt raw.

(** What an assignment stores for a value: a text in lower case, without
    its backticks; a number as it is. *)
Definition normalize (v : value) : value :=
  match v with
  | VStr s => VStr (stripBackticks (toLowerCase s))
  | _ => v
  end.

(** A run of pairs of a dot and an identifier, with the texts of the
    identifiers. *)
Inductive Dotted : list Token -> list string -> Prop :=
| Dotted_none : Dotted [] []
| Dotted_more (d i : Token) (dots : list Token) (segs : list string) :
    type d = DOT -> type i = IDENT -> Dotted dots segs ->
    Dotted (d :: i :: dots) (tokenText i :: segs).

(** The tokens of a value, and the value read from them: a number that is
    not NaN; the text of a string; the text of a symbol, in lower case; the
    last segment of an enum path, in lower case. *)
Inductive ValueOf : list Token -> value -> Prop :=
| Value_number (t : Token) :
    type t = NUMBER -> num_is_nan (numberOf (tokenText t)) = false ->
    ValueOf [t] (VNum (numberOf (tokenText t)))
| Value_string (t : Token) :
    type t = STRING -> ValueOf [t] (VStr (tokenText t))
| Value_symbol (t : Token) :
    type t = SYMBOL -> ValueOf [t] (VStr (toLowerCase (tokenText t)))
| Value_path (t : Token) (dots : list Token) (segs : list string) :
    type t = IDENT -> Dotted dots segs ->
    ValueOf (t :: dots) (VStr (toLowerCase (List.last (tokenText t :: segs) ""))).

(** The tokens of a statement, and the state after it: an assignment
    stores the normalized value at the canonical name of its key; a query
    is noted. *)
Inductive Statement (ruleset : Ruleset) : list Token -> ParseState -> ParseState -> Prop :=
| Statement_assign (key op : Token) (vtoks : list Token) (semi : Token) (v : value)
    (st : ParseState) :
    type key = IDENT -> type op = COLON \/ type op = EQUAL ->
    ValueOf vtoks v -> type semi = SEMI ->
    Statement ruleset (key :: op :: vtoks ++ [semi]) st
      {| pmap := map_set (canonKey ruleset (tokenText key)) (normalize v) (pmap st);
         seenQuery := seenQuery st |}
| Statement_query (q semi : Token) (st : ParseState) :
    type q = KW_CHECK \/ type q = KW_EVAL -> type semi = SEMI ->
    Statement ruleset [q; semi] st {| pmap := pmap st; seenQuery := true |}.

(** A program: statements one after the other, up to the end-of-input
    token; with the state before it and the state after it. *)
Inductive Program (ruleset : Ruleset) : list Token -> ParseState -> ParseState -> Prop :=
| Program_end (eof : Token) (rest : list Token) (st : ParseState) :
    type eof = EOF -> Program ruleset (eof :: rest) st st
| Program_statement (s rest : list Token) (st st1 st2 : ParseState) :
    Statement ruleset s st st1 -> Program ruleset rest st1 st2 ->
    Program ruleset (s ++ rest) st st2.

(** A token array whose first token is not a dot. *)
Definition NoDotAhead (toks : list Token) : Prop :=
  match toks with
  | t :: _ => type t <> DOT
  | [] => False
  end.

(** What a parsing function does on a token array that ends with the
    end-of-input token: if it returns, what it leaves ends with that token
    too, and is the array without some tokens at its front (at least one,
    when [strict]); if it throws, the error is one of the reader's own. *)
Definition Consumes {A : Type} (strict : bool) (toks : list Token)
    (r : result (A * list Token)) : Prop :=
  match r with
  | Ok (_, toks') =>
      endsWithEOF toks' /\ exists pre, toks = pre ++ toks' /\ (strict = true -> pre <> [])
  | Throw e => parseFailure e
  end.

(** A session in which the handler's variable holds the ruleset: the cell
    is there, and it is none of those that are still free. *)
Definition Loaded (ruleset : addr) (loaded : Ruleset) (s : Store) : Prop :=
  cells s !! ruleset = Some (CRuleset loaded) /\ ruleset < free s.

End Engine.

(** * The decision of version 0.1

    The first version of the checker knows no soft rule: every triggered
    rule is decisive.  Its comparer and rule matcher are those of version
    0.2, word for word. *)

Module V1.
Section Engine.
Context {JN : JSNumber}.

Record DecisionResult := {
  res_ruleset : Ruleset;
  verdict : string;
  res_judgement : option string;
  rule : option Rule;
  triggered : list Rule
}.

Definition decide (ruleset : Ruleset) (inputMap : FieldMap) : result DecisionResult :=
  triggered ← triggeredRules ruleset inputMap;
  let mk v j r :=
    {| res_ruleset := ruleset; verdict := v; res_judgement := j; rule := r;
       triggered := triggered |} in
  match List.find isInfeasible triggered with
  | Some infeasible => Ok (mk "NO" (Some "Infeasible") (Some infeasible))
  | None =>
      match List.find (fun r => negb (isInfeasible r)) triggered with
      | Some other =>
          match r_then other with
          | Some t => Ok (mk "YES*" (judgement t) (Some other))
          | None => Throw (TypeError "Cannot read properties of undefined (reading 'judgement')")
          end
      | None => Ok (mk "YES" (Some "No hard infeasibility triggered") None)
      end
  end.

End Engine.
End V1.

(** A heap: the objects and arrays of a program state, by address. *)
Abbreviation heap := (gmap addr jsobj).

(** ** Concrete inputs *)

Definition emptyRuleset : Ruleset :=
  {| rs_spec := None; rs_version := None; rs_source := None; defaults := None;
     aliases := None; ordinal_scales := None; rules := None |}.

(** [{"aliases": {"A": ["x"], "B": ["a"]}}]: the synonym [a] of [B] is, case
    apart, the canonical name [A]. *)
Definition clashingAliases : Ruleset :=
  {| rs_spec := None; rs_version := None; rs_source := None; defaults := None;
     aliases := Some [("A", Some ["x"]); ("B", Some ["a"])];
     ordinal_scales := None; rules := None |}.

(** [{"aliases": {"PathContinuity": ["Path Continuity", "continuity"]}}] *)
Definition plainAliases : Ruleset :=
  {| rs_spec := None; rs_version := None; rs_source := None; defaults := None;
     aliases := Some [("PathContinuity", Some ["Path Continuity"; "continuity"])];
     ordinal_scales := None; rules := None |}.

(** A ruleset with one rule on the field [Dimensionality], and a field map
    without that field. *)
Definition ruleOnDimensionality : Rule :=
  {| r_id := "R1"; r_name := "No 3D paths"; r_cit := None; r_level := None;
     r_if := Some [{| c_raw := None; c_field := Some "Dimensionality";
                      c_op := Some "="; c_value := VStr "3d" |}];
     r_then := Some {| judgement := Some "Infeasible" |} |}.

Definition oneRule : Ruleset :=
  {| rs_spec := None; rs_version := None; rs_source := None; defaults := None;
     aliases := None; ordinal_scales := None; rules := Some [ruleOnDimensionality] |}.

Definition continuityOnly : FieldMap := [("PathContinuity", VStr "flexible")].

(** [{"rules": [{"id": "R1", "name": "Unconditional", "if": []}]}]: a hard
    rule (by default) that always matches and has no [then]. *)
Definition ruleWithoutThen : Rule :=
  {| r_id := "R1"; r_name := "Unconditional"; r_cit := None; r_level := None;
     r_if := Some []; r_then := None |}.

Definition noConsequence : Ruleset :=
  {| rs_spec := None; rs_version := None; rs_source := None; defaults := None;
     aliases := None; ordinal_scales := None; rules := Some [ruleWithoutThen] |}.

(** A field map with two ratings and a value given for the derived key. *)
Definition ratedMap : FieldMap :=
  [("Rating.Stability", VStr "poor"); ("ModerateOrWorseCount", VNum (Dec 7 0));
   ("Rating.Interface", VStr "good"); ("Notes", VStr "n/a")].

(** The object [{"10": 1, "9": 2}], alone in its heap. *)
Definition indexKeyHeap : heap :=
  {[ 0%nat := JObject [("10", JNumber (Dec 1 0)); ("9", JNumber (Dec 2 0))] ]}.

(** An object that refers to itself: [o = {name: "loop"}; o.self = o]. *)
Definition cyclicHeap : heap :=
  {[ 0%nat := JObject [("name", JString "loop"); ("self", JRef 0%nat)] ]}.

(** A small ruleset in the shape of the site's [rules.json]: aliases for
    two fields, a reliability scale, a hard rule with an infeasible
    judgement, a hard rule with another judgement, and a soft rule. *)
Definition demoRuleset : Ruleset :=
  {| rs_spec := Some "SSE-Lang"; rs_version := Some "0.2"; rs_source := None;
     defaults := Some {| d_level := Some "hard" |};
     aliases := Some [("IonPathDimensionality", Some ["Ion Path Dimensionality"; "dimensionality"]);
                      ("PathContinuity", Some ["Path Continuity"]);
                      ("Rating.Stability", Some ["Stability"])];
     ordinal_scales := Some {[ "DataReliability" := [VStr "none"; VStr "Partial"; VStr "full"] ]};
     rules := Some
       [{| r_id := "R1"; r_name := "No 3D ion paths"; r_cit := Some "s2.1"; r_level := None;
           r_if := Some [{| c_raw := None; c_field := Some "IonPathDimensionality";
                            c_op := Some "="; c_value := VStr "3D" |}];
           r_then := Some {| judgement := Some "Infeasible" |} |};
        {| r_id := "R2"; r_name := "Unreliable data"; r_cit := None; r_level := Some "hard";
           r_if := Some [{| c_raw := None; c_field := Some "DataReliability";
                            c_op := Some "<"; c_value := VStr "full" |}];
           r_then := Some {| judgement := Some "Conditional" |} |};
        {| r_id := "R3"; r_name := "Several weak ratings"; r_cit := None; r_level := Some "Soft";
           r_if := Some [{| c_raw := None; c_field := Some "ModerateOrWorseCount";
                            c_op := Some ">="; c_value := VNum (Dec 1 0) |}];
           r_then := Some {| judgement := Some "Review" |} |}] |}.

(** Texts of several lines. *)
Fixpoint unlines (ls : list string) : string :=
  match ls with
  | [] => EmptyString
  | [l] => l
  | l :: rest => l +:+ String LF (unlines rest)
  end.

(** The example text that the page loads into its input box. *)
Definition pageExample : string :=
  unlines ["IonPathDimensionality: #3D;"; "PathContinuity: flexible;";
           "DataReliability: reliability.partial;"; "";
           "Rating.Stability: rating.moderate;"; "Rating.Interface: rating.good;";
           "Rating.Synthesis: rating.major;"; "CHECK;"].

(** A field map on which the rule of [oneRule] is triggered. *)
Definition threeD : FieldMap := [("Dimensionality", VStr "3d")].

(** An array that holds the same object twice: [o = {}; a = [o, o]]. *)
Definition sharedHeap : heap :=
  {[ 0%nat := JArray [JRef 1%nat; JRef 1%nat]; 1%nat := JObject [] ]}.

(** Three lines of white space. *)
Definition blankText : string := unlines ["  "; ""; " "].

(** [{"rules": [{"id": "R1", "name": "Built by x", "if": [{"field":
    "constructor", "op": "=", "value": "x"}, {"field": "Missing", "op":
    "=", "value": 1}], "then": {"judgement": "Infeasible"}}]}]: a rule
    whose first condition is on a field named like a member that every
    object inherits, and a field map that has that field only. *)
Definition ruleOnConstructor : Rule :=
  {| r_id := "R1"; r_name := "Built by x"; r_cit := None; r_level := None;
     r_if := Some [{| c_raw := None; c_field := Some "constructor";
                      c_op := Some "="; c_value := VStr "x" |};
                   {| c_raw := None; c_field := Some "Missing";
                      c_op := Some "="; c_value := VNum (Dec 1 0) |}];
     r_then := Some {| judgement := Some "Infeasible" |} |}.

Definition constructorRuleset : Ruleset :=
  {| rs_spec := None; rs_version := None; rs_source := None; defaults := None;
     aliases := None; ordinal_scales := None; rules := Some [ruleOnConstructor] |}.

Definition constructorOnly : FieldMap := [("constructor", VStr "x")].

(** A field map with four ratings: one at the strongest level, written
    with a capital and a blank; one with a level that is none of the
    scale; one below the threshold; one at the threshold. *)
Definition mixedRatings : FieldMap :=
  [("Rating.Stability", VStr "Critical "); ("rating.cost", VStr "awful");
   ("Rating.Interface", VStr "good"); ("RATING.Synthesis", VStr "moderate")].

(** The object [JSON.parse('{"__proto__": 1, "a": 2}')], alone in its heap. *)
Definition protoKeyHeap : heap :=
  {[ 0%nat := JObject [("__proto__", JNumber (Dec 1 0)); ("a", JNumber (Dec 2 0))] ]}.

(** A session that has loaded [demoRuleset], before the first click. *)
Definition freshSession : Store :=
  {| cells := {[ 0%nat := CRuleset demoRuleset ]}; free := 1 |}.

(** A legacy text that triggers the first rule of [demoRuleset]. *)
Definition legacyText : string :=
  unlines ["Ion Path Dimensionality: 3D"; "Path Continuity: flexible"].

(** * Properties *)

(* [set_solver] clears hypotheses by name, some of which are not there. *)
Set Warnings "-clear-no-such-hyp".

(** Decides the tests [op === s] on literal operators. *)
Ltac eval_ops :=
  repeat match goal with
         | |- context [op_is (Some ?a) ?b] =>
             let v := eval vm_compute in (op_is (Some a) b) in
             change (op_is (Some a) b) with v
         end;
  cbv iota.

(** Proves that the keys of a literal are distinct. *)
Ltac distinct_keys :=
  repeat (constructor; [cbn [In]; intuition discriminate|]); constructor.

Section Proofs.
Context {JN : JSNumber}.

(** ** Strings *)

Lemma sapp_cons (c : ascii) (s t : string) : String c s +:+ t = String c (s +:+ t).
Proof. reflexivity. Qed.

Lemma sapp_nil_l (t : string) : "" +:+ t = t.
Proof. reflexivity. Qed.

Lemma sapp_nil_r (s : string) : s +:+ "" = s.
Proof. induction s as [|c s IH]; [done|]. by rewrite sapp_cons, IH. Qed.

Lemma sapp_assoc (s t u : string) : (s +:+ t) +:+ u = s +:+ t +:+ u.
Proof. induction s as [|c s IH]; [done|]. by rewrite !sapp_cons, IH. Qed.

Lemma sapp_eq_nil (s t : string) : s +:+ t = "" -> s = "" /\ t = "".
Proof. destruct s; [done|]. rewrite sapp_cons. discriminate. Qed.

Lemma lastChar_app (prev : option ascii) (s t : string) :
  lastChar prev (s +:+ t) = lastChar (lastChar prev s) t.
Proof.
  revert prev. induction s as [|c s IH]; intros prev; [done|].
  rewrite sapp_cons. cbn [lastChar]. apply IH.
Qed.

Lemma allChars_app (p : ascii -> bool) (s t : string) :
  allChars p (s +:+ t) = allChars p s && allChars p t.
Proof.
  induction s as [|c s IH]; [done|]. rewrite sapp_cons. cbn [allChars].
  by rewrite IH, andb_assoc.
Qed.

(** ** The matcher against the declarative reading *)

(** A continuation is uniform when its success does not depend on the
    captures it is given (the checker's patterns have no back-reference). *)
Definition Uniform (k : option ascii -> string -> captures -> option captures) : Prop :=
  forall prev s c c', is_Some (k prev s c) -> is_Some (k prev s c').

Lemma star_loop_spec (p : ascii -> bool) (k : option ascii -> string -> captures -> option captures)
    (caps : captures) (s : string) :
  forall prev,
    is_Some (star_loop p prev s caps k) <->
    exists u v, s = u +:+ v /\ allChars p u = true /\ is_Some (k (lastChar prev u) v caps).
Proof.
  induction s as [|c s IH]; intros prev; cbn [star_loop].
  - split.
    + intros H. exists "", "". by repeat split.
    + intros (u & v & Huv & _ & Hk). symmetry in Huv. apply sapp_eq_nil in Huv as [-> ->].
      exact Hk.
  - split.
    + intros H. destruct (p c) eqn:Hp.
      * destruct (star_loop p (Some c) s caps k) as [r|] eqn:Hloop.
        { assert (is_Some (star_loop p (Some c) s caps k)) as Hs by (rewrite Hloop; eauto).
          apply IH in Hs as (u & v & -> & Hu & Hk).
          exists (String c u), v. rewrite sapp_cons. cbn [allChars lastChar].
          by rewrite Hp, Hu. }
        exists "", (String c s). by repeat split.
      * exists "", (String c s). by repeat split.
    + intros (u & v & Huv & Hu & Hk). destruct u as [|c' u].
      * rewrite sapp_nil_l in Huv. subst v. cbn [lastChar] in Hk.
        destruct (p c); [|exact Hk]. by destruct (star_loop p (Some c) s caps k).
      * rewrite sapp_cons in Huv. inversion Huv; subst c' s. cbn [allChars] in Hu.
        apply andb_true_iff in Hu as [Hp Hu]. rewrite Hp.
        assert (is_Some (star_loop p (Some c) (u +:+ v) caps k)) as [r Hr].
        { apply IH. exists u, v. by repeat split. }
        rewrite Hr. eauto.
Qed.

Lemma rmatch_spec (r : regex) :
  forall prev s caps k, Uniform k ->
    (is_Some (rmatch r prev s caps k) <->
     exists u v, s = u +:+ v /\ Matches r prev u v /\ is_Some (k (lastChar prev u) v caps)).
Proof.
  induction r as [|p|p|a IHa b IHb|a IHa b IHb|i r IH| | |]; intros prev s caps k Hk;
    cbn [rmatch Matches].
  - split.
    + intros H. exists "", s. by repeat split.
    + intros (u & v & -> & -> & H). exact H.
  - split.
    + destruct s as [|c s]; [by intros []|]. destruct (p c) eqn:Hp; [|by intros []].
      intros H. exists (String c ""), s. repeat split; [|exact H]. by exists c.
    + intros (u & v & -> & (c & -> & Hp) & H). rewrite sapp_cons, sapp_nil_l.
      rewrite Hp. exact H.
  - apply star_loop_spec.
  - assert (Uniform (fun prev' s' caps' => rmatch b prev' s' caps' k)) as Hkb.
    { intros p0 s0 c c' H. apply (IHb _ _ _ _ Hk) in H as (u & v & Hs0 & Hm & H).
      apply (IHb _ _ _ _ Hk). exists u, v. repeat split; [done..|]. by eapply Hk. }
    rewrite (IHa _ _ _ _ Hkb). split.
    + intros (u1 & v1 & -> & Ha & Hb). apply (IHb _ _ _ _ Hk) in Hb as (u2 & v & -> & Hb & H).
      exists (u1 +:+ u2), v. rewrite sapp_assoc, lastChar_app. repeat split; [|exact H].
      by exists u1, u2.
    + intros (u & v & -> & (u1 & u2 & -> & Ha & Hb) & H).
      exists u1, (u2 +:+ v). rewrite sapp_assoc. repeat split; [exact Ha|].
      apply (IHb _ _ _ _ Hk). exists u2, v. rewrite lastChar_app in H. by repeat split.
  - specialize (IHa prev s caps k Hk). specialize (IHb prev s caps k Hk). split.
    + intros H. destruct (rmatch a prev s caps k) as [c|] eqn:Ea.
      * destruct IHa as [IHa _]. destruct IHa as (u & v & ? & ? & ?); [eauto|].
        exists u, v. repeat split; [done|by left|done].
      * destruct IHb as [IHb _]. destruct (IHb H) as (u & v & ? & ? & ?).
        exists u, v. repeat split; [done|by right|done].
    + intros (u & v & Hs & [Ha|Hb] & H).
      * assert (is_Some (rmatch a prev s caps k)) as [c Hc] by (apply IHa; eauto).
        rewrite Hc. eauto.
      * destruct (rmatch a prev s caps k); [eauto|]. apply IHb. eauto.
  - assert (Uniform (fun prev' s' caps' => k prev' s' ((i, consumed s s') :: caps'))) as Hk'.
    { intros p0 s0 c c' H. by eapply Hk. }
    rewrite (IH _ _ _ _ Hk'). split.
    + intros (u & v & ? & ? & H). exists u, v. repeat split; [done..|]. by eapply Hk.
    + intros (u & v & ? & ? & H). exists u, v. repeat split; [done..|]. by eapply Hk.
  - split.
    + destruct (xorb _ _) eqn:Hx; [|by intros []]. intros H. exists "", s. by repeat split.
    + intros (u & v & -> & [-> Hx] & H). rewrite sapp_nil_l. rewrite Hx. exact H.
  - split.
    + destruct prev; [by intros []|]. intros H. exists "", s. by repeat split.
    + intros (u & v & -> & [-> ->] & H). exact H.
  - split.
    + destruct s; [|by intros []]. intros H. exists "", "". by repeat split.
    + intros (u & v & -> & [-> ->] & H). exact H.
Qed.

Lemma exec_from_spec (r : regex) (s : string) :
  forall prev,
    is_Some (exec_from r prev s) <->
    exists a u b, s = a +:+ u +:+ b /\ Matches r (lastChar prev a) u b.
Proof.
  assert (Hk : Uniform (fun _ _ caps => Some caps)) by (intros ? ? ? ? _; eauto).
  induction s as [|c s IH]; intros prev; cbn [exec_from].
  - pose proof (rmatch_spec r prev "" [] _ Hk) as Hr.
    destruct (rmatch r prev "" [] _) as [caps|].
    + split; [intros _|eauto]. destruct Hr as [Hr _].
      destruct Hr as (u & v & ? & ? & _); [eauto|]. by exists "", u, v.
    + split; [by intros []|]. intros (a & u & b & Hs & Hm).
      symmetry in Hs. apply sapp_eq_nil in Hs as [-> Hs]. apply Hr. exists u, b.
      repeat split; [done|exact Hm|eauto].
  - pose proof (rmatch_spec r prev (String c s) [] _ Hk) as Hr.
    destruct (rmatch r prev (String c s) [] _) as [caps|].
    + split; [intros _|eauto]. destruct Hr as [Hr _].
      destruct Hr as (u & v & ? & ? & _); [eauto|]. by exists "", u, v.
    + rewrite IH. split.
      * intros (a & u & b & -> & Hm). exists (String c a), u, b. by rewrite sapp_cons.
      * intros (a & u & b & Hs & Hm). destruct a as [|c' a].
        { exfalso. rewrite sapp_nil_l in Hs. cbn [lastChar] in Hm.
          assert (is_Some (@None captures)) as []; [|done]. apply Hr. exists u, b.
          repeat split; [done|exact Hm|eauto]. }
        rewrite sapp_cons in Hs. inversion Hs; subst c' s. by exists a, u, b.
Qed.

(** [r.test(s)] holds exactly when [r] matches somewhere in [s]. *)
Lemma regex_test_spec (r : regex) (s : string) :
  regex_test r s = true <-> MatchesIn r s.
Proof.
  unfold regex_test, regex_exec, MatchesIn. rewrite <- exec_from_spec.
  destruct (exec_from r None s); split; first [done | by eauto | by intros []].
Qed.

Lemma regex_exec_matches (r : regex) (s : string) (caps : captures) :
  regex_exec r s = Some caps -> MatchesIn r s.
Proof. intros H. apply exec_from_spec. unfold regex_exec in H. rewrite H. eauto. Qed.

(** ** Trimming and occurrences *)

Lemma space_not_word (c : ascii) : is_space c = true -> is_word c = false.
Proof. destruct c as [[] [] [] [] [] [] [] []]; vm_compute; congruence. Qed.

Lemma allChars_lastChar (p : ascii -> bool) (s : string) :
  forall prev c, allChars p s = true -> s <> "" -> lastChar prev s = Some c -> p c = true.
Proof.
  induction s as [|d s IH]; intros prev c Hall Hne Hlast; [done|].
  cbn [allChars] in Hall. apply andb_true_iff in Hall as [Hd Hall]. cbn [lastChar] in Hlast.
  destruct s as [|e s].
  - cbn [lastChar] in Hlast. by inversion Hlast; subst.
  - by apply (IH (Some d) c).
Qed.

Lemma split_before_spaces (w : string) (x : string) :
  allChars is_space w = true ->
  forall t b, t +:+ w = x +:+ b -> EndsNonSpace x ->
    exists b', b = b' +:+ w /\ t = x +:+ b'.
Proof.
  intros Hw. induction x as [|d x IH]; intros t b Heq Hend.
  - rewrite sapp_nil_l in Heq. by exists t.
  - destruct Hend as [|(c & Hlast & Hc)]; [done|].
    rewrite sapp_cons in Heq. destruct t as [|d' t].
    + exfalso. rewrite sapp_nil_l in Heq. subst w. rewrite <- sapp_cons in Hw.
      rewrite allChars_app in Hw. apply andb_true_iff in Hw as [Hx _].
      rewrite (allChars_lastChar is_space (String d x) None c Hx) in Hc; done.
    + rewrite sapp_cons in Heq. inversion Heq; subst d'.
      destruct (IH t b) as (b' & -> & ->); [done| |by exists b'].
      destruct x as [|e x]; [by left|]. right. exists c. by split.
Qed.

Lemma trimEnd_decomp (s : string) :
  exists w, s = trimEnd s +:+ w /\ allChars is_space w = true /\ EndsNonSpace (trimEnd s).
Proof.
  induction s as [|c s (w & Hs & Hw & Hend)]; [exists ""; repeat split; by left|].
  cbn [trimEnd]. destruct (trimEnd s) as [|d t] eqn:Ht.
  - rewrite sapp_nil_l in Hs. subst w. destruct (is_space c) eqn:Hc.
    + exists (String c s). cbn [allChars]. rewrite Hc, Hw. repeat split. by left.
    + exists s. repeat split; [done|]. right. by exists c.
  - exists w. rewrite sapp_cons, <- Hs. repeat split; [done|].
    destruct Hend as [|(e & Hlast & He)]; [done|]. right. by exists e.
Qed.

Lemma trimStart_decomp (s : string) :
  exists w, s = w +:+ trimStart s /\ allChars is_space w = true /\
            (trimStart s = "" \/ StartsNonSpace (trimStart s)).
Proof.
  induction s as [|c s (w & Hs & Hw & Hst)]; [exists ""; repeat split; by left|].
  cbn [trimStart]. destruct (is_space c) eqn:Hc.
  - exists (String c w). rewrite sapp_cons, <- Hs. cbn [allChars]. by rewrite Hc, Hw.
  - exists "". repeat split. right. by exists c, s.
Qed.

Lemma word_after_spaces (w b : string) :
  allChars is_space w = true -> word_after (b +:+ w) = word_after b.
Proof.
  intros Hw. destruct b as [|c b]; [|done]. rewrite sapp_nil_l.
  destruct w as [|c w]; [done|]. cbn [allChars] in Hw. apply andb_true_iff in Hw as [Hc _].
  cbn [word_after]. by apply space_not_word.
Qed.

Lemma word_before_spaces (w a : string) :
  allChars is_space w = true ->
  word_before (lastChar None (w +:+ a)) = word_before (lastChar None a).
Proof.
  intros Hw. rewrite lastChar_app. destruct a as [|c a]; [|done]. cbn [lastChar].
  destruct w as [|d w]; [done|].
  destruct (lastChar None (String d w)) as [e|] eqn:He; [|done].
  cbn [word_before]. apply space_not_word.
  by apply (allChars_lastChar is_space (String d w) None e).
Qed.

Lemma Occurs_spaces_after (bounded : bool) (u t w : string) :
  allChars is_space w = true -> EndsNonSpace u -> u <> "" ->
  Occurs bounded u (t +:+ w) <-> Occurs bounded u t.
Proof.
  intros Hw Hu Hne. split.
  - intros (a & b & Heq & HB).
    rewrite <- sapp_assoc in Heq.
    destruct (split_before_spaces w (a +:+ u) Hw t b Heq) as (b' & -> & ->).
    { right. destruct Hu as [|(c & Hlast & Hc)]; [done|]. exists c. split; [|done].
      rewrite lastChar_app. destruct u; [done|]. exact Hlast. }
    exists a, b'. rewrite sapp_assoc. split; [done|]. intros Hb. specialize (HB Hb).
    by rewrite word_after_spaces in HB.
  - intros (a & b & -> & HB). exists a, (b +:+ w). rewrite !sapp_assoc. split; [done|].
    intros Hb. rewrite word_after_spaces by done. by apply HB.
Qed.

Lemma Occurs_spaces_before (bounded : bool) (u t w : string) :
  allChars is_space w = true -> StartsNonSpace u ->
  Occurs bounded u (w +:+ t) <-> Occurs bounded u t.
Proof.
  intros Hw (x & u' & -> & Hx). induction w as [|c w IH].
  - by rewrite sapp_nil_l.
  - cbn [allChars] in Hw. apply andb_true_iff in Hw as [Hc Hw]. rewrite <- (IH Hw).
    rewrite sapp_cons. split.
    + intros (a & b & Heq & HB). destruct a as [|c' a].
      * rewrite sapp_nil_l, sapp_cons in Heq. inversion Heq; subst. congruence.
      * rewrite sapp_cons in Heq. inversion Heq; subst c'. exists a, b. split; [done|].
        intros Hb. specialize (HB Hb).
        rewrite <- (word_before_spaces (String c "") a) by (cbn [allChars]; by rewrite Hc).
        by rewrite sapp_cons, sapp_nil_l.
    + intros (a & b & -> & HB). exists (String c a), b. rewrite sapp_cons. split; [done|].
      intros Hb. specialize (HB Hb).
      rewrite <- (word_before_spaces (String c "") a) in HB by (cbn [allChars]; by rewrite Hc).
      by rewrite sapp_cons, sapp_nil_l in HB.
Qed.

(** An occurrence that neither starts nor ends with a space is in the text
    exactly when it is in the trimmed text. *)
Lemma Occurs_trim (bounded : bool) (u text : string) :
  StartsNonSpace u -> EndsNonSpace u ->
  Occurs bounded u (trim text) <-> Occurs bounded u text.
Proof.
  intros Hst Hend. unfold trim.
  assert (u <> "") as Hne by (destruct Hst as (? & ? & -> & _); done).
  destruct (trimStart_decomp text) as (w1 & H1 & Hw1 & _).
  destruct (trimEnd_decomp (trimStart text)) as (w2 & H2 & Hw2 & _).
  rewrite H1 at 2. rewrite (Occurs_spaces_before _ _ _ _ Hw1 Hst).
  rewrite H2 at 2. by rewrite (Occurs_spaces_after _ _ _ _ Hw2 Hend Hne).
Qed.

Lemma Occurs_nil (bounded : bool) (u : string) : u <> "" -> ~ Occurs bounded u "".
Proof.
  intros Hne (a & b & Heq & _). symmetry in Heq.
  apply sapp_eq_nil in Heq as [_ Heq]. apply sapp_eq_nil in Heq as [Heq _]. done.
Qed.

(** ** Dialect selection *)

Ltac string_eq := rewrite ?sapp_assoc, ?sapp_cons, ?sapp_nil_l, ?sapp_nil_r; try reflexivity.

Lemma startsWith_spec (p s : string) :
  startsWith p s = true <-> exists b, s = p +:+ b.
Proof.
  revert s. induction p as [|c p IH]; intros s; cbn [startsWith].
  - split; [intros _; by exists s|done].
  - destruct s as [|d s]; [split; [done|by intros [b Hb]]|].
    rewrite andb_true_iff, Ascii.eqb_eq, IH. split.
    + intros [-> [b ->]]. by exists b.
    + intros [b Hb]. rewrite sapp_cons in Hb. inversion Hb; subst. split; [done|by exists b].
Qed.

Lemma includes_spec (p s : string) :
  includes p s = true <-> Occurs false p s.
Proof.
  induction s as [|c s IH]; cbn [includes]; rewrite orb_true_iff, startsWith_spec.
  - split.
    + intros [[b Hb]|]; [|done]. exists "", b. by split.
    + intros (a & b & Heq & _). left. symmetry in Heq. apply sapp_eq_nil in Heq as [-> Heq].
      by exists b.
  - rewrite IH. split.
    + intros [[b Hb]|(a & b & -> & _)].
      * exists "", b. by split.
      * exists (String c a), b. by split.
    + intros (a & b & Heq & _). destruct a as [|c' a].
      * left. by exists b.
      * right. rewrite sapp_cons in Heq. inversion Heq; subst. exists a, b. by split.
Qed.

Lemma matches_symbol (prev : option ascii) (u b : string) :
  Matches re_symbol prev u b <->
  exists c w, u = String "#" (String c w) /\ is_word c = true /\ allChars is_word w = true.
Proof.
  unfold re_symbol, RPlus. cbn [Matches]. split.
  - intros (u1 & u2 & -> & (h & -> & Hh) & (u3 & u4 & -> & (c & -> & Hc) & Hw)).
    apply Ascii.eqb_eq in Hh as <-. by exists c, u4.
  - intros (c & w & -> & Hc & Hw). exists "#", (String c w). repeat split.
    + by exists "#"%char.
    + exists (String c ""), w. repeat split; [|done]. by exists c.
Qed.

Lemma matches_dotted (prev : option ascii) (u b : string) :
  Matches re_dotted prev u b <->
  exists x w y w', u = String x w +:+ "." +:+ String y w' /\ is_alpha_ x = true /\
                   allChars is_word w = true /\ is_alpha_ y = true /\ allChars is_word w' = true.
Proof.
  unfold re_dotted. cbn [Matches]. split.
  - intros (u1 & u2 & -> & (x & -> & Hx) & (w & u3 & -> & Hw &
             (u4 & u5 & -> & (d & -> & Hd) & (u6 & w' & -> & (y & -> & Hy) & Hw')))).
    apply Ascii.eqb_eq in Hd as <-. exists x, w, y, w'. by repeat split.
  - intros (x & w & y & w' & -> & Hx & Hw & Hy & Hw').
    exists (String x ""), (w +:+ "." +:+ String y w'). repeat split; [by exists x|].
    exists w, ("." +:+ String y w'). repeat split; [done|].
    exists ".", (String y w'). repeat split; [by exists "."%char|].
    exists (String y ""), w'. repeat split; [by exists y|done].
Qed.

Lemma matches_litci (p : string) :
  forall prev u b, Matches (RLitCI p) prev u b <-> toLowerCase u = toLowerCase p.
Proof.
  induction p as [|c p IH]; intros prev u b; cbn [RLitCI Matches toLowerCase].
  - split; [by intros ->|]. by destruct u.
  - split.
    + intros (u1 & u2 & -> & (x & -> & Hx) & Hm). apply IH in Hm.
      apply Ascii.eqb_eq in Hx. rewrite sapp_cons, sapp_nil_l. cbn [toLowerCase]. congruence.
    + destruct u as [|x u]; [done|]. cbn [toLowerCase]. intros H. inversion H.
      exists (String x ""), u. repeat split.
      * exists x. split; [done|]. unfold is_char_ci. apply Ascii.eqb_eq. congruence.
      * by apply IH.
Qed.

Lemma lower_letter_word (x : ascii) :
  in_range 97 122 (lower_ascii x) = true -> is_word x = true.
Proof. destruct x as [[] [] [] [] [] [] [] []]; vm_compute; congruence. Qed.

Lemma word_not_space (c : ascii) : is_word c = true -> is_space c = false.
Proof. destruct c as [[] [] [] [] [] [] [] []]; vm_compute; congruence. Qed.

Lemma lower_letters_words (u : string) :
  forall p, toLowerCase u = p -> allChars (in_range 97 122) p = true ->
            allChars is_word u = true.
Proof.
  induction u as [|x u IH]; intros p Hp Hall; [done|]. cbn [toLowerCase] in Hp. subst p.
  cbn [allChars] in *. apply andb_true_iff in Hall as [Hx Hall].
  by rewrite (lower_letter_word x Hx), (IH _ eq_refl Hall).
Qed.

Lemma keyword_words (w : string) :
  toLowerCase w = "check" \/ toLowerCase w = "eval" ->
  allChars is_word w = true /\ w <> "".
Proof.
  intros H. split.
  - destruct H as [H|H]; by apply (lower_letters_words w _ H).
  - intros ->. by destruct H.
Qed.

Lemma words_bounds (w : string) (prev : option ascii) (b : string) :
  allChars is_word w = true -> w <> "" ->
  word_after (w +:+ b) = true /\ word_before (lastChar prev w) = true.
Proof.
  intros Hw Hne. split.
  - destruct w as [|c w]; [done|]. cbn [allChars] in Hw.
    by apply andb_true_iff in Hw as [Hc _].
  - destruct (lastChar prev w) as [c|] eqn:Hc.
    + cbn [word_before]. by apply (allChars_lastChar is_word w prev c).
    + destruct w as [|c w]; [done|]. cbn [lastChar] in Hc. clear -Hc. exfalso.
      revert c Hc. induction w as [|d w IH]; intros c Hc; [done|]. by apply (IH d).
Qed.

Lemma words_nonspace (w : string) :
  allChars is_word w = true -> w <> "" -> StartsNonSpace w /\ EndsNonSpace w.
Proof.
  intros Hw Hne. split.
  - destruct w as [|c w]; [done|]. exists c, w. split; [done|]. cbn [allChars] in Hw.
    apply andb_true_iff in Hw as [Hc _]. by apply word_not_space.
  - right. destruct (words_bounds w None "" Hw Hne) as [_ Hb].
    destruct (lastChar None w) as [c|] eqn:Hc; [|done]. exists c. split; [done|].
    by apply word_not_space.
Qed.

Lemma matches_query (prev : option ascii) (u b : string) :
  Matches re_query prev u b <->
  (toLowerCase u = "check" \/ toLowerCase u = "eval") /\
  word_before prev = false /\ word_after b = false.
Proof.
  unfold re_query. cbn [Matches]. split.
  - intros (u1 & u2 & -> & [-> Hb1] & (w & u3 & -> & Hw & [-> Hb2])).
    rewrite ?sapp_nil_l, ?sapp_nil_r in *. cbn [lastChar] in Hb2.
    assert (toLowerCase w = "check" \/ toLowerCase w = "eval") as Hkw.
    { destruct Hw as [Hw|Hw]; apply matches_litci in Hw; [by left|by right]. }
    split; [exact Hkw|]. destruct (keyword_words w Hkw) as [Hall Hne].
    destruct (words_bounds w prev b Hall Hne) as [Ha Hl]. rewrite Ha in Hb1. rewrite Hl in Hb2.
    split; [by destruct (word_before prev)|by destruct (word_after b)].
  - intros (Hkw & Hp & Hb). destruct (keyword_words u Hkw) as [Hall Hne].
    destruct (words_bounds u prev b Hall Hne) as [Ha Hl].
    exists "", u. repeat split.
    + by rewrite Hp, Ha.
    + exists u, "". rewrite sapp_nil_r. repeat split.
      * destruct Hkw as [H|H]; [left|right]; by apply matches_litci.
      * cbn [lastChar]. by rewrite Hl, Hb.
Qed.

Lemma test_symbol (s : string) : regex_test re_symbol s = true <-> hasMarkerToken s.
Proof.
  rewrite regex_test_spec. unfold MatchesIn, hasMarkerToken, Occurs. split.
  - intros (a & u & b & -> & (c & w & -> & Hc & Hw)%matches_symbol).
    exists c. split; [done|]. exists a, (w +:+ b). split; [by string_eq|done].
  - intros (c & Hc & a & b & -> & _). exists a, (String "#" (String c "")), b.
    split; [done|]. apply matches_symbol. by exists c, "".
Qed.

Lemma test_dotted (s : string) : regex_test re_dotted s = true <-> hasDottedIdentifier s.
Proof.
  rewrite regex_test_spec. unfold MatchesIn, hasDottedIdentifier, Occurs. split.
  - intros (a & u & b & -> & (x & w & y & w' & -> & Hx & Hw & Hy & Hw')%matches_dotted).
    exists x, w, y. repeat split; [done..|]. exists a, (w' +:+ b). split; [by string_eq|done].
  - intros (x & w & y & Hx & Hw & Hy & a & b & -> & _).
    exists a, (String x w +:+ "." +:+ String y ""), b. split; [done|].
    apply matches_dotted. by exists x, w, y, "".
Qed.

Lemma test_query (s : string) : regex_test re_query s = true <-> hasQueryKeyword s.
Proof.
  rewrite regex_test_spec. unfold MatchesIn, hasQueryKeyword, Occurs. split.
  - intros (a & u & b & -> & (Hkw & Hp & Hb)%matches_query).
    exists u. split; [done|]. by exists a, b.
  - intros (w & Hkw & a & b & -> & HB). destruct (HB eq_refl) as [Hp Hb].
    exists a, w, b. split; [done|]. by apply matches_query.
Qed.

(** Each of the four signs is in a text exactly when it is in the trimmed text. *)
Lemma signs_trim (text : string) :
  (hasSemicolon (trim text) <-> hasSemicolon text) /\
  (hasQueryKeyword (trim text) <-> hasQueryKeyword text) /\
  (hasMarkerToken (trim text) <-> hasMarkerToken text) /\
  (hasDottedIdentifier (trim text) <-> hasDottedIdentifier text).
Proof.
  assert (Hsemi : StartsNonSpace ";" /\ EndsNonSpace ";").
  { split; [by exists ";"%char, ""|right; by exists ";"%char]. }
  assert (Hmark : forall c, is_word c = true ->
            StartsNonSpace (String "#" (String c "")) /\ EndsNonSpace (String "#" (String c ""))).
  { intros c Hc. split; [by exists "#"%char, (String c "")|].
    right. exists c. split; [done|]. by apply word_not_space. }
  assert (Hdot : forall x w y, is_alpha_ x = true -> is_alpha_ y = true ->
            StartsNonSpace (String x w +:+ "." +:+ String y "") /\
            EndsNonSpace (String x w +:+ "." +:+ String y "")).
  { intros x w y Hx Hy. split.
    - exists x, (w +:+ "." +:+ String y ""). split; [done|]. apply word_not_space.
      unfold is_word. by rewrite Hx.
    - right. exists y. split.
      + rewrite lastChar_app. by rewrite lastChar_app.
      + apply word_not_space. unfold is_word. by rewrite Hy. }
  unfold hasSemicolon, hasQueryKeyword, hasMarkerToken, hasDottedIdentifier.
  split; [|split; [|split]].
  - destruct Hsemi. by apply Occurs_trim.
  - split; intros (w & Hkw & Hocc); exists w; (split; [done|]);
      destruct (keyword_words w Hkw) as [Hall Hne];
      destruct (words_nonspace w Hall Hne); by apply (Occurs_trim true w text).
  - split; intros (c & Hc & Hocc); exists c; (split; [done|]);
      destruct (Hmark c Hc); by apply (Occurs_trim false _ text).
  - split; intros (x & w & y & Hx & Hw & Hy & Hocc); exists x, w, y; (repeat split; [done..|]);
      destruct (Hdot x w y Hx Hy); by apply (Occurs_trim false _ text).
Qed.

(** C3: [isLikelySSELang] selects the SSE-Lang dialect exactly for the texts
    that hold a semicolon, the word CHECK or EVAL in any case, the marker
    [#] before a word character, or a dotted identifier; it is a function
    of the text alone, and [parseSSELangOrLegacy] parses with the SSE-Lang
    parser when it holds and with the legacy line parser when it does not. *)
Theorem isLikelySSELang_selects (text : string) :
  (isLikelySSELang text = true <->
   hasSemicolon text \/ hasQueryKeyword text \/ hasMarkerToken text \/ hasDottedIdentifier text) /\
  (forall ruleset,
     parseSSELangOrLegacy text ruleset =
       if isLikelySSELang text
       then st ← parseSSELangProgram text ruleset; Ok (pmap st)
       else Ok (parseKeyValueLines text ruleset)).
Proof.
  split; [|reflexivity].
  destruct (signs_trim text) as (H1 & H2 & H3 & H4). rewrite <- H1, <- H2, <- H3, <- H4.
  unfold isLikelySSELang. destruct (trim text) as [|c t] eqn:Ht.
  - cbn [is_empty]. split; [done|].
    unfold hasSemicolon, hasQueryKeyword, hasMarkerToken, hasDottedIdentifier.
    intros [H|[(w & Hkw & H)|[(x & _ & H)|(x & w & y & _ & _ & _ & H)]]];
      exfalso; (eapply Occurs_nil; [|exact H]); try done.
    by destruct (keyword_words w Hkw).
  - cbn [is_empty].
    pose proof (includes_spec ";" (String c t)) as Hs. fold (hasSemicolon (String c t)) in Hs.
    pose proof (test_query (String c t)) as Hq.
    pose proof (test_symbol (String c t)) as Hm.
    pose proof (test_dotted (String c t)) as Hd.
    destruct (includes ";" (String c t)); [split; [intros _; left; by apply Hs|done]|].
    destruct (regex_test re_query (String c t)); [split; [intros _; right; left; by apply Hq|done]|].
    destruct (regex_test re_symbol (String c t));
      [split; [intros _; right; right; left; by apply Hm|done]|].
    destruct (regex_test re_dotted (String c t));
      [split; [intros _; right; right; right; by apply Hd|done]|].
    split; [done|]. intros [H|[H|[H|H]]]; [apply Hs in H|apply Hq in H|apply Hm in H|apply Hd in H]; done.
Qed.

(** ** The legacy line parser *)

Lemma matches_line_separator (s : string) :
  MatchesIn re_line s -> allChars not_sep s = false.
Proof.
  intros (a & u & b & -> & Hm). unfold re_line in Hm. cbn [Matches] in Hm.
  destruct Hm as (u1 & u2 & -> & _ & (g & u3 & -> & _ & (sp & u4 & -> & _ &
                   (u5 & u6 & -> & (c & -> & Hc) & _)))).
  rewrite !allChars_app. cbn [allChars]. unfold not_sep at 5. rewrite Hc. cbn [negb andb].
  by rewrite !andb_false_r.
Qed.

Lemma legacyLine_skips (ruleset : Ruleset) (map : FieldMap) (line : string) :
  hasSeparator line = false -> legacyLine ruleset map line = map.
Proof.
  unfold hasSeparator, legacyLine. intros Hsep%negb_false_iff.
  destruct (regex_exec re_line line) as [caps|] eqn:Hexec; [|done].
  apply regex_exec_matches, matches_line_separator in Hexec. congruence.
Qed.

Lemma fold_legacy_filter (ruleset : Ruleset) (ls : list string) :
  forall map,
    fold_left (legacyLine ruleset) ls map =
    fold_left (legacyLine ruleset) (List.filter hasSeparator ls) map.
Proof.
  induction ls as [|l ls IH]; intros map; [done|]. cbn [fold_left List.filter].
  destruct (hasSeparator l) eqn:Hl; cbn [fold_left]; [apply IH|].
  rewrite legacyLine_skips by done. apply IH.
Qed.

(** C6: the legacy line parser is a total function from texts and rulesets
    to field maps.  A line with no colon and no equals sign leaves the map
    as it is; the result is that of the lines that have a separator; and
    where the legacy dialect is selected, parsing returns that map and no
    error. *)
Theorem parseKeyValueLines_lenient (text : string) (ruleset : Ruleset) :
  (forall map line, hasSeparator line = false -> legacyLine ruleset map line = map) /\
  parseKeyValueLines text ruleset =
    fold_left (legacyLine ruleset) (List.filter hasSeparator (lines text)) [] /\
  (isLikelySSELang text = false ->
   parseSSELangOrLegacy text ruleset = Ok (parseKeyValueLines text ruleset)).
Proof.
  split; [|split].
  - intros map line. apply legacyLine_skips.
  - unfold parseKeyValueLines. apply fold_legacy_filter.
  - intros H. unfold parseSSELangOrLegacy. by rewrite H.
Qed.

(** ** Alias resolution *)

Lemma alias_inserts_values (P : string -> Prop) (c : string) (als : list string) :
  forall acc : gmap string string,
    P c ->
    (forall k v, acc !! k = Some v -> P v) ->
    forall k v,
      fold_left (fun acc a => <[toLowerCase a := c]> acc) als acc !! k = Some v -> P v.
Proof.
  induction als as [|a als IH]; intros acc Hc Hacc k v; simpl.
  - apply Hacc.
  - apply IH; [exact Hc|].
    intros k' v' Hk'. destruct (base.decide (toLowerCase a = k')) as [Heq|Hne].
    + subst k'. rewrite lookup_insert_eq in Hk'. by inversion Hk'; subst.
    + rewrite lookup_insert_ne in Hk' by done. eauto.
Qed.

Lemma aliasEntry_values (P : string -> Prop) (acc : gmap string string) e :
  P (fst e) ->
  (forall k v, acc !! k = Some v -> P v) ->
  forall k v, aliasEntry acc e !! k = Some v -> P v.
Proof.
  intros He Hacc. unfold aliasEntry. apply alias_inserts_values; [exact He|].
  intros k v Hk. destruct (base.decide (toLowerCase (fst e) = k)) as [Heq|Hne].
  - subst k. rewrite lookup_insert_eq in Hk. by inversion Hk; subst.
  - rewrite lookup_insert_ne in Hk by done. eauto.
Qed.

Lemma alias_fold_values (entries : list (string * option (list string))) :
  forall (acc : gmap string string) (P : string -> Prop),
      (forall e, In e entries -> P (fst e)) ->
      (forall k v, acc !! k = Some v -> P v) ->
      forall k v, fold_left aliasEntry entries acc !! k = Some v -> P v.
Proof.
  induction entries as [|e entries IH]; intros acc P Hent Hacc k v; simpl.
  - apply Hacc.
  - apply IH.
    + intros e' He'. apply Hent. by right.
    + apply aliasEntry_values; [|exact Hacc]. apply Hent. by left.
Qed.

(** Whatever the table holds is a declared canonical name. *)
Lemma aliasToCanonical_values (ruleset : Ruleset) (k c : string) :
  aliasToCanonical ruleset !! k = Some c -> In c (canonicalNames ruleset).
Proof.
  unfold aliasToCanonical, canonicalNames.
  apply (alias_fold_values _ ∅
           (fun c => In c (List.map fst (default [] (aliases ruleset))))).
  - intros e He. by apply in_map.
  - intros k' v'. by rewrite lookup_empty.
Qed.

(** C7, as amended: for every ruleset in which each declared canonical name
    canonicalizes to itself, [canonKey] is idempotent on every raw key. *)
Theorem canonKey_idempotent (ruleset : Ruleset) (k : string) :
  (forall c, In c (canonicalNames ruleset) -> canonKey ruleset c = c) ->
  canonKey ruleset (canonKey ruleset k) = canonKey ruleset k.
Proof.
  intros Hfix.
  assert (Hk : canonKey ruleset k = k \/ In (canonKey ruleset k) (canonicalNames ruleset)).
  { unfold canonKey.
    destruct (aliasToCanonical ruleset !! toLowerCase k) as [c|] eqn:Hk; [|by left].
    destruct (is_empty c); [by left|]. right. by eapply aliasToCanonical_values. }
  destruct Hk as [Hk|Hk].
  - by rewrite !Hk.
  - by apply Hfix.
Qed.

(** ** Comparison *)

Lemma indexOf_ge x l : (-1 <= indexOf x l)%Z.
Proof.
  induction l as [|y l IH]; cbn [indexOf]; [lia|].
  destruct (String.eqb y x); [lia|]. destruct (indexOf x l <? 0)%Z eqn:E; lia.
Qed.

Lemma indexOf_position x l (i : nat) :
  indexOf x l = Z.of_nat i <->
  l !! i = Some x /\ forall j, (j < i)%nat -> l !! j <> Some x.
Proof.
  revert i. induction l as [|y l IH]; intros i; cbn [indexOf].
  - split; [lia|]. intros [H _]. by rewrite lookup_nil in H.
  - destruct (String.eqb_spec y x) as [->|Hne].
    + split.
      * intros H. assert (i = 0%nat) as -> by lia. split; [done|]. intros j Hj. lia.
      * intros [Hi Hfirst]. destruct i as [|i]; [done|].
        exfalso. apply (Hfirst 0%nat); [lia|done].
    + pose proof (indexOf_ge x l) as Hge.
      destruct (indexOf x l <? 0)%Z eqn:E.
      * split; [lia|]. intros [Hi Hfirst]. destruct i as [|i].
        { cbn in Hi. congruence. }
        cbn in Hi. assert (indexOf x l = Z.of_nat i) as Hix; [|lia].
        apply IH. split; [done|]. intros j Hj. apply (Hfirst (S j)). lia.
      * split.
        { intros H. destruct i as [|i]; [lia|].
          assert (indexOf x l = Z.of_nat i) as Hix by lia.
          apply IH in Hix as [Hi Hfirst]. split; [done|].
          intros [|j] Hj; cbn; [congruence|]. apply Hfirst. lia. }
        { intros [Hi Hfirst]. destruct i as [|i].
          - cbn in Hi. congruence.
          - cbn in Hi. assert (indexOf x l = Z.of_nat i) as Hix; [|lia].
            apply IH. split; [done|]. intros j Hj. apply (Hfirst (S j)). lia. }
Qed.

Lemma inherited_In (k : string) : inherited k = true <-> In k objectPrototype.
Proof.
  unfold inherited. rewrite existsb_exists. split.
  - by intros (x & Hin & ->%String.eqb_eq).
  - intros H. exists k. split; [done|apply String.eqb_refl].
Qed.

Lemma Inherits_dec (ruleset : Ruleset) (field : string) :
  {Inherits ruleset field} + {~ Inherits ruleset field}.
Proof.
  unfold Inherits. destruct (default ∅ (ordinal_scales ruleset) !! field) eqn:E.
  - right. by intros [? _].
  - destruct (inherited field) eqn:Ei.
    + left. split; [done|by apply inherited_In].
    + right. intros [_ H%inherited_In]. congruence.
Qed.

(** [ordinalIndex] throws exactly on the fields that have no scale to be
    looked up, whatever the value. *)
Lemma ordinalIndex_Inherits (ruleset : Ruleset) (field : string) (v : value) :
  Inherits ruleset field -> ordinalIndex ruleset field v = Throw notAScale.
Proof.
  intros [Hnone Hin%inherited_In]. unfold ordinalIndex. by rewrite Hnone, Hin.
Qed.

Lemma ordinalIndex_throw (ruleset : Ruleset) (field : string) (v : value) (e : error) :
  ordinalIndex ruleset field v = Throw e -> e = notAScale /\ Inherits ruleset field.
Proof.
  unfold ordinalIndex, Inherits.
  destruct (default ∅ (ordinal_scales ruleset) !! field); [done|].
  destruct (inherited field) eqn:Ei; [|done]. intros [= <-]. by rewrite <- inherited_In.
Qed.

Lemma ordinalIndex_returns (ruleset : Ruleset) (field : string) (v : value) :
  ~ Inherits ruleset field -> exists o, ordinalIndex ruleset field v = Ok o.
Proof.
  intros Hno. destruct (ordinalIndex ruleset field v) as [o|e] eqn:E; [eauto|].
  by apply ordinalIndex_throw in E as [_ ?].
Qed.

(** [ordinalIndex] returns the scale position, and [null] when there is none. *)
Lemma ordinalIndex_position (ruleset : Ruleset) (field : string) (v : value) (z : Z) :
  ordinalIndex ruleset field v = Ok (Some z) <->
  exists i, z = Z.of_nat i /\ scalePosition ruleset field v i.
Proof.
  unfold ordinalIndex, scalePosition.
  destruct (default ∅ (ordinal_scales ruleset) !! field) as [scale|] eqn:Hs.
  - fold (levelNames scale).
    destruct (0 <=? indexOf _ _)%Z eqn:E.
    + split.
      * intros H. inversion H; subst z. exists (Z.to_nat (indexOf (toLowerCase (ToString v)) (levelNames scale))).
        split; [lia|]. exists scale. split; [done|]. apply indexOf_position. lia.
      * intros (i & -> & scale' & Hs' & Hpos). inversion Hs'; subst scale'.
        do 2 f_equal. by apply indexOf_position.
    + split; [done|]. intros (i & -> & scale' & Hs' & Hpos). inversion Hs'; subst scale'.
      apply indexOf_position in Hpos. lia.
  - split; [by destruct (inherited field)|]. by intros (i & _ & scale' & Hs' & _).
Qed.

Lemma scalePosition_unique (ruleset : Ruleset) (field : string) (v : value) (i j : nat) :
  scalePosition ruleset field v i -> scalePosition ruleset field v j -> i = j.
Proof.
  intros Hi Hj.
  assert (ordinalIndex ruleset field v = Ok (Some (Z.of_nat i))) as H1
    by (apply ordinalIndex_position; eauto).
  assert (ordinalIndex ruleset field v = Ok (Some (Z.of_nat j))) as H2
    by (apply ordinalIndex_position; eauto).
  rewrite H1 in H2. inversion H2. lia.
Qed.

Lemma ordinalIndex_onScale (ruleset : Ruleset) (field : string) (v : value) :
  onScale ruleset field v <-> exists z, ordinalIndex ruleset field v = Ok (Some z).
Proof.
  split.
  - intros [i Hi]. exists (Z.of_nat i). apply ordinalIndex_position. eauto.
  - intros [z Hz]. apply ordinalIndex_position in Hz as (i & _ & Hi). by exists i.
Qed.

Lemma onScale_own (ruleset : Ruleset) (field : string) (v : value) :
  onScale ruleset field v -> ~ Inherits ruleset field.
Proof. intros (i & scale & Hs & _) [Hnone _]. congruence. Qed.

(** A comparison throws exactly on the fields that have no scale to be
    looked up, and then whatever the operator and the values. *)
Lemma compareValue_Inherits (ruleset : Ruleset) (field : string) (op : option string)
    (lhs rhs : value) :
  Inherits ruleset field -> compareValue ruleset field op lhs rhs = Throw notAScale.
Proof. intros H. unfold compareValue. by rewrite (ordinalIndex_Inherits _ _ lhs H). Qed.

Lemma compareValue_throw (ruleset : Ruleset) (field : string) (op : option string)
    (lhs rhs : value) (e : error) :
  compareValue ruleset field op lhs rhs = Throw e -> e = notAScale /\ Inherits ruleset field.
Proof.
  unfold compareValue.
  destruct (ordinalIndex ruleset field lhs) as [li|e1] eqn:E1; cbn [mbind result_bind].
  - destruct (ordinalIndex ruleset field rhs) as [ri|e2] eqn:E2; cbn [mbind result_bind];
      [done|]. intros [= <-]. by eapply ordinalIndex_throw.
  - intros [= <-]. by eapply ordinalIndex_throw.
Qed.

Lemma compareValue_returns (ruleset : Ruleset) (field : string) (op : option string)
    (lhs rhs : value) :
  ~ Inherits ruleset field -> exists b, compareValue ruleset field op lhs rhs = Ok b.
Proof.
  intros Hno. destruct (compareValue ruleset field op lhs rhs) as [b|e] eqn:E; [eauto|].
  by apply compareValue_throw in E as [_ ?].
Qed.

Lemma compareValue_ordinal (ruleset : Ruleset) (field : string) (op : option string)
    (lhs rhs : value) (i j : nat) :
  scalePosition ruleset field lhs i -> scalePosition ruleset field rhs j ->
  compareValue ruleset field op lhs rhs =
    Ok (if op_is op ">=" then (j <=? i)%nat
        else if op_is op "<=" then (i <=? j)%nat
        else if op_is op ">" then (j <? i)%nat
        else if op_is op "<" then (i <? j)%nat
        else if op_is op "=" then (i =? j)%nat
        else if op_is op "!=" then negb (i =? j)%nat
        else false).
Proof.
  intros Hi Hj. unfold compareValue.
  assert (ordinalIndex ruleset field lhs = Ok (Some (Z.of_nat i))) as ->
    by (apply ordinalIndex_position; eauto).
  assert (ordinalIndex ruleset field rhs = Ok (Some (Z.of_nat j))) as ->
    by (apply ordinalIndex_position; eauto).
  cbn [mbind result_bind]. f_equal.
  repeat match goal with |- context [op_is op ?s] => destruct (op_is op s) end;
    try reflexivity.
  - destruct (Nat.leb_spec j i), (Z.leb_spec (Z.of_nat j) (Z.of_nat i)); (reflexivity || lia).
  - destruct (Nat.leb_spec i j), (Z.leb_spec (Z.of_nat i) (Z.of_nat j)); (reflexivity || lia).
  - destruct (Nat.ltb_spec j i), (Z.ltb_spec (Z.of_nat j) (Z.of_nat i)); (reflexivity || lia).
  - destruct (Nat.ltb_spec i j), (Z.ltb_spec (Z.of_nat i) (Z.of_nat j)); (reflexivity || lia).
  - destruct (Nat.eqb_spec i j), (Z.eqb_spec (Z.of_nat i) (Z.of_nat j)); (reflexivity || lia).
  - destruct (Nat.eqb_spec i j), (Z.eqb_spec (Z.of_nat i) (Z.of_nat j)); (reflexivity || lia).
Qed.

Lemma compareValue_off_scale (ruleset : Ruleset) (field : string) (op : option string)
    (lhs rhs : value) :
  ~ Inherits ruleset field ->
  ~ (onScale ruleset field lhs /\ onScale ruleset field rhs) ->
  compareValue ruleset field op lhs rhs =
    Ok match lhs, rhs with
       | VNum a, VNum b =>
           if op_is op ">=" then num_geb a b
           else if op_is op "<=" then num_leb a b
           else if op_is op ">" then num_gtb a b
           else if op_is op "<" then num_ltb a b
           else if op_is op "=" then num_eqb a b
           else if op_is op "!=" then negb (num_eqb a b)
           else false
       | _, _ =>
           if op_is op "=" then String.eqb (toLowerCase (ToString lhs)) (toLowerCase (ToString rhs))
           else if op_is op "!=" then negb (String.eqb (toLowerCase (ToString lhs)) (toLowerCase (ToString rhs)))
           else false
       end.
Proof.
  intros Hown Hoff. unfold compareValue.
  destruct (ordinalIndex_returns ruleset field lhs Hown) as [li Hl].
  destruct (ordinalIndex_returns ruleset field rhs Hown) as [ri Hr].
  rewrite Hl, Hr. cbn [mbind result_bind].
  destruct li as [li|]; [destruct ri as [ri|]|]; try reflexivity.
  exfalso. apply Hoff. split; apply ordinalIndex_onScale; eauto.
Qed.

(** X24: the tiers of [compareValue].  On a field that has no scale to be
    looked up (the name of an inherited member, with no scale configured
    for it) every comparison throws; on every other field every comparison
    returns.  It compares scale positions exactly when both values are on
    the scale configured for the field, and then each operator holds iff
    it holds of the two positions; otherwise two numbers are compared as
    numbers; otherwise only equality and inequality of the texts, case
    apart, can hold, and the four ordering operators are false. *)
Theorem compareValue_policy (ruleset : Ruleset) (field : string) (lhs rhs : value) :
  let cmp op := compareValue ruleset field (Some op) lhs rhs in
  (Inherits ruleset field -> forall op, cmp op = Throw notAScale) /\
  (~ Inherits ruleset field -> forall op, exists b, cmp op = Ok b) /\
  (forall i j,
      scalePosition ruleset field lhs i -> scalePosition ruleset field rhs j ->
      (cmp ">" = Ok true <-> (i > j)%nat) /\ (cmp ">=" = Ok true <-> (i >= j)%nat) /\
      (cmp "<" = Ok true <-> (i < j)%nat) /\ (cmp "<=" = Ok true <-> (i <= j)%nat) /\
      (cmp "=" = Ok true <-> i = j) /\ (cmp "!=" = Ok true <-> i <> j)) /\
  (~ Inherits ruleset field ->
   ~ (onScale ruleset field lhs /\ onScale ruleset field rhs) ->
   forall a b, lhs = VNum a -> rhs = VNum b ->
      cmp ">" = Ok (num_gtb a b) /\ cmp ">=" = Ok (num_geb a b) /\
      cmp "<" = Ok (num_ltb a b) /\ cmp "<=" = Ok (num_leb a b) /\
      cmp "=" = Ok (num_eqb a b) /\ cmp "!=" = Ok (negb (num_eqb a b))) /\
  (~ Inherits ruleset field ->
   ~ (onScale ruleset field lhs /\ onScale ruleset field rhs) ->
   is_number lhs && is_number rhs = false ->
      (cmp "=" = Ok true <-> toLowerCase (ToString lhs) = toLowerCase (ToString rhs)) /\
      (cmp "!=" = Ok true <-> toLowerCase (ToString lhs) <> toLowerCase (ToString rhs)) /\
      cmp ">" = Ok false /\ cmp ">=" = Ok false /\ cmp "<" = Ok false /\ cmp "<=" = Ok false).
Proof.
  intros cmp.
  assert (Hok : forall b c : bool, Ok b = Ok c <-> b = c).
  { intros b c. split; [by intros [= ->]|by intros ->]. }
  split; [|split; [|split; [|split]]].
  - intros H op. by apply compareValue_Inherits.
  - intros H op. by apply compareValue_returns.
  - intros i j Hi Hj. unfold cmp.
    rewrite !(compareValue_ordinal _ _ _ _ _ i j Hi Hj). eval_ops. rewrite !Hok.
    rewrite Nat.ltb_lt, Nat.leb_le, Nat.ltb_lt, Nat.leb_le, Nat.eqb_eq, negb_true_iff, Nat.eqb_neq.
    repeat split; lia.
  - intros Hown Hoff a b -> ->. unfold cmp. rewrite !compareValue_off_scale by done.
    eval_ops. repeat split; reflexivity.
  - intros Hown Hoff Hnum. unfold cmp. rewrite !compareValue_off_scale by done.
    assert (forall op,
      match lhs, rhs with
      | VNum a, VNum b =>
          if op_is (Some op) ">=" then num_geb a b
          else if op_is (Some op) "<=" then num_leb a b
          else if op_is (Some op) ">" then num_gtb a b
          else if op_is (Some op) "<" then num_ltb a b
          else if op_is (Some op) "=" then num_eqb a b
          else if op_is (Some op) "!=" then negb (num_eqb a b)
          else false
      | _, _ =>
          if op_is (Some op) "=" then String.eqb (toLowerCase (ToString lhs)) (toLowerCase (ToString rhs))
          else if op_is (Some op) "!=" then negb (String.eqb (toLowerCase (ToString lhs)) (toLowerCase (ToString rhs)))
          else false
      end =
      if op_is (Some op) "=" then String.eqb (toLowerCase (ToString lhs)) (toLowerCase (ToString rhs))
      else if op_is (Some op) "!=" then negb (String.eqb (toLowerCase (ToString lhs)) (toLowerCase (ToString rhs)))
      else false) as Hstr.
    { intros op. destruct lhs, rhs; try reflexivity. discriminate Hnum. }
    rewrite !Hstr. eval_ops. rewrite !Hok.
    rewrite negb_true_iff, String.eqb_eq, String.eqb_neq. repeat split; tauto.
Qed.

(** ** Rule evaluation *)

Lemma Unparsed_test (c : Condition) :
  truthy (c_raw c) && (negb (truthy (c_field c)) || negb (truthy (c_op c))) = true
  <-> Unparsed c.
Proof. unfold Unparsed. rewrite andb_true_iff, orb_true_iff, !negb_true_iff. reflexivity. Qed.

(** The three things a condition can do are exclusive. *)
Lemma Holds_not_Fails (ruleset : Ruleset) (inputMap : FieldMap) (c : Condition) :
  Holds ruleset inputMap c -> ~ Fails ruleset inputMap c.
Proof.
  intros (Hnot & f & lhs & Hf & Hget & Hcmp) [Hun|[(f' & Hf' & Hnone)|[Hnone|(f' & l' & Hf' & Hget' & Hc')]]].
  - by apply Hnot.
  - congruence.
  - congruence.
  - congruence.
Qed.

Lemma Holds_not_Breaks (ruleset : Ruleset) (inputMap : FieldMap) (c : Condition) :
  Holds ruleset inputMap c -> ~ Breaks ruleset inputMap c.
Proof.
  intros (_ & f & lhs & Hf & Hget & Hcmp) (_ & f' & Hf' & _ & Hinh).
  assert (f' = f) as -> by congruence.
  by rewrite (compareValue_Inherits _ _ _ _ _ Hinh) in Hcmp.
Qed.

Lemma Fails_not_Breaks (ruleset : Ruleset) (inputMap : FieldMap) (c : Condition) :
  Fails ruleset inputMap c -> ~ Breaks ruleset inputMap c.
Proof.
  intros [Hun|[(f & Hf & Hnone)|[Hnone|(f & l & Hf & Hget & Hc)]]] (Hnot & f' & Hf' & Hhas & Hinh).
  - by apply Hnot.
  - assert (f' = f) as -> by congruence. unfold map_has in Hhas. by rewrite Hnone in Hhas.
  - congruence.
  - assert (f' = f) as -> by congruence.
    by rewrite (compareValue_Inherits _ _ _ _ _ Hinh) in Hc.
Qed.

(** The conditions that hold at the front of a list are passed over. *)
Lemma conditionsMatch_holds (ruleset : Ruleset) (inputMap : FieldMap)
    (pre conds : list Condition) :
  Forall (Holds ruleset inputMap) pre ->
  conditionsMatch ruleset (pre ++ conds) inputMap = conditionsMatch ruleset conds inputMap.
Proof.
  induction 1 as [|c pre (Hnot & f & lhs & Hf & Hget & Hcmp) _ IH]; [done|].
  cbn [app conditionsMatch]. rewrite <- Unparsed_test in Hnot.
  destruct (truthy (c_raw c) && _); [done|]. rewrite Hf, Hget, Hcmp. exact IH.
Qed.

(** What [ruleMatches] does, by the first condition that does not hold. *)
Lemma conditionsMatch_spec (ruleset : Ruleset) (inputMap : FieldMap) (conds : list Condition) :
  match conditionsMatch ruleset conds inputMap with
  | Ok m =>
      if matched m
      then reason m = None /\ Forall (Holds ruleset inputMap) conds
      else (exists why, reason m = Some why) /\
           exists pre c post, conds = pre ++ c :: post /\
             Forall (Holds ruleset inputMap) pre /\ Fails ruleset inputMap c
  | Throw e =>
      e = notAScale /\
      exists pre c post, conds = pre ++ c :: post /\
        Forall (Holds ruleset inputMap) pre /\ Breaks ruleset inputMap c
  end.
Proof.
  induction conds as [|c conds IH]; [by split|]. cbn [conditionsMatch].
  pose proof (Unparsed_test c) as Hun.
  destruct (truthy (c_raw c) && _) eqn:E.
  { cbn [matched reason]. split; [eauto|]. exists [], c, conds. repeat split; [done|].
    left. by apply Hun. }
  assert (~ Unparsed c) as Hnot by (rewrite <- Hun; congruence).
  destruct (c_field c) as [field|] eqn:Ef.
  2:{ cbn [matched reason]. split; [eauto|]. exists [], c, conds. repeat split; [done|].
      right. right. by left. }
  destruct (map_get inputMap field) as [lhs|] eqn:Eg.
  2:{ cbn [matched reason]. split; [eauto|]. exists [], c, conds. repeat split; [done|].
      right. left. by exists field. }
  destruct (compareValue ruleset field (c_op c) lhs (c_value c)) as [[|]|e] eqn:Ec;
    cbn [mbind result_bind negb].
  - assert (Holds ruleset inputMap c) as Hc.
    { split; [exact Hnot|]. exists field, lhs. by rewrite Ef. }
    destruct (conditionsMatch ruleset conds inputMap) as [m|e].
    + destruct (matched m).
      * destruct IH as [? ?]. split; [done|by constructor].
      * destruct IH as [? (pre & c' & post & -> & Hpre & Hc')]. split; [done|].
        exists (c :: pre), c', post. repeat split; [by constructor|done].
    + destruct IH as [? (pre & c' & post & -> & Hpre & Hc')]. split; [done|].
      exists (c :: pre), c', post. split; [done|]. split; [by constructor|done].
  - cbn [matched reason]. split; [eauto|]. exists [], c, conds. repeat split; [done|].
    right. right. right. exists field, lhs. by rewrite Ef.
  - apply compareValue_throw in Ec as [-> Hinh]. split; [done|].
    exists [], c, conds. split; [done|]. split; [done|]. split; [done|]. exists field.
    split; [done|]. split; [|done]. unfold map_has. by rewrite Eg.
Qed.

Lemma conditionsMatch_breaks (ruleset : Ruleset) (inputMap : FieldMap)
    (pre : list Condition) (c : Condition) (post : list Condition) :
  Forall (Holds ruleset inputMap) pre -> Breaks ruleset inputMap c ->
  conditionsMatch ruleset (pre ++ c :: post) inputMap = Throw notAScale.
Proof.
  intros Hpre (Hnot & f & Hf & Hhas & Hinh). rewrite conditionsMatch_holds by done.
  cbn [conditionsMatch]. rewrite <- Unparsed_test in Hnot.
  destruct (truthy (c_raw c) && _); [done|]. rewrite Hf. unfold map_has in Hhas.
  destruct (map_get inputMap f) as [lhs|]; [|done].
  by rewrite (compareValue_Inherits _ _ _ _ _ Hinh).
Qed.

(** The first condition that does not hold is the same however the list is
    split. *)
Lemma first_not_holding {A : Type} (P : A -> Prop) (pre pre' : list A) (c c' : A)
    (post post' : list A) :
  pre ++ c :: post = pre' ++ c' :: post' ->
  Forall P pre -> ~ P c -> Forall P pre' -> ~ P c' ->
  pre = pre' /\ c = c' /\ post = post'.
Proof.
  revert pre'. induction pre as [|x pre IH]; intros [|x' pre'] Heq Hpre Hc Hpre' Hc';
    cbn [app] in Heq.
  - by inversion Heq.
  - inversion Heq; subst. by apply Forall_cons in Hpre' as [? _].
  - inversion Heq; subst. by apply Forall_cons in Hpre as [? _].
  - inversion Heq; subst. apply Forall_cons in Hpre as [_ Hpre].
    apply Forall_cons in Hpre' as [_ Hpre'].
    destruct (IH pre' ltac:(done) Hpre Hc Hpre' Hc') as (-> & -> & ->). done.
Qed.

(** A condition whose field the map lacks does not hold, and does not break. *)
Lemma absent_Fails (ruleset : Ruleset) (inputMap : FieldMap) (c : Condition) (f : string) :
  c_field c = Some f -> map_has inputMap f = false -> Fails ruleset inputMap c.
Proof.
  intros Hf Habs. right. left. exists f. split; [done|]. unfold map_has in Habs.
  by destruct (map_get inputMap f).
Qed.

(** X25: a rule with a condition whose field is absent from the field map
    is never triggered, whatever the operator and the literal.  When
    [ruleMatches] returns, it returns a non-match with its reason; and it
    returns whenever no condition of the rule breaks.  When it throws
    instead, a condition that breaks stands before the one on the absent
    field.  When the conditions before the one on the absent field all
    hold, the reason names the missing field. *)
Theorem ruleMatches_absent_field (ruleset : Ruleset) (rule : Rule) (inputMap : FieldMap)
    (c : Condition) (f : string) :
  In c (default [] (r_if rule)) -> c_field c = Some f -> map_has inputMap f = false ->
  ~ Triggered ruleset inputMap rule /\
  (forall m, ruleMatches ruleset rule inputMap = Ok m ->
     matched m = false /\ exists why, reason m = Some why) /\
  ((forall c', In c' (default [] (r_if rule)) -> ~ Breaks ruleset inputMap c') ->
   exists m, ruleMatches ruleset rule inputMap = Ok m) /\
  (forall e, ruleMatches ruleset rule inputMap = Throw e ->
     e = notAScale /\
     exists pre c' post, default [] (r_if rule) = pre ++ c' :: post /\
                         Breaks ruleset inputMap c' /\ In c post) /\
  (~ Unparsed c ->
   forall pre post, default [] (r_if rule) = pre ++ c :: post ->
     Forall (Holds ruleset inputMap) pre ->
     ruleMatches ruleset rule inputMap =
       Ok {| matched := false; reason := Some ("Missing field: " +:+ f) |}).
Proof.
  intros Hin Hf Habs. pose proof (absent_Fails ruleset inputMap c f Hf Habs) as Hfails.
  unfold Triggered, ruleMatches.
  pose proof (conditionsMatch_spec ruleset inputMap (default [] (r_if rule))) as S.
  assert (Hnever : forall m, conditionsMatch ruleset (default [] (r_if rule)) inputMap = Ok m ->
                             matched m = false /\ exists why, reason m = Some why).
  { intros m Hm. rewrite Hm in S. destruct (matched m); [|by destruct S].
    destruct S as [_ Hall]. rewrite Forall_forall in Hall.
    exfalso. by apply (Holds_not_Fails ruleset inputMap c); [apply Hall, list_elem_of_In|]. }
  split; [|split; [exact Hnever|split; [|split]]].
  4:{ intros Hparsed pre post Heq Hpre. rewrite Heq, conditionsMatch_holds by done.
      cbn [conditionsMatch]. rewrite <- Unparsed_test in Hparsed.
      destruct (truthy (c_raw c) && _); [done|]. rewrite Hf. unfold map_has in Habs.
      by destruct (map_get inputMap f). }
  - intros (m & Hm & Hmatched). apply Hnever in Hm as [Hm _]. congruence.
  - intros Hno. destruct (conditionsMatch _ _ _) as [m|e]; [eauto|].
    destruct S as (_ & pre & c' & post & Heq & _ & Hbreaks).
    exfalso. apply (Hno c'); [|done]. rewrite Heq. apply in_or_app. right. by left.
  - intros e He. rewrite He in S. destruct S as (-> & pre & c' & post & Heq & Hpre & Hbreaks).
    split; [done|]. exists pre, c', post. split; [done|]. split; [done|].
    rewrite Heq in Hin. apply in_app_or in Hin as [Hin|[<-|Hin]]; [| |done].
    + rewrite Forall_forall in Hpre. exfalso.
      by apply (Holds_not_Fails ruleset inputMap c); [apply Hpre, list_elem_of_In|].
    + exfalso. by apply (Fails_not_Breaks ruleset inputMap c').
Qed.

(** ** The decision *)

Lemma find_filter {A : Type} (f g : A -> bool) (l : list A) :
  List.find f (List.filter g l) = List.find (fun x => g x && f x) l.
Proof.
  induction l as [|x l IH]; [reflexivity|]. cbn [List.filter List.find].
  destruct (g x); cbn [andb List.find]; [by rewrite IH|exact IH].
Qed.

Lemma head_filter {A : Type} (f : A -> bool) (l : list A) :
  match List.filter f l with x :: _ => Some x | [] => None end = List.find f l.
Proof.
  induction l as [|x l IH]; [reflexivity|]. cbn [List.filter List.find].
  by destruct (f x).
Qed.

Lemma find_negb_of_none {A : Type} (f g : A -> bool) (l : list A) :
  List.find (fun x => g x && f x) l = None ->
  List.find (fun x => g x && negb (f x)) l = List.find g l.
Proof.
  induction l as [|x l IH]; [reflexivity|]. cbn [List.find].
  destruct (g x), (f x); cbn [andb negb]; first [done | exact IH].
Qed.

Lemma find_first {A : Type} (f : A -> bool) (l : list A) (x : A) :
  List.find f l = Some x <-> FirstSuch (fun y => f y = true) l x.
Proof.
  split.
  - revert x. induction l as [|y l IH]; intros x; cbn [List.find]; [done|].
    destruct (f y) eqn:Hy.
    + intros H. inversion H; subst y. exists [], l. by repeat split.
    + intros H. destruct (IH x H) as (l1 & l2 & -> & Hx & Hl1).
      exists (y :: l1), l2. repeat split; [done|]. constructor; [congruence|done].
  - intros (l1 & l2 & -> & Hx & Hl1). induction Hl1 as [|y l1 Hy _ IH]; cbn [app List.find].
    + by rewrite Hx.
    + destruct (f y); [done|exact IH].
Qed.

Lemma find_none_iff {A : Type} (f : A -> bool) (l : list A) :
  List.find f l = None <-> forall x, In x l -> f x = false.
Proof.
  split; [intros H x; by apply find_none|].
  induction l as [|y l IH]; [done|]. intros H. cbn [List.find].
  rewrite (H y) by (by left). apply IH. intros x Hx. apply H. by right.
Qed.

Lemma FirstSuch_iff {A : Type} (P Q : A -> Prop) (l : list A) (x : A) :
  (forall y, P y <-> Q y) -> FirstSuch P l x -> FirstSuch Q l x.
Proof.
  intros HPQ (l1 & l2 & -> & Hx & Hl1). exists l1, l2. repeat split; [by apply HPQ|].
  eapply Forall_impl; [exact Hl1|]. intros y Hy HQ. by apply Hy, HPQ.
Qed.

Lemma levelOf_standing (ruleset : Ruleset) (r : Rule) :
  levelOf ruleset r = toLowerCase (standingLevel ruleset r).
Proof.
  unfold levelOf, standingLevel, stated, or_str. f_equal.
  destruct (r_level r) as [[|c l]|]; cbn [is_empty]; try reflexivity;
    destruct (defaults ruleset) as [d|]; cbn [mbind option_bind]; try reflexivity;
    by destruct (d_level d) as [[|c' l']|].
Qed.

Lemma isSoft_soft (ruleset : Ruleset) (r : Rule) : isSoft ruleset r = soft ruleset r.
Proof. unfold isSoft, soft. by rewrite levelOf_standing. Qed.

Lemma isSoft_Soft (ruleset : Ruleset) (r : Rule) :
  isSoft ruleset r = true <-> Soft ruleset r.
Proof. rewrite isSoft_soft. apply String.eqb_eq. Qed.

Lemma isSoft_Hard (ruleset : Ruleset) (r : Rule) :
  negb (isSoft ruleset r) = true <-> Hard ruleset r.
Proof. rewrite isSoft_soft, negb_true_iff. apply String.eqb_neq. Qed.

Lemma isInfeasible_Infeasible (r : Rule) : isInfeasible r = true <-> Infeasible r.
Proof.
  unfold isInfeasible, Infeasible. rewrite String.eqb_eq. split.
  - destruct (r_then r) as [t|]; cbn [mbind option_bind or_str];
      [|vm_compute; discriminate].
    destruct (judgement t) as [[|c j]|] eqn:Hj; cbn [is_empty];
      try (vm_compute; discriminate).
    intros H. by exists t, (String c j).
  - intros (t & j & -> & Hj & Hlow). cbn [mbind option_bind or_str]. rewrite Hj.
    destruct j; [vm_compute in Hlow; discriminate|]. exact Hlow.
Qed.

Lemma triggers_Triggered (ruleset : Ruleset) (inputMap : FieldMap) (r : Rule) :
  triggers ruleset inputMap r = true <-> Triggered ruleset inputMap r.
Proof.
  unfold triggers, Triggered. destruct (ruleMatches ruleset r inputMap) as [m|e].
  - split; [eauto|]. by intros (m' & [= <-] & ?).
  - split; [done|]. by intros (m' & ? & _).
Qed.

(** An error of [ruleMatches] is the error of a comparison. *)
Lemma ruleMatches_throw (ruleset : Ruleset) (rule : Rule) (inputMap : FieldMap) (e : error) :
  ruleMatches ruleset rule inputMap = Throw e -> e = notAScale.
Proof.
  unfold ruleMatches. intros H.
  pose proof (conditionsMatch_spec ruleset inputMap (default [] (r_if rule))) as S.
  rewrite H in S. by destruct S.
Qed.

(** The loop over the rules: it collects the rules that are triggered when
    the matching of every rule returns, and throws when that of some rule
    throws. *)
Lemma triggeredLoop_returns (ruleset : Ruleset) (inputMap : FieldMap) (rs : list Rule) :
  Forall (Returns ruleset inputMap) rs ->
  triggeredLoop ruleset rs inputMap = Ok (List.filter (triggers ruleset inputMap) rs).
Proof.
  induction 1 as [|r rs [m Hm] _ IH]; [done|]. cbn [triggeredLoop List.filter].
  unfold triggers at 1. rewrite Hm, IH. cbn [mbind result_bind]. by destruct (matched m).
Qed.

Lemma triggeredLoop_throws (ruleset : Ruleset) (inputMap : FieldMap) (rs : list Rule) :
  ~ Forall (Returns ruleset inputMap) rs ->
  triggeredLoop ruleset rs inputMap = Throw notAScale.
Proof.
  induction rs as [|r rs IH]; intros Hno; [by destruct Hno|]. cbn [triggeredLoop].
  destruct (ruleMatches ruleset r inputMap) as [m|e] eqn:Hm; cbn [mbind result_bind].
  - rewrite IH; [done|]. intros Hall. apply Hno. constructor; [by exists m|done].
  - by apply ruleMatches_throw in Hm as ->.
Qed.

Lemma triggeredLoop_Ok (ruleset : Ruleset) (inputMap : FieldMap) (rs t : list Rule) :
  triggeredLoop ruleset rs inputMap = Ok t ->
  Forall (Returns ruleset inputMap) rs /\ t = List.filter (triggers ruleset inputMap) rs.
Proof.
  revert t. induction rs as [|r rs IH]; intros t H; cbn [triggeredLoop] in H.
  - inversion H. by split.
  - destruct (ruleMatches ruleset r inputMap) as [m|e] eqn:Hm; cbn [mbind result_bind] in H;
      [|done].
    destruct (triggeredLoop ruleset rs inputMap) as [t'|e]; cbn [mbind result_bind] in H;
      [|done].
    destruct (IH t' eq_refl) as [Hall ->]. split; [constructor; [by exists m|done]|].
    inversion H. cbn [List.filter].
    assert (triggers ruleset inputMap r = matched m) as ->
      by (unfold triggers; by rewrite Hm).
    done.
Qed.

Lemma triggeredLoop_Throw (ruleset : Ruleset) (inputMap : FieldMap) (rs : list Rule)
    (e : error) :
  triggeredLoop ruleset rs inputMap = Throw e ->
  e = notAScale /\ exists r, In r rs /\ ruleMatches ruleset r inputMap = Throw notAScale.
Proof.
  induction rs as [|r rs IH]; intros H; cbn [triggeredLoop] in H; [done|].
  destruct (ruleMatches ruleset r inputMap) as [m|e'] eqn:Hm; cbn [mbind result_bind] in H.
  - destruct (triggeredLoop ruleset rs inputMap) as [t'|e']; cbn [mbind result_bind] in H;
      [done|]. inversion H; subst e'. destruct (IH eq_refl) as (-> & r' & Hin & Hr').
    split; [done|]. exists r'. split; [by right|done].
  - inversion H; subst e'. pose proof (ruleMatches_throw _ _ _ _ Hm) as ->.
    split; [done|]. exists r. split; [by left|done].
Qed.

Lemma Returns_dec (ruleset : Ruleset) (inputMap : FieldMap) (rs : list Rule) :
  {Forall (Returns ruleset inputMap) rs} + {~ Forall (Returns ruleset inputMap) rs}.
Proof.
  induction rs as [|r rs [IH|IH]].
  - by left.
  - destruct (ruleMatches ruleset r inputMap) as [m|e] eqn:Hm.
    + left. constructor; [by exists m|done].
    + right. intros [[m' Hm'] _]%Forall_cons. congruence.
  - right. by intros [_ ?]%Forall_cons.
Qed.

(** [decide], with its three searches read over the rules of the ruleset. *)
Lemma decide_find (ruleset : Ruleset) (inputMap : FieldMap) :
  let rs := default [] (rules ruleset) in
  let trig := triggers ruleset inputMap in
  let mk v j r :=
    {| res_ruleset := ruleset; verdict := v; res_judgement := j; rule := r;
       triggered := List.filter trig rs;
       triggeredHard := List.filter (fun r => negb (isSoft ruleset r)) (List.filter trig rs);
       triggeredSoft := List.filter (isSoft ruleset) (List.filter trig rs);
       res_derivations := None |} in
  Forall (Returns ruleset inputMap) rs ->
  decide ruleset inputMap =
    match List.find (fun r => trig r && (negb (isSoft ruleset r) && isInfeasible r)) rs with
    | Some p => Ok (mk "NO" (Some "Infeasible") (Some p))
    | None =>
        match List.find (fun r => trig r && negb (isSoft ruleset r)) rs with
        | Some p =>
            match r_then p with
            | Some t => Ok (mk "YES*" (judgement t) (Some p))
            | None => Throw (TypeError "Cannot read properties of undefined (reading 'judgement')")
            end
        | None =>
            match List.find (fun r => trig r && isSoft ruleset r) rs with
            | Some p =>
                Ok (mk "YES (ADVISORY)"
                       (Some (or_str (r_then p ≫= judgement) "Advisory flags present")) (Some p))
            | None => Ok (mk "YES" (Some "No hard infeasibility triggered") None)
            end
        end
    end.
Proof.
  intros rs trig mk Hall. unfold decide, triggeredRules. fold rs.
  rewrite (triggeredLoop_returns _ _ _ Hall). cbn [mbind result_bind]. fold trig.
  rewrite !find_filter.
  destruct (List.find (fun r => trig r && (negb (isSoft ruleset r) && isInfeasible r)) rs)
    as [p|] eqn:Hinf; [reflexivity|].
  assert (List.find (fun x => trig x && (negb (isSoft ruleset x) && negb (isInfeasible x))) rs
          = List.find (fun r => trig r && negb (isSoft ruleset r)) rs) as ->.
  { rewrite <- (find_negb_of_none isInfeasible (fun r => trig r && negb (isSoft ruleset r)) rs).
    - clear. induction rs as [|x l IH]; [done|]. cbn [List.find].
      rewrite andb_assoc. by rewrite IH.
    - rewrite <- Hinf. clear. induction rs as [|x l IH]; [done|]. cbn [List.find].
      rewrite <- andb_assoc. by rewrite IH. }
  destruct (List.find (fun r => trig r && negb (isSoft ruleset r)) rs) as [p|] eqn:Hhard;
    [reflexivity|].
  pose proof (head_filter (isSoft ruleset) (List.filter trig rs)) as Hsoft.
  rewrite find_filter in Hsoft.
  destruct (List.filter (isSoft ruleset) (List.filter trig rs)) as [|q l] eqn:Hl;
    rewrite <- Hsoft; reflexivity.
Qed.

Lemma decide_throws (ruleset : Ruleset) (inputMap : FieldMap) :
  ~ Forall (Returns ruleset inputMap) (default [] (rules ruleset)) ->
  decide ruleset inputMap = Throw notAScale.
Proof.
  intros Hno. unfold decide, triggeredRules. by rewrite (triggeredLoop_throws _ _ _ Hno).
Qed.

Lemma or_str_stated (o : option string) (d : string) : or_str o d = default d (stated o).
Proof. by destruct o as [[|c s]|]. Qed.

(** X1: the tiered policy of [decide].  When the matching of some rule
    throws, so does the decision, with the same error.  When the matching
    of every rule returns, in ruleset order: the first triggered hard rule
    with an infeasible judgement gives NO, with the judgement Infeasible;
    failing any, the first triggered hard rule gives YES-star with its
    judgement, if it has a consequence to read the judgement from, and a
    [TypeError] if it has none; failing any hard rule, the first triggered
    soft rule gives the advisory YES, with the judgement that it states or
    else a fixed text; failing any triggered rule, YES without a primary
    rule.  A result always carries one of the four verdicts, and NO only
    with a triggered hard rule of infeasible judgement as its primary; it
    lists the triggered rules in ruleset order, and the hard and the soft
    among them. *)
Theorem decide_policy (ruleset : Ruleset) (inputMap : FieldMap) :
  let rs := default [] (rules ruleset) in
  let T := Triggered ruleset inputMap in
  (forall r e, In r rs -> ruleMatches ruleset r inputMap = Throw e ->
     e = notAScale /\ decide ruleset inputMap = Throw notAScale) /\
  (Forall (Returns ruleset inputMap) rs ->
   (forall p, FirstSuch (fun r => T r /\ Hard ruleset r /\ Infeasible r) rs p ->
      exists res, decide ruleset inputMap = Ok res /\ verdict res = "NO" /\
                  rule res = Some p /\ res_judgement res = Some "Infeasible") /\
   ((forall r, In r rs -> ~ (T r /\ Hard ruleset r /\ Infeasible r)) ->
    forall p, FirstSuch (fun r => T r /\ Hard ruleset r) rs p ->
      match r_then p with
      | Some t => exists res, decide ruleset inputMap = Ok res /\ verdict res = "YES*" /\
                              rule res = Some p /\ res_judgement res = judgement t
      | None => decide ruleset inputMap =
                  Throw (TypeError "Cannot read properties of undefined (reading 'judgement')")
      end) /\
   ((forall r, In r rs -> ~ (T r /\ Hard ruleset r)) ->
    forall p, FirstSuch (fun r => T r /\ Soft ruleset r) rs p ->
      exists res, decide ruleset inputMap = Ok res /\ verdict res = "YES (ADVISORY)" /\
                  rule res = Some p /\
                  res_judgement res =
                    Some (default "Advisory flags present" (stated (r_then p ≫= judgement)))) /\
   ((forall r, In r rs -> ~ T r) ->
      exists res, decide ruleset inputMap = Ok res /\ verdict res = "YES" /\ rule res = None /\
                  res_judgement res = Some "No hard infeasibility triggered")) /\
  (forall res, decide ruleset inputMap = Ok res ->
     Forall (Returns ruleset inputMap) rs /\
     In (verdict res) ["NO"; "YES*"; "YES (ADVISORY)"; "YES"] /\
     (verdict res = "NO" ->
      exists p, rule res = Some p /\ In p rs /\ T p /\ Hard ruleset p /\ Infeasible p) /\
     res_ruleset res = ruleset /\ res_derivations res = None /\
     triggered res = List.filter (triggers ruleset inputMap) rs /\
     triggeredHard res = List.filter (fun r => negb (soft ruleset r)) (triggered res) /\
     triggeredSoft res = List.filter (soft ruleset) (triggered res)).
Proof.
  intros rs T.
  set (trig := triggers ruleset inputMap).
  assert (Hinf : forall r, trig r && (negb (isSoft ruleset r) && isInfeasible r) = true <->
                           T r /\ Hard ruleset r /\ Infeasible r).
  { intros r. rewrite !andb_true_iff, isSoft_Hard, isInfeasible_Infeasible.
    unfold trig. by rewrite triggers_Triggered. }
  assert (Hhard : forall r, trig r && negb (isSoft ruleset r) = true <-> T r /\ Hard ruleset r).
  { intros r. rewrite !andb_true_iff, isSoft_Hard. unfold trig. by rewrite triggers_Triggered. }
  assert (Hsoft : forall r, trig r && isSoft ruleset r = true <-> T r /\ Soft ruleset r).
  { intros r. rewrite !andb_true_iff, isSoft_Soft. unfold trig. by rewrite triggers_Triggered. }
  assert (Hnone : forall (f : Rule -> bool) (P : Rule -> Prop),
             (forall r, f r = true <-> P r) ->
             (forall r, In r rs -> ~ P r) -> List.find f rs = None).
  { intros f P HfP HP. apply find_none_iff. intros r Hr.
    destruct (f r) eqn:E; [|done]. exfalso. by apply (HP r Hr), HfP. }
  assert (Hpart : forall l : list Rule,
             List.filter (fun r => negb (isSoft ruleset r)) l
             = List.filter (fun r => negb (soft ruleset r)) l /\
             List.filter (isSoft ruleset) l = List.filter (soft ruleset) l).
  { intros l. split; apply filter_ext; intros r; by rewrite isSoft_soft. }
  split; [|split].
  - intros r e Hr He. split; [by eapply ruleMatches_throw|]. apply decide_throws.
    intros Hall. rewrite Forall_forall in Hall.
    destruct (Hall r) as [m Hm]; [by apply list_elem_of_In|]. congruence.
  - intros Hall. pose proof (decide_find ruleset inputMap Hall) as D. cbv zeta in D.
    fold rs trig in D.
    split; [|split; [|split]].
    + intros p Hp. apply (FirstSuch_iff _ (fun r => trig r && (negb (isSoft ruleset r) && isInfeasible r) = true)) in Hp;
        [|intros y; symmetry; apply Hinf].
      apply find_first in Hp. rewrite Hp in D. eexists. split; [exact D|]. by repeat split.
    + intros Hno p Hp. rewrite (Hnone _ _ Hinf Hno) in D.
      apply (FirstSuch_iff _ (fun r => trig r && negb (isSoft ruleset r) = true)) in Hp;
        [|intros y; symmetry; apply Hhard].
      apply find_first in Hp. rewrite Hp in D. destruct (r_then p) as [t|].
      * eexists. split; [exact D|]. by repeat split.
      * exact D.
    + intros Hno p Hp.
      rewrite (Hnone _ _ Hinf) in D by (intros r Hr (? & ? & _); by apply (Hno r Hr)).
      rewrite (Hnone _ _ Hhard Hno) in D.
      apply (FirstSuch_iff _ (fun r => trig r && isSoft ruleset r = true)) in Hp;
        [|intros y; symmetry; apply Hsoft].
      apply find_first in Hp. rewrite Hp in D. eexists. split; [exact D|].
      cbn [verdict rule res_judgement]. rewrite or_str_stated. by repeat split.
    + intros Hno.
      rewrite (Hnone _ _ Hinf) in D by (intros r Hr (? & _); by apply (Hno r Hr)).
      rewrite (Hnone _ _ Hhard) in D by (intros r Hr (? & _); by apply (Hno r Hr)).
      rewrite (Hnone _ _ Hsoft) in D by (intros r Hr (? & _); by apply (Hno r Hr)).
      eexists. split; [exact D|]. by repeat split.
  - intros res Hres. destruct (Returns_dec ruleset inputMap rs) as [Hall|Hno].
    2:{ rewrite (decide_throws _ _ Hno) in Hres. discriminate. }
    split; [exact Hall|].
    pose proof (decide_find ruleset inputMap Hall) as D. cbv zeta in D. fold rs trig in D.
    rewrite D in Hres. clear D.
    destruct (Hpart (List.filter trig rs)) as [Hp1 Hp2].
    destruct (List.find (fun r => trig r && (negb (isSoft ruleset r) && isInfeasible r)) rs)
      as [p|] eqn:E1.
    { inversion Hres; subst res; cbn. split; [by left|]. split; [|by repeat split].
      intros _. exists p. split; [done|]. apply find_some in E1 as [Hin Hp].
      apply Hinf in Hp. by split. }
    destruct (List.find (fun r => trig r && negb (isSoft ruleset r)) rs) as [p|] eqn:E2.
    { destruct (r_then p); [|discriminate]. inversion Hres; subst res; cbn.
      split; [right; by left|]. split; [discriminate|by repeat split]. }
    destruct (List.find (fun r => trig r && isSoft ruleset r) rs) as [p|] eqn:E3.
    { inversion Hres; subst res; cbn.
      split; [right; right; by left|]. split; [discriminate|by repeat split]. }
    inversion Hres; subst res; cbn.
    split; [right; right; right; by left|]. split; [discriminate|by repeat split].
Qed.

(** ** The field map *)

Lemma map_get_set_eq (k : string) (v : value) (m : FieldMap) :
  map_get (map_set k v m) k = Some v.
Proof.
  induction m as [|[k' v'] m IH]; cbn [map_set map_get].
  - by rewrite String.eqb_refl.
  - destruct (String.eqb_spec k' k) as [->|Hne]; cbn [map_get].
    + by rewrite String.eqb_refl.
    + destruct (String.eqb_spec k' k); [done|exact IH].
Qed.

Lemma map_get_set_ne (k k' : string) (v : value) (m : FieldMap) :
  k' <> k -> map_get (map_set k v m) k' = map_get m k'.
Proof.
  intros Hne. induction m as [|[k0 v0] m IH]; cbn [map_set map_get].
  - destruct (String.eqb_spec k k'); [congruence|done].
  - destruct (String.eqb_spec k0 k) as [->|Hk0]; cbn [map_get].
    + destruct (String.eqb_spec k k'); [congruence|done].
    + destruct (String.eqb_spec k0 k'); [done|exact IH].
Qed.

(** ** Derived fields *)

Lemma indexOf_absent (x : string) (l : list string) :
  indexOf x l = (-1)%Z <-> ~ In x l.
Proof.
  induction l as [|y l IH]; cbn [indexOf In]; [tauto|].
  pose proof (indexOf_ge x l) as Hge.
  destruct (String.eqb_spec y x) as [->|Hne]; [split; [lia|tauto]|].
  destruct (indexOf x l <? 0)%Z eqn:E.
  - assert (indexOf x l = (-1)%Z) as Hi by lia. apply IH in Hi. split; [tauto|done].
  - split; [lia|]. intros Hno. exfalso. assert (indexOf x l = (-1)%Z); [|lia].
    apply IH. tauto.
Qed.

(** The text of a level is already in lower case and trimmed. *)
Lemma lower_ascii_idem (c : ascii) : lower_ascii (lower_ascii c) = lower_ascii c.
Proof. destruct c as [[] [] [] [] [] [] [] []]; vm_compute; reflexivity. Qed.

Lemma toLowerCase_idem (s : string) : toLowerCase (toLowerCase s) = toLowerCase s.
Proof. induction s as [|c s IH]; [done|]. cbn [toLowerCase]. by rewrite lower_ascii_idem, IH. Qed.

Lemma is_space_lower (c : ascii) : is_space (lower_ascii c) = is_space c.
Proof. destruct c as [[] [] [] [] [] [] [] []]; vm_compute; reflexivity. Qed.

Lemma trimEnd_cons (c : ascii) (s : string) :
  trimEnd (String c s) =
    match trimEnd s with
    | EmptyString => if is_space c then EmptyString else String c EmptyString
    | t => String c t
    end.
Proof. reflexivity. Qed.

Lemma toLowerCase_trimStart (s : string) :
  toLowerCase (trimStart s) = trimStart (toLowerCase s).
Proof.
  induction s as [|c s IH]; [done|]. cbn [trimStart toLowerCase]. rewrite is_space_lower.
  by destruct (is_space c).
Qed.

Lemma toLowerCase_trimEnd (s : string) :
  toLowerCase (trimEnd s) = trimEnd (toLowerCase s).
Proof.
  induction s as [|c s IH]; [done|]. cbn [toLowerCase]. rewrite !trimEnd_cons, <- IH, is_space_lower.
  destruct (trimEnd s) as [|d t]; cbn [toLowerCase]; [by destruct (is_space c)|done].
Qed.

Lemma toLowerCase_trim (s : string) : toLowerCase (trim s) = trim (toLowerCase s).
Proof. unfold trim. by rewrite toLowerCase_trimEnd, toLowerCase_trimStart. Qed.

Lemma trimEnd_idem (s : string) : trimEnd (trimEnd s) = trimEnd s.
Proof.
  induction s as [|c s IH]; [done|]. rewrite trimEnd_cons.
  destruct (trimEnd s) as [|d t] eqn:E.
  - destruct (is_space c) eqn:Hc; [done|]. rewrite trimEnd_cons. cbn [trimEnd]. by rewrite Hc.
  - rewrite trimEnd_cons, IH. done.
Qed.

Lemma trimStart_trimEnd (s : string) :
  trimStart (trimEnd (trimStart s)) = trimEnd (trimStart s).
Proof.
  induction s as [|c s IH]; [done|]. cbn [trimStart].
  destruct (is_space c) eqn:Hc; [exact IH|]. rewrite trimEnd_cons.
  destruct (trimEnd s) as [|d t]; rewrite ?Hc; cbn [trimStart]; by rewrite Hc.
Qed.

Lemma trim_idem (s : string) : trim (trim s) = trim s.
Proof. unfold trim. by rewrite trimStart_trimEnd, trimEnd_idem. Qed.

Lemma levelText_fixed (v : value) : trim (toLowerCase (levelText v)) = levelText v.
Proof. unfold levelText. by rewrite toLowerCase_trim, toLowerCase_idem, trim_idem. Qed.

(** The rank of a level text on the rating scale: none for a text that is
    not one of the seven names, and at least that of [moderate] for the
    four names from [moderate] on. *)
Lemma ratingRank_levels (v : value) :
  let r := ratingRank (levelText v) in
  (r =? -1)%Z = negb (existsb (String.eqb (levelText v)) recognizedLevels) /\
  ((r =? -1)%Z = false ->
   (ratingRank "moderate" <=? r)%Z = existsb (String.eqb (levelText v)) moderateOrWorseLevels).
Proof.
  cbv zeta. unfold ratingRank. rewrite levelText_fixed. generalize (levelText v). intros L.
  destruct (existsb (String.eqb L) recognizedLevels) eqn:E.
  - apply existsb_exists in E as (x & Hin & ->%String.eqb_eq).
    unfold recognizedLevels in Hin. cbn [In] in Hin.
    repeat (destruct Hin as [<-|Hin]; [vm_compute; split; [reflexivity|intros _; reflexivity]|]).
    destruct Hin.
  - assert (indexOf L RATING_SCALE = (-1)%Z) as ->.
    { apply indexOf_absent. intros Hin.
      assert (existsb (String.eqb L) recognizedLevels = true); [|congruence].
      apply existsb_exists. exists L. split; [exact Hin|apply String.eqb_refl]. }
    split; [reflexivity|discriminate].
Qed.

(** The loop of [deriveInput] in closed form: it numbers the rating entries,
    collects those that are moderate or worse, and warns of those whose
    level it does not recognize. *)
Lemma deriveScan_fold (map : FieldMap) :
  forall st,
    fold_left deriveEntry map st =
      {| derivations := derivations st ++ List.map warningOf (List.filter unrecognized map);
         counted := counted st ++ List.map contributorOf (List.filter moderateOrWorse map);
         totalRatings := totalRatings st + length (List.filter isRatingEntry map) |}.
Proof.
  induction map as [|kv map IH]; intros st; cbn [fold_left List.filter List.map length].
  - rewrite !app_nil_r, Nat.add_0_r. by destruct st.
  - rewrite IH. unfold deriveEntry, unrecognized, moderateOrWorse, isRatingEntry. cbv zeta.
    fold (levelText (snd kv)).
    destruct (ratingRank_levels (snd kv)) as [Hun Hmod]. cbv zeta in Hun, Hmod.
    destruct (startsWith "rating." (toLowerCase (fst kv))); cbn [negb andb]; [|reflexivity].
    rewrite <- Hun.
    destruct (ratingRank (levelText (snd kv)) =? -1)%Z eqn:Er.
    + assert (existsb (String.eqb (levelText (snd kv))) moderateOrWorseLevels = false) as ->.
      { destruct (existsb _ moderateOrWorseLevels) eqn:Em; [|done].
        apply existsb_exists in Em as (x & Hin & Hx).
        assert (existsb (String.eqb (levelText (snd kv))) recognizedLevels = true) as Hrec.
        { apply existsb_exists. exists x. split; [|done].
          unfold moderateOrWorseLevels in Hin. unfold recognizedLevels. cbn [In] in *. tauto. }
        rewrite Hrec in Hun. discriminate. }
      cbn [derivations counted totalRatings List.map length].
      f_equal; [by rewrite <- app_assoc|lia].
    + rewrite <- (Hmod eq_refl).
      destruct (ratingRank "moderate" <=? ratingRank (levelText (snd kv)))%Z;
        cbn [derivations counted totalRatings List.map length];
        f_equal; (by rewrite <- app_assoc) || lia.
Qed.

Lemma deriveScan_closed (map : FieldMap) :
  deriveScan map =
    {| derivations := List.map warningOf (List.filter unrecognized map);
       counted := List.map contributorOf (List.filter moderateOrWorse map);
       totalRatings := length (ratingFields map) |}.
Proof. unfold deriveScan. by rewrite deriveScan_fold. Qed.

Lemma deriveInput_closed (map : FieldMap) (ruleset : Ruleset) :
  deriveInput map ruleset =
    match ratingFields map with
    | [] => (map, List.map warningOf (List.filter unrecognized map))
    | _ :: _ =>
        (map_set (derivedKey ruleset) (VNum (num_of_nat (tally map))) map,
         List.map warningOf (List.filter unrecognized map) ++
         [{| name := "ModerateOrWorseCount"; dvalue := VNum (num_of_nat (tally map));
             from := Some (List.map contributorOf (List.filter moderateOrWorse map)) |};
          {| name := "AnyCriticalFlag";
             dvalue := VBool (existsb (fun x => String.eqb (level x) "critical")
                                      (List.map contributorOf (List.filter moderateOrWorse map)));
             from := None |}])
    end.
Proof.
  unfold deriveInput. rewrite deriveScan_closed. cbn [derivations counted totalRatings].
  unfold tally. rewrite length_map.
  destruct (ratingFields map); reflexivity.
Qed.

Lemma filter_sub {A : Type} (f g : A -> bool) (l : list A) :
  (forall x, g x = true -> f x = true) ->
  length (List.filter g l) <= length (List.filter f l).
Proof.
  intros Hgf. induction l as [|x l IH]; [done|]. cbn [List.filter].
  destruct (g x) eqn:Hg.
  - rewrite (Hgf x Hg). cbn [length]. lia.
  - destruct (f x); cbn [length]; lia.
Qed.

Lemma unrecognized_not_counted (kv : string * value) :
  unrecognized kv = true -> moderateOrWorse kv = false.
Proof.
  unfold unrecognized, moderateOrWorse. intros [_ H%negb_true_iff]%andb_true_iff.
  destruct (existsb _ moderateOrWorseLevels) eqn:Em; [|by rewrite andb_false_r].
  apply existsb_exists in Em as (x & Hin & Hx).
  assert (existsb (String.eqb (levelText (snd kv))) recognizedLevels = true) as Hrec; [|congruence].
  apply existsb_exists. exists x. split; [|done].
  unfold moderateOrWorseLevels in Hin. unfold recognizedLevels. cbn [In] in *. tauto.
Qed.

Lemma existsb_In (x : string) (l : list string) :
  existsb (String.eqb x) l = true <-> In x l.
Proof.
  rewrite existsb_exists. split.
  - by intros (y & Hin & ->%String.eqb_eq).
  - intros H. exists x. split; [done|apply String.eqb_refl].
Qed.

Lemma unrecognized_names (kv : string * value) :
  unrecognized kv = true <->
  isRatingEntry kv = true /\
  ~ In (levelText (snd kv))
       ["excellent"; "good"; "fair"; "moderate"; "poor"; "major"; "critical"].
Proof.
  unfold unrecognized. rewrite andb_true_iff, negb_true_iff, <- not_true_iff_false.
  by rewrite existsb_In.
Qed.

Lemma moderateOrWorse_names (kv : string * value) :
  moderateOrWorse kv = true <->
  isRatingEntry kv = true /\ In (levelText (snd kv)) ["moderate"; "poor"; "major"; "critical"].
Proof. unfold moderateOrWorse. by rewrite andb_true_iff, existsb_In. Qed.

(** C5: the moderate-or-worse tally lies between 0 and the number of rating
    fields present, and it is what [deriveInput] records and stores when a
    rating field is present; a rating field with an unrecognized level
    yields a warning derivation and is not among the entries counted; and
    with no rating field the map is returned as it was, with no
    derivation.  The level of a rating field is its text in lower case,
    without the blanks around it; it is unrecognized when it is none of
    the seven names of the scale, and it counts when it is one of the four
    from [moderate] on. *)
Theorem deriveInput_tally (map : FieldMap) (ruleset : Ruleset) :
  let out := deriveInput map ruleset in
  (0 <= tally map <= length (ratingFields map)) /\
  (ratingFields map <> [] ->
     In {| name := "ModerateOrWorseCount"; dvalue := VNum (num_of_nat (tally map));
           from := Some (List.map contributorOf (List.filter moderateOrWorse map)) |}
        (snd out) /\
     map_get (fst out) (derivedKey ruleset) = Some (VNum (num_of_nat (tally map)))) /\
  (forall kv, In kv map -> unrecognized kv = true ->
     In (warningOf kv) (snd out) /\ ~ In kv (List.filter moderateOrWorse map)) /\
  (ratingFields map = [] -> out = (map, [])) /\
  (forall kv, unrecognized kv = true <->
     isRatingEntry kv = true /\
     ~ In (levelText (snd kv))
          ["excellent"; "good"; "fair"; "moderate"; "poor"; "major"; "critical"]) /\
  (forall kv, moderateOrWorse kv = true <->
     isRatingEntry kv = true /\
     In (levelText (snd kv)) ["moderate"; "poor"; "major"; "critical"]) /\
  (forall d, In d (snd out) -> name d = "RatingParseWarning" ->
     exists kv, In kv map /\ unrecognized kv = true /\ d = warningOf kv).
Proof.
  intros out. subst out. rewrite deriveInput_closed.
  split; [|split; [|split; [|split; [|split; [|split]]]]].
  - split; [lia|]. unfold tally, ratingFields. apply filter_sub.
    unfold moderateOrWorse. intros x H. by apply andb_true_iff in H as [H _].
  - intros Hne. destruct (ratingFields map) as [|kv l]; [done|]. cbn [fst snd]. split.
    + apply in_or_app. right. by left.
    + apply map_get_set_eq.
  - intros kv Hin Hun. split.
    + assert (In (warningOf kv) (List.map warningOf (List.filter unrecognized map))) as Hw.
      { apply in_map, filter_In. by split. }
      destruct (ratingFields map); cbn [snd]; [done|]. apply in_or_app. by left.
    + intros [_ Hc]%filter_In. by rewrite (unrecognized_not_counted kv Hun) in Hc.
  - intros Hnone. rewrite Hnone. f_equal.
    assert (List.filter unrecognized map = []) as ->; [|done].
    unfold ratingFields in Hnone. clear -Hnone. induction map as [|kv map IH]; [done|].
    cbn [List.filter] in *. unfold unrecognized at 1. destruct (isRatingEntry kv); [done|].
    cbn [andb]. by apply IH.
  - intros kv. apply unrecognized_names.
  - intros kv. apply moderateOrWorse_names.
  - intros d Hd Hname.
    assert (In d (List.map warningOf (List.filter unrecognized map))) as Hw.
    { destruct (ratingFields map); cbn [snd] in Hd; [done|].
      apply in_app_or in Hd as [Hd|[<-|[<-|[]]]]; [done| |]; cbn [name] in Hname;
        discriminate Hname. }
    apply in_map_iff in Hw as (kv & <- & [Hin Hun]%filter_In). by exists kv.
Qed.

(** C10: when a rating field is present, the derived key holds the tally
    after derivation, whatever the input held there, and every other key
    holds what it held before. *)
Theorem deriveInput_frame (map : FieldMap) (ruleset : Ruleset) :
  ratingFields map <> [] ->
  map_get (fst (deriveInput map ruleset)) (derivedKey ruleset)
    = Some (VNum (num_of_nat (tally map))) /\
  forall k, k <> derivedKey ruleset ->
    map_get (fst (deriveInput map ruleset)) k = map_get map k.
Proof.
  intros Hne. rewrite deriveInput_closed.
  destruct (ratingFields map) as [|kv l]; [done|]. cbn [fst]. split.
  - apply map_get_set_eq.
  - intros k Hk. by apply map_get_set_ne.
Qed.

(** ** The serializer *)

Section Visit.
Context {A B : Type} (f : A -> gset addr -> option (B * gset addr)).

Lemma visitAll_mono :
  (forall a s b s', f a s = Some (b, s') -> s ⊆ s') ->
  forall xs s bs s', visitAll f xs s = Some (bs, s') -> s ⊆ s'.
Proof.
  intros Hf xs. induction xs as [|x xs IH]; intros s bs s' H; cbn [visitAll] in H.
  - by inversion H.
  - destruct (f x s) as [[t s1]|] eqn:E1; [|done].
    destruct (visitAll f xs s1) as [[ts s2]|] eqn:E2; [|done].
    inversion H; subst. transitivity s1; eauto.
Qed.

Lemma visitAll_is_Some (seen0 : gset addr) :
  (forall a s b s', f a s = Some (b, s') -> s ⊆ s') ->
  (forall a s, seen0 ⊆ s -> is_Some (f a s)) ->
  forall xs s, seen0 ⊆ s -> is_Some (visitAll f xs s).
Proof.
  intros Hmono Hf xs. induction xs as [|x xs IH]; intros s Hs; cbn [visitAll]; [eauto|].
  destruct (Hf x s Hs) as [[t s1] E1]. rewrite E1.
  destruct (IH s1) as [[ts s2] E2]; [|rewrite E2; eauto].
  transitivity s; eauto.
Qed.

Lemma visitAll_Forall (Q : B -> Prop) :
  (forall a s b s', f a s = Some (b, s') -> Q b) ->
  forall xs s bs s', visitAll f xs s = Some (bs, s') -> Forall Q bs.
Proof.
  intros Hf xs. induction xs as [|x xs IH]; intros s bs s' H; cbn [visitAll] in H.
  - inversion H. constructor.
  - destruct (f x s) as [[t s1]|] eqn:E1; [|done].
    destruct (visitAll f xs s1) as [[ts s2]|] eqn:E2; [|done].
    inversion H; subst. constructor; eauto.
Qed.

(** The results are those of the items, one for one and in their order. *)
Lemma visitAll_in_order :
  forall xs s bs s', visitAll f xs s = Some (bs, s') ->
    Forall2 (fun x b => exists sn sn', f x sn = Some (b, sn')) xs bs.
Proof.
  intros xs. induction xs as [|x xs IH]; intros s bs s' H; cbn [visitAll] in H.
  - inversion H. constructor.
  - destruct (f x s) as [[t s1]|] eqn:E1; [|done].
    destruct (visitAll f xs s1) as [[ts s2]|] eqn:E2; [|done].
    inversion H; subst. constructor; eauto.
Qed.

End Visit.

Lemma recur_mono (h : heap) (n : nat) :
  forall x s t s', recur n h x s = Some (t, s') -> s ⊆ s'.
Proof.
  induction n as [|n IH]; intros x s t s' H; [done|]. cbn [recur] in H.
  destruct x as [| | | | |a]; try (by inversion H).
  destruct (base.decide (a ∈ s)); [by inversion H|].
  destruct (h !! a) as [[elems|props]|].
  - destruct (visitAll _ elems _) as [[ts s1]|] eqn:E; [|done]. inversion H; subst.
    apply visitAll_mono in E; [set_solver|exact IH].
  - destruct (visitAll _ (sortedKeys props) _) as [[out s1]|] eqn:E; [|done].
    inversion H; subst. apply visitAll_mono in E; [set_solver|].
    intros k s0 [k' t'] s0' Hk.
    destruct (recur n h _ s0) as [[t1 s2]|] eqn:E1; [|done]. inversion Hk; subst. eauto.
  - inversion H. set_solver.
Qed.

(** Fuel beyond the number of heap cells not yet seen is never used up: the
    traversal ends on every heap, cycles included. *)
Lemma recur_enough_fuel (h : heap) (n : nat) :
  forall x s, size (dom h ∖ s) < n -> is_Some (recur n h x s).
Proof.
  induction n as [|n IH]; intros x s Hn; [lia|]. cbn [recur].
  destruct x as [| | | | |a]; try by eauto.
  destruct (base.decide (a ∈ s)); [by eauto|].
  destruct (h !! a) as [obj|] eqn:Ha; [|by eauto].
  assert (Hlt : forall s2, {[a]} ∪ s ⊆ s2 -> size (dom h ∖ s2) < n).
  { intros s2 Hs2. assert (dom h ∖ s2 ⊂ dom h ∖ s) as Hsub.
    { assert (a ∈ dom h) by (apply elem_of_dom; eauto). set_solver. }
    apply subset_size in Hsub. lia. }
  destruct obj as [elems|props].
  - destruct (visitAll_is_Some (recur n h) ({[a]} ∪ s) (recur_mono h n)
                (fun x s2 Hs2 => IH x s2 (Hlt s2 Hs2)) elems ({[a]} ∪ s)) as [[ts s1] E];
      [done|]. rewrite E. eauto.
  - match goal with |- context [visitAll ?f _ _] => set (g := f) end.
    destruct (visitAll_is_Some g ({[a]} ∪ s)) with (xs := sortedKeys props) (s := {[a]} ∪ s)
      as [[out s1] E]; [| |done|rewrite E; eauto].
    + intros k s0 [k' t'] s0' Hk. unfold g in Hk.
      destruct (recur n h _ s0) as [[t1 s2]|] eqn:E1; [|done]. inversion Hk; subst.
      by eapply recur_mono.
    + intros k s2 Hs2. unfold g.
      destruct (IH (default JUndefined (member k props)) s2 (Hlt s2 Hs2)) as [[t1 s3] E1].
      rewrite E1. eauto.
Qed.

(** [stableStringify] reaches its [JSON.stringify] on every heap. *)
Lemma stableTree_total (h : heap) (x : jsval) : exists t, stableTree h x = Some t.
Proof.
  unfold stableTree.
  destruct (recur_enough_fuel h (S (size h)) x ∅) as [[t s] E].
  - replace (dom h ∖ ∅) with (dom h) by set_solver. rewrite size_dom. lia.
  - rewrite E. eauto.
Qed.

(** *** The order of the keys *)

#[local] Instance entry_le_trans {A : Type} : Transitive (@entry_le A).
Proof. intros x y z. unfold entry_le, index_le. lia. Qed.

#[local] Instance entry_le_total {A : Type} : Total (@entry_le A).
Proof. intros x y. unfold entry_le, index_le. lia. Qed.

Lemma StronglySorted_filter {A : Type} (R : relation A) (f : A -> bool) (l : list A) :
  StronglySorted R l -> StronglySorted R (List.filter f l).
Proof.
  induction 1 as [|x l Hl IH Hx]; cbn [List.filter]; [constructor|].
  destruct (f x); [|exact IH]. constructor; [exact IH|].
  apply Forall_forall. intros y Hy. apply list_elem_of_In, filter_In in Hy as [Hy _].
  rewrite Forall_forall in Hx. by apply Hx, list_elem_of_In.
Qed.

Lemma StronglySorted_map {A B : Type} (R : relation A) (R' : relation B) (g : A -> B)
    (l : list A) :
  (forall x y, R x y -> R' (g x) (g y)) ->
  StronglySorted R l -> StronglySorted R' (List.map g l).
Proof.
  intros Hg. induction 1 as [|x l Hl IH Hx]; cbn [List.map]; constructor; [exact IH|].
  apply Forall_forall. intros y Hy. apply list_elem_of_In, in_map_iff in Hy as (z & <- & Hz).
  rewrite Forall_forall in Hx. by apply Hg, Hx, list_elem_of_In.
Qed.

Lemma filter_map_fst {A : Type} (f : string -> bool) (l : list (string * A)) :
  List.map fst (List.filter (fun kv => f (fst kv)) l) = List.filter f (List.map fst l).
Proof.
  induction l as [|kv l IH]; [done|]. cbn [List.filter List.map].
  destruct (f (fst kv)); cbn [List.map]; by rewrite IH.
Qed.

(** The keys of an object built in lexicographic order are listed in the
    engine's order. *)
Lemma propertyOrder_keys {A : Type} (out : list (string * A)) :
  lexicographic (List.map fst out) -> engineOrder (List.map fst (propertyOrder out)).
Proof.
  intros Hsorted. unfold propertyOrder. rewrite map_app.
  exists (List.map fst (merge_sort entry_le (List.filter (fun kv => is_index (fst kv)) out))),
         (List.map fst (List.filter (fun kv => negb (is_index (fst kv))) out)).
  split; [done|]. split; [|split; [|split]].
  - apply Forall_forall. intros k Hk.
    apply list_elem_of_In, in_map_iff in Hk as (kv & <- & Hkv).
    apply list_elem_of_In in Hkv. rewrite merge_sort_Permutation in Hkv.
    by apply list_elem_of_In, filter_In in Hkv as [_ Hkv].
  - apply (StronglySorted_map entry_le); [done|]. apply StronglySorted_merge_sort; apply _.
  - rewrite (filter_map_fst (fun k => negb (is_index k))). apply Forall_forall. intros k Hk.
    apply list_elem_of_In, filter_In in Hk as [_ Hk]. by apply negb_true_iff.
  - rewrite (filter_map_fst (fun k => negb (is_index k))). by apply StronglySorted_filter.
Qed.

Lemma engineOrder_lexicographic (ks : list string) :
  engineOrder ks -> Forall (fun k => is_index k = false) ks -> lexicographic ks.
Proof.
  intros (idx & rest & -> & Hidx & _ & _ & Hrest) Hno.
  destruct idx as [|k idx]; [done|]. exfalso.
  apply Forall_cons in Hidx as [Hk _]. apply Forall_cons in Hno as [Hk' _]. congruence.
Qed.

Lemma sortedKeys_lexicographic {A : Type} (props : list (string * A)) :
  lexicographic (sortedKeys props).
Proof. apply StronglySorted_merge_sort; apply _. Qed.

Lemma propertyOrder_elem {A : Type} (out : list (string * A)) (kv : string * A) :
  kv ∈ propertyOrder out -> kv ∈ out.
Proof.
  unfold propertyOrder. rewrite elem_of_app, merge_sort_Permutation.
  intros [H|H]; by apply list_elem_of_In, filter_In in H as [H%list_elem_of_In _].
Qed.

Lemma assigned_elem {A : Type} (out : list (string * A)) (kv : string * A) :
  kv ∈ assigned out -> kv ∈ out.
Proof. unfold assigned. by intros [H%list_elem_of_In _]%list_elem_of_In%filter_In. Qed.

Lemma assigned_lexicographic {A : Type} (out : list (string * A)) :
  lexicographic (List.map fst out) -> lexicographic (List.map fst (assigned out)).
Proof.
  intros H. unfold assigned.
  rewrite (filter_map_fst (fun k => negb (String.eqb k "__proto__"))).
  by apply StronglySorted_filter.
Qed.

Lemma everyObject_array (P : list string -> Prop) (ts : list tree) :
  Forall (everyObject P) ts -> everyObject P (TArray ts).
Proof. cbn [everyObject]. induction 1; cbn [fold_right]; [done|by split]. Qed.

Lemma everyObject_object (P : list string -> Prop) (props : list (string * tree)) :
  P (List.map fst props) -> Forall (fun kv => everyObject P (snd kv)) props ->
  everyObject P (TObject props).
Proof.
  intros HP H. cbn [everyObject]. split; [exact HP|]. clear HP.
  induction H; cbn [fold_right]; [done|by split].
Qed.

(** The loop over the sorted keys builds the object in their order. *)
Lemma visitAll_keys (h : heap) (n : nat) (props : list (string * jsval)) :
  forall ks s0 out s1,
    visitAll (fun k sn =>
                match recur n h (default JUndefined (member k props)) sn with
                | Some (t, sn') => Some ((k, t), sn')
                | None => None
                end) ks s0 = Some (out, s1) ->
    List.map fst out = ks.
Proof.
  induction ks as [|k ks IHk]; intros s0 out s1 E; cbn [visitAll] in E.
  - by inversion E.
  - destruct (recur n h _ s0) as [[t1 s2]|]; [|done].
    destruct (visitAll _ ks s2) as [[ts s3]|] eqn:E2; [|done].
    inversion E; subst. cbn [List.map fst]. f_equal. by eapply IHk.
Qed.

Lemma recur_everyObject_at (P : list string -> Prop) (h : heap) (n : nat) :
  (forall a props (out : list (string * tree)),
     h !! a = Some (JObject props) -> List.map fst out = sortedKeys props ->
     P (List.map fst (propertyOrder (assigned out)))) ->
  forall x s t s', recur n h x s = Some (t, s') -> everyObject P t.
Proof.
  intros HP. induction n as [|n IH]; intros x s t s' H; [done|]. cbn [recur] in H.
  destruct x as [| | | | |a]; try (by inversion H).
  destruct (base.decide (a ∈ s)); [by inversion H|].
  destruct (h !! a) as [[elems|props]|] eqn:Ha; [| |by inversion H].
  - destruct (visitAll _ elems _) as [[ts s1]|] eqn:E; [|done]. inversion H; subst.
    apply everyObject_array. eapply visitAll_Forall; [|exact E]. exact IH.
  - match type of H with context [visitAll ?f _ _] => set (g := f) in * end.
    destruct (visitAll g (sortedKeys props) _) as [[out s1]|] eqn:E; [|done].
    inversion H; subst. apply everyObject_object.
    + apply (HP a props out Ha). exact (visitAll_keys h n props _ _ _ _ E).
    + apply Forall_forall. intros kv Hkv%propertyOrder_elem%assigned_elem.
      assert (Forall (fun kv => everyObject P (snd kv)) out) as Hout.
      { eapply visitAll_Forall; [|exact E]. intros k s0 [k' t'] s0' Hk. unfold g in Hk.
        destruct (recur n h _ s0) as [[t1 s2]|] eqn:E1; [|done]. inversion Hk; subst. eauto. }
      rewrite Forall_forall in Hout. by apply Hout.
Qed.

Lemma recur_everyObject (P : list string -> Prop) (h : heap) (n : nat) :
  (forall ks, engineOrder ks -> P ks) ->
  forall x s t s', recur n h x s = Some (t, s') -> everyObject P t.
Proof.
  intros HP. apply recur_everyObject_at. intros a props out _ Hout.
  apply HP, propertyOrder_keys, assigned_lexicographic. rewrite Hout.
  apply sortedKeys_lexicographic.
Qed.

(** In a heap whose objects have no array-index key, every object is
    serialized with its keys in lexicographic order. *)
Lemma recur_plain_lexicographic (h : heap) (n : nat) :
  PlainHeap h ->
  forall x s t s', recur n h x s = Some (t, s') -> everyObject lexicographic t.
Proof.
  intros Hplain. apply recur_everyObject_at. intros a props out Ha Hout.
  apply engineOrder_lexicographic.
  - apply propertyOrder_keys, assigned_lexicographic. rewrite Hout.
    apply sortedKeys_lexicographic.
  - apply Forall_forall. intros k Hk.
    apply list_elem_of_In, in_map_iff in Hk as (kv & <- & Hkv).
    apply list_elem_of_In, propertyOrder_elem, assigned_elem in Hkv.
    assert (fst kv ∈ List.map fst props) as Hin.
    { unfold sortedKeys in Hout. rewrite <- (merge_sort_Permutation String.le), <- Hout.
      apply list_elem_of_In, in_map. by apply list_elem_of_In. }
    specialize (Hplain a props Ha). unfold plainKeys in Hplain.
    rewrite Forall_forall in Hplain. by apply Hplain.
Qed.

(** A reference to an object that was visited before, as every reference
    that closes a cycle is, becomes [null]. *)
Lemma recur_seen (h : heap) (n : nat) (a : addr) (s : gset addr) :
  a ∈ s -> recur (S n) h (JRef a) s = Some (TNull, s).
Proof. intros Ha. cbn [recur]. by destruct (base.decide (a ∈ s)). Qed.

(** An array is visited in the order of its elements, and yields an array
    of their results in that order. *)
Lemma recur_array (h : heap) (n : nat) (a : addr) (s : gset addr) (elems : list jsval)
    (t : tree) (s' : gset addr) :
  a ∉ s -> h !! a = Some (JArray elems) -> recur (S n) h (JRef a) s = Some (t, s') ->
  exists ts, t = TArray ts /\
    Forall2 (fun x r => exists sn sn', recur n h x sn = Some (r, sn')) elems ts.
Proof.
  intros Ha Hh H. cbn [recur] in H. destruct (base.decide (a ∈ s)); [done|]. rewrite Hh in H.
  destruct (visitAll _ elems _) as [[ts s1]|] eqn:E; [|done]. inversion H; subst.
  exists ts. split; [done|]. by eapply visitAll_in_order.
Qed.

(** ** The fingerprint *)

Lemma toInt32_mod (z : Z) : (toInt32 z mod 2 ^ 32 = z mod 2 ^ 32)%Z.
Proof.
  unfold toInt32. rewrite Zminus_mod, Zmod_mod, <- Zminus_mod. f_equal. lia.
Qed.

Lemma lxor_mod (a c : Z) :
  (Z.lxor a c mod 2 ^ 32 = Z.lxor (a mod 2 ^ 32) (c mod 2 ^ 32))%Z.
Proof.
  rewrite <- !Z.land_ones by lia. apply Z.bits_inj'. intros n Hn.
  rewrite Z.lxor_spec, !Z.land_spec, Z.lxor_spec. by destruct (Z.testbit (Z.ones 32) n);
    rewrite ?andb_true_r, ?andb_false_r.
Qed.

Lemma lxor_mul_congr (a b c p : Z) :
  (a mod 2 ^ 32 = b mod 2 ^ 32 ->
   (Z.lxor a c * p) mod 2 ^ 32 = (Z.lxor b c * p) mod 2 ^ 32)%Z.
Proof.
  intros H. rewrite (Zmult_mod (Z.lxor a c)), (Zmult_mod (Z.lxor b c)).
  by rewrite (lxor_mod a), (lxor_mod b), H.
Qed.

(** One turn of the loop of [simpleHash], on the unsigned word. *)
Lemma hash_step (h : Z) (c : ascii) :
  (toUint32 (imul (Z.lxor (toInt32 h) (Z.of_nat (code c))) 16777619)
   = (Z.lxor (toUint32 h) (Z.of_nat (code c)) * 16777619) mod 2 ^ 32)%Z.
Proof.
  unfold imul, toUint32. rewrite toInt32_mod.
  rewrite Zmult_mod, !toInt32_mod, <- Zmult_mod.
  apply lxor_mul_congr. by rewrite toInt32_mod, Zmod_mod.
Qed.

Lemma hashLoop_fnv1a (str : string) :
  forall h, toUint32 (hashLoop h str) = fnv1a (toUint32 h) str.
Proof.
  induction str as [|c str IH]; intros h; cbn [hashLoop fnv1a]; [done|].
  rewrite IH, hash_step. done.
Qed.

Lemma fnv1a_range (str : string) :
  forall h, (0 <= h < 2 ^ 32)%Z -> (0 <= fnv1a h str < 2 ^ 32)%Z.
Proof.
  induction str as [|c str IH]; intros h Hh; cbn [fnv1a]; [done|].
  apply IH. apply Z.mod_pos_bound. lia.
Qed.

Lemma slength_app (s t : string) :
  String.length (s +:+ t) = String.length s + String.length t.
Proof. induction s as [|c s IH]; [done|]. rewrite sapp_cons. cbn [String.length]. by rewrite IH. Qed.

Lemma zeros_length (n : nat) : String.length (zeros n) = n.
Proof. induction n as [|n IH]; [done|]. cbn [zeros String.length]. by rewrite IH. Qed.

Lemma hexDigit_lower (m : nat) : m < 16 -> is_lower_hex (hexDigit m) = true.
Proof. intros H. do 16 (destruct m as [|m]; [vm_compute; reflexivity|]). lia. Qed.

Lemma hexDigit_value (m : nat) : m < 16 -> hexDigitValue (hexDigit m) = Z.of_nat m.
Proof. intros H. do 16 (destruct m as [|m]; [vm_compute; reflexivity|]). lia. Qed.

Lemma hexDigits_acc (f : nat) :
  forall n acc, hexDigits f n acc = hexDigits f n "" +:+ acc.
Proof.
  induction f as [|f IH]; intros n acc; cbn [hexDigits]; [done|].
  destruct (n <? 16)%Z; [done|].
  rewrite (IH _ (String _ acc)), (IH _ (String _ "")). by rewrite sapp_assoc.
Qed.

Lemma hexDigits_length (f : nat) :
  forall n k, (0 <= n < 16 ^ Z.of_nat f)%Z -> (n < 16 ^ Z.of_nat k)%Z -> 1 <= k ->
              String.length (hexDigits f n "") <= k.
Proof.
  induction f as [|f IH]; intros n k Hf Hk Hk1; cbn [hexDigits]; [cbn; lia|].
  destruct (Z.ltb_spec n 16); [cbn; lia|].
  rewrite hexDigits_acc, slength_app. cbn [String.length].
  assert (2 <= k).
  { destruct k as [|[|k]]; [lia| |lia]. change (16 ^ Z.of_nat 1)%Z with 16%Z in Hk. lia. }
  assert (String.length (hexDigits f (n / 16) "") <= k - 1); [|lia].
  apply IH; [| |lia].
  - split; [apply Z.div_pos; lia|]. apply Z.div_lt_upper_bound; [lia|].
    replace (Z.of_nat (S f)) with (Z.of_nat f + 1)%Z in Hf by lia.
    rewrite Z.pow_add_r in Hf by lia. lia.
  - apply Z.div_lt_upper_bound; [lia|].
    replace (Z.of_nat k) with (Z.of_nat (k - 1) + 1)%Z in Hk by lia.
    rewrite Z.pow_add_r in Hk by lia. lia.
Qed.

Lemma hexDigits_lower (f : nat) :
  forall n acc, (0 <= n)%Z -> allChars is_lower_hex acc = true ->
                allChars is_lower_hex (hexDigits f n acc) = true.
Proof.
  induction f as [|f IH]; intros n acc Hn Hacc; cbn [hexDigits]; [done|].
  assert (allChars is_lower_hex (String (hexDigit (Z.to_nat (n mod 16))) acc) = true) as Hd.
  { cbn [allChars]. rewrite Hacc, hexDigit_lower; [done|].
    pose proof (Z.mod_pos_bound n 16). lia. }
  destruct (n <? 16)%Z; [done|]. apply IH; [apply Z.div_pos; lia|done].
Qed.

Lemma hexDigits_value (f : nat) :
  forall n acc, (0 <= n < 16 ^ Z.of_nat f)%Z ->
                hexValue 0 (hexDigits f n acc) = hexValue n acc.
Proof.
  induction f as [|f IH]; intros n acc Hf; cbn [hexDigits].
  - change (16 ^ Z.of_nat 0)%Z with 1%Z in Hf. by replace n with 0%Z by lia.
  - pose proof (Z.mod_pos_bound n 16 ltac:(lia)) as Hm.
    destruct (Z.ltb_spec n 16).
    + cbn [hexValue]. rewrite hexDigit_value by lia. rewrite Z.mod_small by lia.
      f_equal. lia.
    + rewrite IH.
      * cbn [hexValue]. rewrite hexDigit_value by lia. f_equal.
        rewrite Z2Nat.id by lia. pose proof (Z.div_mod n 16). lia.
      * split; [apply Z.div_pos; lia|]. apply Z.div_lt_upper_bound; [lia|].
        replace (Z.of_nat (S f)) with (Z.of_nat f + 1)%Z in Hf by lia.
        rewrite Z.pow_add_r in Hf by lia. lia.
Qed.

Lemma toHex_fuel (n : Z) : (0 <= n)%Z -> (n < 16 ^ Z.of_nat (S (Z.to_nat (Z.log2 n))))%Z.
Proof.
  intros Hn. destruct (Z.eq_dec n 0%Z) as [->|Hne]; [done|].
  pose proof (Z.log2_nonneg n). pose proof (Z.log2_spec n ltac:(lia)) as [_ Hlt].
  eapply Z.lt_le_trans; [exact Hlt|].
  replace (Z.of_nat (S (Z.to_nat (Z.log2 n)))) with (Z.succ (Z.log2 n)) by lia.
  change 16%Z with (2 ^ 4)%Z. rewrite <- Z.pow_mul_r by lia.
  apply Z.pow_le_mono_r; lia.
Qed.

Lemma zeros_value (k : nat) (s : string) : hexValue 0 (zeros k +:+ s) = hexValue 0 s.
Proof. induction k as [|k IH]; [done|]. cbn [zeros]. rewrite sapp_cons. exact IH. Qed.

Lemma zeros_lower (k : nat) : allChars is_lower_hex (zeros k) = true.
Proof. induction k as [|k IH]; [done|]. cbn [zeros allChars]. by rewrite IH. Qed.

(** The text of a 32-bit word: eight lowercase hexadecimal digits that
    write the word. *)
Lemma padStart8_toHex (n : Z) :
  (0 <= n < 2 ^ 32)%Z ->
  String.length (padStart8 (toHex n)) = 8 /\
  allChars is_lower_hex (padStart8 (toHex n)) = true /\
  hexValue 0 (padStart8 (toHex n)) = n.
Proof.
  intros Hn. unfold padStart8, toHex. pose proof (toHex_fuel n ltac:(lia)) as Hfuel.
  set (f := S (Z.to_nat (Z.log2 n))) in *.
  assert (String.length (hexDigits f n "") <= 8) as Hlen.
  { apply hexDigits_length; [lia| |lia]. change (16 ^ Z.of_nat 8)%Z with (2 ^ 32)%Z. lia. }
  split; [|split].
  - rewrite slength_app, zeros_length. lia.
  - rewrite allChars_app, zeros_lower. by rewrite hexDigits_lower by (done || lia).
  - rewrite zeros_value, hexDigits_value by lia. done.
Qed.

Lemma simpleHash_fnv1a (str : string) :
  simpleHash str = padStart8 (toHex (fnv1a 2166136261 str)).
Proof. unfold simpleHash. by rewrite hashLoop_fnv1a. Qed.

(** *** The trace identifier *)

Lemma recur_object (h : heap) (n : nat) (a : addr) (s : gset addr)
    (props : list (string * jsval)) (t : tree) (s' : gset addr) :
  a ∉ s -> h !! a = Some (JObject props) -> recur (S n) h (JRef a) s = Some (t, s') ->
  exists out, t = TObject out.
Proof.
  intros Ha Hh H. cbn [recur] in H. destruct (base.decide (a ∈ s)); [done|]. rewrite Hh in H.
  destruct (visitAll _ (sortedKeys props) _) as [[out s1]|] eqn:E; [|done].
  inversion H; subst. by eexists.
Qed.

Lemma alloc_object (props : list (string * tree)) (st : gmap addr jsobj * addr) :
  exists a vs h next, alloc (TObject props) st = (JRef a, (h, next)) /\
                      h !! a = Some (JObject vs).
Proof.
  cbn [alloc].
  destruct (allocAll _ props st) as [vs [h next]].
  exists next, vs, (<[next := JObject vs]> h), (S next). split; [done|].
  apply lookup_insert_eq.
Qed.

Lemma tree_induction (P : tree -> Prop) :
  P TUndefined -> P TNull -> (forall b, P (TBool b)) -> (forall n, P (TNumber n)) ->
  (forall s, P (TString s)) ->
  (forall elems, Forall P elems -> P (TArray elems)) ->
  (forall props, Forall (fun kv => P (snd kv)) props -> P (TObject props)) ->
  forall t, P t.
Proof.
  intros Hu Hn Hb Hnum Hs Harr Hobj. fix IH 1.
  intros [| |b|n|s|elems|props];
    [exact Hu|exact Hn|apply Hb|apply Hnum|apply Hs| |].
  - apply Harr. induction elems as [|e elems IHe]; constructor; [apply IH|exact IHe].
  - apply Hobj. induction props as [|kv props IHp]; constructor; [apply IH|exact IHp].
Qed.

Lemma everyObject_array_inv (P : list string -> Prop) (ts : list tree) :
  everyObject P (TArray ts) -> Forall (everyObject P) ts.
Proof.
  cbn [everyObject]. induction ts as [|t ts IH]; cbn [fold_right]; [constructor|].
  intros [Ht Hts]. constructor; [done|by apply IH].
Qed.

Lemma everyObject_object_inv (P : list string -> Prop) (props : list (string * tree)) :
  everyObject P (TObject props) ->
  P (List.map fst props) /\ Forall (fun kv => everyObject P (snd kv)) props.
Proof.
  cbn [everyObject]. intros [HP H]. split; [done|]. clear HP.
  induction props as [|kv props IH]; cbn [fold_right] in *; [constructor|].
  destruct H as [Hkv H]. constructor; [done|by apply IH].
Qed.

Lemma allocAll_plain {A B : Type} (f : A -> gmap addr jsobj * addr -> B * (gmap addr jsobj * addr))
    (xs : list A) :
  Forall (fun x => forall st, PlainHeap (fst st) -> PlainHeap (fst (snd (f x st)))) xs ->
  forall st, PlainHeap (fst st) -> PlainHeap (fst (snd (allocAll f xs st))).
Proof.
  induction 1 as [|x xs Hx _ IH]; intros st Hst; cbn [allocAll]; [done|].
  specialize (Hx st Hst). destruct (f x st) as [v st1]. cbn [fst snd] in Hx.
  specialize (IH st1 Hx). by destruct (allocAll f xs st1) as [vs st2].
Qed.

Lemma allocAll_keys {St : Type} (f : tree -> St -> jsval * St) (props : list (string * tree)) :
  forall st,
    List.map fst (fst (allocAll (fun kv st' => let '(v, st'') := f (snd kv) st' in
                                               ((fst kv, v), st'')) props st))
    = List.map fst props.
Proof.
  induction props as [|kv props IH]; intros st; cbn [allocAll]; [done|].
  destruct (f (snd kv) st) as [v st1]. specialize (IH st1).
  destruct (allocAll _ props st1) as [vs st2]. cbn [fst List.map] in *. by rewrite IH.
Qed.

(** A literal whose objects have no array-index key is evaluated into a
    heap whose objects have none. *)
Lemma alloc_plain (t : tree) :
  everyObject plainKeys t ->
  forall st, PlainHeap (fst st) -> PlainHeap (fst (snd (alloc t st))).
Proof.
  induction t as [| | | | |elems IH|props IH] using tree_induction; intros Ht st Hst;
    cbn [alloc]; try done.
  - apply everyObject_array_inv in Ht.
    pose proof (allocAll_plain alloc elems) as Hall.
    destruct (allocAll alloc elems st) as [vs [h next]] eqn:E. cbn [fst snd].
    assert (PlainHeap h) as Hh.
    { assert (Forall (fun e => forall st0, PlainHeap (fst st0) ->
                                           PlainHeap (fst (snd (alloc e st0)))) elems) as Hf.
      { rewrite Forall_forall in *. intros e He. apply IH; [done|]. by apply Ht. }
      specialize (Hall Hf st Hst). by rewrite E in Hall. }
    intros a props Ha. destruct (base.decide (next = a)) as [->|Hne].
    + by rewrite lookup_insert_eq in Ha.
    + rewrite lookup_insert_ne in Ha by done. by eapply Hh.
  - apply everyObject_object_inv in Ht as [Hkeys Ht].
    set (g := fun (kv : string * tree) (st' : gmap addr jsobj * addr) =>
                let '(v, st'') := alloc (snd kv) st' in ((fst kv, v), st'')).
    pose proof (allocAll_plain g props) as Hall.
    pose proof (allocAll_keys alloc props st) as Hk. fold g in Hk.
    destruct (allocAll g props st) as [vs [h next]] eqn:E. cbn [fst snd] in *.
    assert (PlainHeap h) as Hh.
    { assert (Forall (fun x => forall st0, PlainHeap (fst st0) -> PlainHeap (fst (snd (g x st0))))
                     props) as Hg.
      { rewrite Forall_forall in *. intros kv Hkv st0 Hst0. unfold g.
        specialize (IH kv Hkv (Ht kv Hkv) st0 Hst0). by destruct (alloc (snd kv) st0). }
      specialize (Hall Hg st Hst). by rewrite E in Hall. }
    intros a props' Ha. destruct (base.decide (next = a)) as [->|Hne].
    + rewrite lookup_insert_eq in Ha. inversion Ha; subst props'. by rewrite Hk.
    + rewrite lookup_insert_ne in Ha by done. by eapply Hh.
Qed.

Lemma everyObject_map {A : Type} (P : list string -> Prop) (g : A -> tree) (l : list A) :
  (forall x, everyObject P (g x)) -> everyObject P (TArray (List.map g l)).
Proof.
  intros Hg. apply everyObject_array. apply Forall_forall. intros t Ht.
  apply list_elem_of_In, in_map_iff in Ht as (x & <- & _). apply Hg.
Qed.

(** No key of the trace record is an array index. *)
Lemma tracePayload_plain (now : string) (res : DecisionResult) :
  everyObject plainKeys (tracePayload now res).
Proof.
  assert (Hopt : forall o, everyObject plainKeys (optString o)) by (by intros []).
  unfold tracePayload. apply everyObject_object.
  { cbn [List.map fst]. repeat constructor. }
  repeat (apply Forall_cons; split); cbn [snd]; try done.
  - apply everyObject_object; [cbn [List.map fst]; repeat constructor|].
    repeat (apply Forall_cons; split); cbn [snd]; done.
  - destruct (rule res); [|done]. apply everyObject_object; [cbn [List.map fst]; repeat constructor|].
    repeat (apply Forall_cons; split); cbn [snd]; done.
  - by apply everyObject_map.
  - destruct (res_derivations res) as [ds|]; [|done]. apply everyObject_map. intros d.
    apply everyObject_object; [cbn [List.map fst]; repeat constructor|].
    repeat (apply Forall_cons; split); cbn [snd]; try done.
    + by destruct (dvalue d).
    + destruct (from d) as [cs|]; [|done]. apply everyObject_map. intros c.
      apply everyObject_object; [cbn [List.map fst]; repeat constructor|].
      repeat (apply Forall_cons; split); cbn [snd]; done.
Qed.

(** *** The canonical form of a record *)

#[local] Abbreviation within lo hi a := (lo <= a < hi).

Lemma recur_S (n : nat) (h : heap) (x : jsval) (seen : gset addr) :
  recur (S n) h x seen =
      match x with
      | JUndefined => Some (TUndefined, seen)
      | JNull => Some (TNull, seen)
      | JBool b => Some (TBool b, seen)
      | JNumber z => Some (TNumber z, seen)
      | JString s => Some (TString s, seen)
      | JRef a =>
          if base.decide (a ∈ seen) then Some (TNull, seen)
          else
            let seen := {[a]} ∪ seen in
            match h !! a with
            | None => Some (TUndefined, seen)
            | Some (JArray elems) =>
                match visitAll (recur n h) elems seen with
                | Some (ts, seen') => Some (TArray ts, seen')
                | None => None
                end
            | Some (JObject props) =>
                match
                  visitAll (fun k sn =>
                              match recur n h (default JUndefined (member k props)) sn with
                              | Some (t, sn') => Some ((k, t), sn')
                              | None => None
                              end)
                           (sortedKeys props) seen
                with
                | Some (out, seen') => Some (TObject (propertyOrder (assigned out)), seen')
                | None => None
                end
            end
      end.
Proof. reflexivity. Qed.

Lemma visitAll_ext {A B : Type} (f g : A -> gset addr -> option (B * gset addr)) (xs : list A) :
  (forall x s r, f x s = Some r -> g x s = Some r) ->
  forall s r, visitAll f xs s = Some r -> visitAll g xs s = Some r.
Proof.
  intros Hfg. induction xs as [|x xs IH]; intros s r H; cbn [visitAll] in *; [done|].
  destruct (f x s) as [[t s1]|] eqn:E1; [|done]. rewrite (Hfg _ _ _ E1).
  destruct (visitAll f xs s1) as [[ts s2]|] eqn:E2; [|done]. by rewrite (IH _ _ E2).
Qed.

Lemma recur_fuel_S (h : heap) (n : nat) :
  forall x s r, recur n h x s = Some r -> recur (S n) h x s = Some r.
Proof.
  induction n as [|n IH]; intros x s r H; [done|]. rewrite recur_S in H. rewrite recur_S.
  destruct x as [| | | | |a]; try done.
  destruct (base.decide (a ∈ s)); [done|]. cbv zeta in *.
  destruct (h !! a) as [[elems|props]|]; [| |done].
  - destruct (visitAll (recur n h) elems _) as [[ts s1]|] eqn:E; [|done].
    by rewrite (visitAll_ext _ (recur (S n) h) _ IH _ _ E).
  - match type of H with context [visitAll ?f _ _] => set (g := f) in * end.
    destruct (visitAll g (sortedKeys props) _) as [[out s1]|] eqn:E; [|done].
    match goal with |- context [visitAll ?f _ _] => set (g' := f) end.
    assert (visitAll g' (sortedKeys props) ({[a]} ∪ s) = Some (out, s1)) as ->; [|exact H].
    apply (visitAll_ext g); [|exact E]. intros k s0 r0 Hk. unfold g in Hk. unfold g'.
    destruct (recur n h _ s0) as [[t1 s2]|] eqn:E1; [|done]. by rewrite (IH _ _ _ E1).
Qed.

Lemma recur_fuel (h : heap) (n m : nat) (x : jsval) (s : gset addr)
    (r : tree * gset addr) :
  n <= m -> recur n h x s = Some r -> recur m h x s = Some r.
Proof. intros Hle H. induction Hle; [done|]. by apply recur_fuel_S. Qed.


Lemma Forall2_filter {A B : Type} (R : A -> B -> Prop) (p : A -> bool) (q : B -> bool)
    (l1 : list A) (l2 : list B) :
  (forall x y, R x y -> p x = q y) ->
  Forall2 R l1 l2 -> Forall2 R (List.filter p l1) (List.filter q l2).
Proof.
  intros Hpq. induction 1 as [|x y l1 l2 Hxy _ IH]; [constructor|]. cbn [List.filter].
  rewrite (Hpq x y Hxy). destruct (q y); [by constructor|done].
Qed.

Lemma filter_Permutation {A : Type} (f : A -> bool) (l : list A) :
  Permutation (List.filter f l ++ List.filter (fun x => negb (f x)) l) l.
Proof.
  induction l as [|x l IH]; [done|]. cbn [List.filter]. destruct (f x); cbn [negb app].
  - by constructor.
  - rewrite <- Permutation_middle. by constructor.
Qed.

Lemma filter_Permutation_proper {A : Type} (f : A -> bool) (l l' : list A) :
  Permutation l l' -> Permutation (List.filter f l) (List.filter f l').
Proof.
  induction 1 as [|x l l' _ IH|x y l|l l' l'' _ IH1 _ IH2]; cbn [List.filter].
  - done.
  - destruct (f x); [by constructor|done].
  - destruct (f x), (f y); try done. apply perm_swap.
  - by etransitivity.
Qed.

Lemma propertyOrder_Permutation {A : Type} (l : list (string * A)) :
  Permutation (propertyOrder l) l.
Proof.
  unfold propertyOrder. rewrite merge_sort_Permutation.
  apply (filter_Permutation (fun kv => is_index (fst kv))).
Qed.

(** Evaluating the elements of an array literal. *)
Lemma allocAll_serial (elems : list tree) :
  Forall (fun t => forall h n v h' n', alloc t (h, n) = (v, (h', n')) ->
            n <= n' /\ (forall a, ~ within n n' a -> h' !! a = h !! a) /\
            Serial h' v n n' t) elems ->
  forall h n vs h1 n1, allocAll alloc elems (h, n) = (vs, (h1, n1)) ->
    n <= n1 /\ (forall a, ~ within n n1 a -> h1 !! a = h !! a) /\
    exists f0, forall fuel h' seen,
      f0 <= fuel -> (forall a, within n n1 a -> h' !! a = h1 !! a) ->
      (forall a, a ∈ seen -> ~ within n n1 a) ->
      exists ts' seen', visitAll (recur fuel h') vs seen = Some (ts', seen') /\
                        Forall2 Canon elems ts' /\
                        (forall a, a ∈ seen' -> a ∈ seen \/ within n n1 a).
Proof.
  induction 1 as [|t elems Ht _ IH]; intros h n vs h1 n1 E; cbn [allocAll] in E.
  - inversion E; subst. split; [lia|]. split; [done|]. exists 0. intros fuel h' seen _ _ _.
    exists [], seen. cbn [visitAll]. repeat split; [constructor|tauto].
  - destruct (alloc t (h, n)) as [v [h0 n0]] eqn:E0.
    destruct (allocAll alloc elems (h0, n0)) as [vs' [h2 n2]] eqn:E1.
    inversion E; subst. clear E.
    destruct (Ht _ _ _ _ _ E0) as (Hle0 & Hframe0 & f00 & Hser).
    destruct (IH _ _ _ _ _ E1) as (Hle1 & Hframe1 & f01 & Hrest).
    split; [lia|]. split.
    { intros a Ha. rewrite Hframe1 by lia. apply Hframe0. lia. }
    exists (max f00 f01). intros fuel h' seen Hfuel Hagree Hseen. cbn [visitAll].
    destruct (Hser fuel h' seen) as (t' & seen1 & -> & Hcanon & Hseen1); [lia| | |].
    { intros a Ha. rewrite Hagree by lia. apply Hframe1. lia. }
    { intros a Ha Hin. apply (Hseen a Ha). lia. }
    destruct (Hrest fuel h' seen1) as (ts' & seen2 & -> & Hall & Hseen2); [lia| | |].
    { intros a Ha. apply Hagree. lia. }
    { intros a Ha Hin. destruct (Hseen1 a Ha) as [Hs|Hs]; [apply (Hseen a Hs)|]; lia. }
    exists (t' :: ts'), seen2. split; [done|]. split; [by constructor|].
    intros a Ha. destruct (Hseen2 a Ha) as [Hs|Hs]; [|right; lia].
    destruct (Hseen1 a Hs) as [Hs'|Hs']; [by left|right; lia].
Qed.


Lemma member_head {A : Type} (k : string) (v : A) (l : list (string * A)) :
  member k ((k, v) :: l) = Some v.
Proof. cbn [member]. by rewrite String.eqb_refl. Qed.

Lemma member_tail {A : Type} (k k' : string) (v : A) (l : list (string * A)) :
  k' <> k -> member k ((k', v) :: l) = member k l.
Proof. intros H. cbn [member]. apply String.eqb_neq in H. by rewrite H. Qed.

(** Evaluating the members of an object literal: each member has addresses
    of its own, and is serialized whenever none of them has been seen. *)
Lemma allocAll_members (props : list (string * tree)) :
  Forall (fun kv => forall h n v h' n', alloc (snd kv) (h, n) = (v, (h', n')) ->
            n <= n' /\ (forall a, ~ within n n' a -> h' !! a = h !! a) /\
            Serial h' v n n' (snd kv)) props ->
  List.NoDup (List.map fst props) ->
  forall h n pvs h1 n1,
    allocAll (fun kv st' => let '(v, st'') := alloc (snd kv) st' in ((fst kv, v), st''))
             props (h, n) = (pvs, (h1, n1)) ->
    n <= n1 /\ (forall a, ~ within n n1 a -> h1 !! a = h !! a) /\
    exists f0 (own : string -> addr -> Prop),
      (forall k a, own k a -> within n n1 a) /\
      (forall k k' a, own k a -> own k' a -> k = k') /\
      forall kv, In kv props ->
        forall fuel h' seen,
          f0 <= fuel -> (forall a, within n n1 a -> h' !! a = h1 !! a) ->
          (forall a, a ∈ seen -> ~ own (fst kv) a) ->
          exists t' seen',
            recur fuel h' (default JUndefined (member (fst kv) pvs)) seen = Some (t', seen') /\
            Canon (snd kv) t' /\
            (forall a, a ∈ seen' -> a ∈ seen \/ own (fst kv) a).
Proof.
  induction 1 as [|kv0 props Ht _ IH]; intros Hnd h n pvs h1 n1 E; cbn [allocAll] in E.
  - inversion E; subst. split; [lia|]. split; [done|]. exists 0, (fun _ _ => False).
    split; [done|]. split; [done|]. intros kv [].
  - destruct (alloc (snd kv0) (h, n)) as [v [h0 n0]] eqn:E0.
    match type of E with context [allocAll ?f props (h0, n0)] => set (g := f) in * end.
    destruct (allocAll g props (h0, n0)) as [pvs' [h2 n2]] eqn:E1.
    inversion E; subst. clear E.
    cbn [List.map] in Hnd. apply NoDup_cons_iff in Hnd as [Hfresh Hnd].
    destruct (Ht _ _ _ _ _ E0) as (Hle0 & Hframe0 & f00 & Hser).
    destruct (IH Hnd _ _ _ _ _ E1) as (Hle1 & Hframe1 & f01 & own' & Hown' & Hdisj' & Hrest).
    split; [lia|]. split.
    { intros a Ha. rewrite Hframe1 by lia. apply Hframe0. lia. }
    exists (max f00 f01), (fun k a => (k = fst kv0 /\ within n n0 a) \/ own' k a).
    split; [|split].
    { intros k a [[_ Ha]|Ha]; [lia|]. apply Hown' in Ha. lia. }
    { intros k k' a [[-> Ha]|Ha] [[-> Ha']|Ha']; try done.
      - apply Hown' in Ha'. lia.
      - apply Hown' in Ha. lia.
      - by eapply Hdisj'. }
    intros kv [<-|Hin] fuel h' seen Hfuel Hagree Hseen.
    + rewrite member_head. cbn [from_option id].
      destruct (Hser fuel h' seen) as (t' & seen1 & -> & Hcanon & Hseen1); [lia| | |].
      { intros a Ha. rewrite Hagree by lia. apply Hframe1. lia. }
      { intros a Ha Hin. apply (Hseen a Ha). by left. }
      exists t', seen1. split; [done|]. split; [done|].
      intros a Ha. destruct (Hseen1 a Ha) as [Hs|Hs]; [by left|]. right. by left.
    + assert (fst kv0 <> fst kv) as Hne.
      { intros Heq. apply Hfresh. rewrite Heq. by apply in_map. }
      rewrite member_tail by done.
      destruct (Hrest kv Hin fuel h' seen) as (t' & seen1 & -> & Hcanon & Hseen1); [lia| | |].
      { intros a Ha. apply Hagree. lia. }
      { intros a Ha Hown. apply (Hseen a Ha). by right. }
      exists t', seen1. split; [done|]. split; [done|].
      intros a Ha. destruct (Hseen1 a Ha) as [Hs|Hs]; [by left|]. right. by right.
Qed.

(** The loop over keys that are distinct, each the key of a member. *)
Lemma visitAll_members (props : list (string * tree)) (pvs : list (string * jsval))
    (own : string -> addr -> Prop) (fuel : nat) (h' : heap) :
  (forall k k' a, own k a -> own k' a -> k = k') ->
  (forall kv, In kv props ->
     forall seen, (forall a, a ∈ seen -> ~ own (fst kv) a) ->
       exists t' seen',
         recur fuel h' (default JUndefined (member (fst kv) pvs)) seen = Some (t', seen') /\
         Canon (snd kv) t' /\
         (forall a, a ∈ seen' -> a ∈ seen \/ own (fst kv) a)) ->
  forall es seen,
    List.NoDup (List.map fst es) -> (forall kv, In kv es -> In kv props) ->
    (forall a, a ∈ seen -> forall kv, In kv es -> ~ own (fst kv) a) ->
    exists out seen',
      visitAll (fun k sn =>
                  match recur fuel h' (default JUndefined (member k pvs)) sn with
                  | Some (t, sn') => Some ((k, t), sn')
                  | None => None
                  end) (List.map fst es) seen = Some (out, seen') /\
      Forall2 (fun kv kv' => fst kv = fst kv' /\ Canon (snd kv) (snd kv')) es out /\
      (forall a, a ∈ seen' -> a ∈ seen \/ exists k, own k a).
Proof.
  intros Hdisj Hmem. induction es as [|kv es IH]; intros seen Hnd Hsub Hseen.
  - exists [], seen. cbn [List.map visitAll]. repeat split; [constructor|tauto].
  - cbn [List.map] in *. apply NoDup_cons_iff in Hnd as [Hfresh Hnd]. cbn [visitAll].
    destruct (Hmem kv (Hsub kv (or_introl eq_refl)) seen) as (t' & seen1 & -> & Hcanon & Hseen1).
    { intros a Ha. apply (Hseen a Ha). by left. }
    destruct (IH seen1 Hnd) as (out & seen2 & -> & Hall & Hseen2).
    { intros kv' Hkv'. apply Hsub. by right. }
    { intros a Ha kv' Hkv' Hown. destruct (Hseen1 a Ha) as [Hs|Hs].
      - apply (Hseen a Hs kv'); [by right|done].
      - apply Hfresh. rewrite (Hdisj _ _ _ Hs Hown). by apply in_map. }
    exists ((fst kv, t') :: out), seen2. split; [done|]. split; [by constructor|].
    intros a Ha. destruct (Hseen2 a Ha) as [Hs|Hs]; [|by right].
    destruct (Hseen1 a Hs) as [Hs'|Hs']; [by left|right; eauto].
Qed.


(** A literal without repeated keys is evaluated into cells of its own,
    and is serialized into its canonical form whenever none of these cells
    has been seen. *)
Lemma alloc_serial (t : tree) :
  wellKeyed t ->
  forall h lo v h' hi, alloc t (h, lo) = (v, (h', hi)) ->
    lo <= hi /\ (forall a, ~ within lo hi a -> h' !! a = h !! a) /\ Serial h' v lo hi t.
Proof.
  unfold wellKeyed.
  induction t as [| | | | |elems IH|props IH] using tree_induction; intros Hk h lo v h' hi E;
    cbn [alloc] in E.
  1-5: inversion E; subst; (split; [lia|]); (split; [done|]); exists 1;
       intros fuel h0 seen Hfuel _ _; destruct fuel as [|fuel]; [lia|];
       eexists _, seen; (split; [reflexivity|]); (split; [constructor|tauto]).
  - apply everyObject_array_inv in Hk.
    destruct (allocAll alloc elems (h, lo)) as [vs [h1 n1]] eqn:E1. inversion E; subst. clear E.
    assert (Hall : Forall (fun t => forall h n v h' n', alloc t (h, n) = (v, (h', n')) ->
                 n <= n' /\ (forall a, ~ within n n' a -> h' !! a = h !! a) /\
                 Serial h' v n n' t) elems).
    { rewrite Forall_forall in *. intros t Ht. exact (IH t Ht (Hk t Ht)). }
    destruct (allocAll_serial elems Hall _ _ _ _ _ E1) as (Hle & Hframe & f0 & Hvisit).
    clear Hall.
    split; [lia|]. split.
    { intros a Ha. rewrite lookup_insert_ne by lia. apply Hframe. lia. }
    exists (S f0). intros fuel h0 seen Hfuel Hagree Hseen.
    destruct fuel as [|fuel]; [lia|]. rewrite recur_S.
    destruct (base.decide (n1 ∈ seen)) as [Hin|_]; [exfalso; apply (Hseen n1 Hin); lia|].
    cbv zeta. rewrite Hagree by lia. rewrite lookup_insert_eq.
    destruct (Hvisit fuel h0 ({[n1]} ∪ seen)) as (ts' & seen' & -> & Hall & Hseen'); [lia| | |].
    { intros a Ha. rewrite Hagree by lia. apply lookup_insert_ne. lia. }
    { intros a [->%elem_of_singleton|Ha]%elem_of_union; [lia|].
      intros Hin. apply (Hseen a Ha). lia. }
    exists (TArray ts'), seen'. split; [done|]. split; [by constructor|].
    intros a Ha. destruct (Hseen' a Ha) as [[->%elem_of_singleton|Hs]%elem_of_union|Hs];
      [right; lia|by left|right; lia].
  - apply everyObject_object_inv in Hk as [Hnd Hk].
    match type of E with context [allocAll ?f props (h, lo)] => set (g := f) in * end.
    destruct (allocAll g props (h, lo)) as [pvs [h1 n1]] eqn:E1. inversion E; subst. clear E.
    pose proof (allocAll_keys alloc props (h, lo)) as Hkeys. fold g in Hkeys.
    rewrite E1 in Hkeys. cbn [fst] in Hkeys.
    assert (Hall : Forall (fun kv => forall h n v h' n',
                 alloc (snd kv) (h, n) = (v, (h', n')) ->
                 n <= n' /\ (forall a, ~ within n n' a -> h' !! a = h !! a) /\
                 Serial h' v n n' (snd kv)) props).
    { rewrite Forall_forall in *. intros kv Hkv. exact (IH kv Hkv (Hk kv Hkv)). }
    destruct (allocAll_members props Hall Hnd _ _ _ _ _ E1)
      as (Hle & Hframe & f0 & own & Hown & Hdisj & Hmem).
    clear Hall.
    split; [lia|]. split.
    { intros a Ha. rewrite lookup_insert_ne by lia. apply Hframe. lia. }
    exists (S f0). intros fuel h0 seen Hfuel Hagree Hseen.
    destruct fuel as [|fuel]; [lia|]. rewrite recur_S.
    destruct (base.decide (n1 ∈ seen)) as [Hin|_]; [exfalso; apply (Hseen n1 Hin); lia|].
    cbv zeta. rewrite Hagree by lia. rewrite lookup_insert_eq.
    assert (Permutation (sortedKeys pvs) (List.map fst props)) as Hperm.
    { unfold sortedKeys. rewrite Hkeys. apply merge_sort_Permutation. }
    destruct (Permutation_map_inv _ _ Hperm) as (es & Hes & Hpes).
    assert (Hsub : forall kv, In kv es -> In kv props).
    { intros kv Hkv. eapply Permutation_in; [symmetry; exact Hpes|exact Hkv]. }
    destruct (visitAll_members props pvs own fuel h0 Hdisj) with (es := es) (seen := {[n1]} ∪ seen)
      as (out & seen' & Hvisit & Hall & Hseen').
    { intros kv Hkv seen0 Hseen0. apply (Hmem kv Hkv); [lia| |done].
      intros a Ha. rewrite Hagree by lia. apply lookup_insert_ne. lia. }
    { rewrite <- Hes. eapply Permutation_NoDup; [symmetry; exact Hperm|exact Hnd]. }
    { exact Hsub. }
    { intros a [->%elem_of_singleton|Ha]%elem_of_union kv Hkv Hown'.
      - apply Hown in Hown'. lia.
      - apply Hown in Hown'. apply (Hseen a Ha). lia. }
    rewrite Hes, Hvisit.
    exists (TObject (propertyOrder (assigned out))), seen'. split; [done|]. split.
    + destruct (Permutation_Forall2 (symmetry Hpes) Hall) as (out2 & Hout2 & Hall2).
      apply (Canon_object props (List.filter ownMember out2)).
      * apply Forall2_filter; [|exact Hall2]. intros x y [Hxy _]. unfold ownMember.
        by rewrite Hxy.
      * etransitivity; [|symmetry; apply propertyOrder_Permutation].
        apply filter_Permutation_proper. by symmetry.
      * apply propertyOrder_keys, assigned_lexicographic.
        rewrite (visitAll_keys _ _ _ _ _ _ _ Hvisit), <- Hes. apply sortedKeys_lexicographic.
    + intros a Ha. destruct (Hseen' a Ha) as [[->%elem_of_singleton|Hs]%elem_of_union|[k Hs]];
        [right; lia|by left|apply Hown in Hs; right; lia].
Qed.

(** A record written as a literal without repeated keys is serialized into
    its canonical form. *)
Lemma stableTree_canonical (t : tree) (obj : jsval) (h : heap) (next : addr) :
  wellKeyed t -> alloc t (∅, 0) = (obj, (h, next)) ->
  exists t', stableTree h obj = Some t' /\ Canon t t'.
Proof.
  intros Hk E. destruct (alloc_serial t Hk _ _ _ _ _ E) as (_ & _ & f0 & Hser).
  destruct (stableTree_total h obj) as [t0 Ht0]. exists t0. split; [done|].
  unfold stableTree in Ht0.
  destruct (recur (S (size h)) h obj ∅) as [[t1 s1]|] eqn:E1; [|done]. inversion Ht0; subst t1.
  destruct (Hser (max f0 (S (size h))) h ∅) as (t' & seen' & E2 & Hcanon & _);
    [lia|done|set_solver|].
  apply (recur_fuel h _ (max f0 (S (size h)))) in E1; [|lia].
  rewrite E1 in E2. by inversion E2; subst.
Qed.

(** The trace identifier is always produced: the literal tag, then the
    fingerprint of the serialized trace record, whose keys are in
    lexicographic order at every level. *)
Lemma traceId_tagged (now : string) (res : DecisionResult) :
  exists obj h next t str,
    alloc (tracePayload now res) (∅, 0) = (obj, (h, next)) /\
    stableTree h obj = Some t /\ everyObject lexicographic t /\
    stringify t = Some str /\
    traceId now res = Ok ("SSE-" +:+ simpleHash str).
Proof.
  pose proof (alloc_plain (tracePayload now res) (tracePayload_plain now res) (∅, 0)) as Hplain.
  unfold traceId.
  destruct (alloc (tracePayload now res) (∅, 0)) as [obj [h next]] eqn:Halloc.
  cbn [fst snd] in Hplain. specialize (Hplain ltac:(intros ? ?; by rewrite lookup_empty)).
  assert (exists a vs, obj = JRef a /\ h !! a = Some (JObject vs)) as (a & vs & -> & Hh).
  { unfold tracePayload in Halloc.
    match type of Halloc with alloc (TObject ?ps) ?st = _ =>
      destruct (alloc_object ps st) as (a & vs & h0 & n0 & Ha & Hh0) end.
    rewrite Ha in Halloc. inversion Halloc; subst. eauto. }
  unfold stableStringify. destruct (stableTree_total h (JRef a)) as [t Ht]. rewrite Ht.
  pose proof Ht as Hrec. unfold stableTree in Hrec.
  destruct (recur (S (size h)) h (JRef a) ∅) as [[t' s']|] eqn:E; [|done].
  inversion Hrec; subst t'.
  destruct (recur_object h _ a ∅ vs t s' ltac:(set_solver) Hh E) as [out ->].
  cbn [mbind option_bind stringify].
  eexists (JRef a), h, next, _, _. split; [done|]. split; [exact Ht|].
  split; [by eapply recur_plain_lexicographic|]. split; reflexivity.
Qed.

(** No object of the trace record has two members of one key. *)
Lemma tracePayload_wellKeyed (now : string) (res : DecisionResult) :
  wellKeyed (tracePayload now res).
Proof.
  assert (Hopt : forall o, everyObject (fun ks => List.NoDup ks) (optString o)) by (by intros []).
  unfold wellKeyed, tracePayload. apply everyObject_object.
  { cbn [List.map fst]. distinct_keys. }
  repeat (apply Forall_cons; split); cbn [snd]; try done.
  - apply everyObject_object; [cbn [List.map fst]; distinct_keys|].
    repeat (apply Forall_cons; split); cbn [snd]; done.
  - destruct (rule res); [|done]. apply everyObject_object; [cbn [List.map fst]; distinct_keys|].
    repeat (apply Forall_cons; split); cbn [snd]; done.
  - by apply everyObject_map.
  - destruct (res_derivations res) as [ds|]; [|done]. apply everyObject_map. intros d.
    apply everyObject_object; [cbn [List.map fst]; distinct_keys|].
    repeat (apply Forall_cons; split); cbn [snd]; try done.
    + by destruct (dvalue d).
    + destruct (from d) as [cs|]; [|done]. apply everyObject_map. intros c.
      apply everyObject_object; [cbn [List.map fst]; distinct_keys|].
      repeat (apply Forall_cons; split); cbn [snd]; done.
Qed.

(** The serialized trace record is the canonical form of the record. *)
Lemma traceId_canonical (now : string) (res : DecisionResult) :
  exists t str,
    Canon (tracePayload now res) t /\ everyObject lexicographic t /\
    stringify t = Some str /\ traceId now res = Ok ("SSE-" +:+ simpleHash str).
Proof.
  destruct (traceId_tagged now res) as (obj & h & next & t & str & Ha & Ht & Hlex & Hstr & Hid).
  destruct (stableTree_canonical _ _ _ _ (tracePayload_wellKeyed now res) Ha) as (t' & Ht' & Hc).
  rewrite Ht in Ht'. inversion Ht'; subst t'. by exists t, str.
Qed.

(** The loop of a visit, told step by step. *)
Lemma visitAll_Visits {A B : Type} (f : A -> gset addr -> option (B * gset addr)) (xs : list A) :
  forall s bs s', visitAll f xs s = Some (bs, s') ->
    Visits (fun x sn b sn' => f x sn = Some (b, sn')) xs s bs s'.
Proof.
  induction xs as [|x xs IH]; intros s bs s' H; cbn [visitAll] in H.
  - inversion H. constructor.
  - destruct (f x s) as [[t s1]|] eqn:E1; [|done].
    destruct (visitAll f xs s1) as [[ts s2]|] eqn:E2; [|done].
    inversion H; subst. econstructor; [exact E1|by apply IH].
Qed.

Lemma Visits_impl {A B : Type} (P Q : A -> gset addr -> B -> gset addr -> Prop) (xs : list A) :
  (forall x s b s', P x s b s' -> Q x s b s') ->
  forall s bs s', Visits P xs s bs s' -> Visits Q xs s bs s'.
Proof. intros HPQ s bs s'. induction 1; econstructor; eauto. Qed.

(** What [recur] does at an array and at an object that it has not seen. *)
Lemma recur_array_visits (h : heap) (n : nat) (a : addr) (s : gset addr) (elems : list jsval)
    (t : tree) (s' : gset addr) :
  a ∉ s -> h !! a = Some (JArray elems) -> recur (S n) h (JRef a) s = Some (t, s') ->
  exists ts, t = TArray ts /\
    Visits (fun e sn r sn' => recur n h e sn = Some (r, sn')) elems ({[a]} ∪ s) ts s'.
Proof.
  intros Ha Hh H. rewrite recur_S in H. destruct (base.decide (a ∈ s)); [done|]. cbv zeta in H.
  rewrite Hh in H.
  destruct (visitAll _ elems _) as [[ts s1]|] eqn:E; [|done]. inversion H; subst.
  exists ts. split; [done|]. by apply visitAll_Visits.
Qed.

Lemma recur_object_visits (h : heap) (n : nat) (a : addr) (s : gset addr)
    (props : list (string * jsval)) (t : tree) (s' : gset addr) :
  a ∉ s -> h !! a = Some (JObject props) -> recur (S n) h (JRef a) s = Some (t, s') ->
  exists ks visited out,
    t = TObject out /\
    Permutation ks (List.map fst props) /\ lexicographic ks /\
    Visits (fun k sn kr sn' =>
              fst kr = k /\
              recur n h (default JUndefined (member k props)) sn = Some (snd kr, sn'))
           ks ({[a]} ∪ s) visited s' /\
    Permutation (List.filter ownMember visited) out /\ engineOrder (List.map fst out).
Proof.
  intros Ha Hh H. rewrite recur_S in H. destruct (base.decide (a ∈ s)); [done|]. cbv zeta in H.
  rewrite Hh in H.
  destruct (visitAll _ (sortedKeys props) _) as [[out s1]|] eqn:E; [|done]. inversion H; subst.
  exists (sortedKeys props), out, (propertyOrder (assigned out)).
  split; [done|]. split; [apply merge_sort_Permutation|].
  split; [apply sortedKeys_lexicographic|]. split; [|split].
  - eapply Visits_impl; [|by apply visitAll_Visits]. cbn beta.
    intros k sn [k' r] sn' Hk.
    destruct (recur n h _ sn) as [[t1 s2]|]; [|done]. by inversion Hk; subst.
  - symmetry. apply propertyOrder_Permutation.
  - apply propertyOrder_keys, assigned_lexicographic.
    rewrite (visitAll_keys _ _ _ _ _ _ _ E). apply sortedKeys_lexicographic.
Qed.

(** C9, as amended: [stableStringify] ends on every heap and serializes the
    tree that [recur] builds, in which every object, at every nesting
    level, lists its array-index keys first, by ascending value, and then
    its other keys in lexicographic order, so that an object with no
    array-index key has its keys in lexicographic order.  A record that is
    written as a literal is serialized into its canonical form: the same
    members (one named [__proto__] apart, which is not written) and
    elements, the keys in that order, the elements in their order.  In any
    heap, an array that was not seen before yields the array
    of the results of its elements, visited in their order, and an object
    that was not seen before yields the results of its members, visited in
    the lexicographic order of their keys and listed in the order above; a
    reference to an object visited before, as every reference that closes
    a cycle is, is replaced by null.  [simpleHash] is the 32-bit FNV-1a
    recurrence over the code units of the text, written as exactly eight
    lowercase hexadecimal digits; and the trace identifier is the tag
    [SSE-] followed by the fingerprint of the text of the canonical form of
    the trace record, in which no key is an array index, so that its keys
    are in lexicographic order at every level. *)
Theorem trace_fingerprint (h : heap) (x : jsval) :
  (exists t, stableTree h x = Some t /\ stableStringify h x = stringify t /\
             everyObject engineOrder t /\
             everyObject (fun ks => Forall (fun k => is_index k = false) ks -> lexicographic ks) t) /\
  (forall record obj h' next,
     wellKeyed record -> alloc record (∅, 0) = (obj, (h', next)) ->
     exists t, stableTree h' obj = Some t /\ Canon record t) /\
  (forall n a s elems t s',
     a ∉ s -> h !! a = Some (JArray elems) -> recur (S n) h (JRef a) s = Some (t, s') ->
     exists ts, t = TArray ts /\
       Visits (fun e sn r sn' => recur n h e sn = Some (r, sn')) elems ({[a]} ∪ s) ts s') /\
  (forall n a s props t s',
     a ∉ s -> h !! a = Some (JObject props) -> recur (S n) h (JRef a) s = Some (t, s') ->
     exists ks visited out,
       t = TObject out /\
       Permutation ks (List.map fst props) /\ lexicographic ks /\
       Visits (fun k sn kr sn' =>
                 fst kr = k /\
                 recur n h (default JUndefined (member k props)) sn = Some (snd kr, sn'))
              ks ({[a]} ∪ s) visited s' /\
       Permutation (List.filter ownMember visited) out /\ engineOrder (List.map fst out)) /\
  (forall ts, stringify (TArray ts) =
     Some ("[" +:+ join (List.map (fun e => default "null" (stringify e)) ts) +:+ "]")) /\
  (forall n a s, a ∈ s -> recur (S n) h (JRef a) s = Some (TNull, s)) /\
  (forall str,
     simpleHash str = padStart8 (toHex (fnv1a 2166136261 str)) /\
     String.length (simpleHash str) = 8 /\
     allChars is_lower_hex (simpleHash str) = true /\
     hexValue 0 (simpleHash str) = fnv1a 2166136261 str) /\
  (forall now res, exists t str,
     Canon (tracePayload now res) t /\ everyObject lexicographic t /\
     stringify t = Some str /\
     traceId now res = Ok ("SSE-" +:+ simpleHash str)).
Proof.
  split; [|split; [|split; [|split; [|split; [|split; [|split]]]]]].
  - destruct (stableTree_total h x) as [t Ht]. exists t. split; [done|].
    split; [unfold stableStringify; by rewrite Ht|].
    unfold stableTree in Ht.
    destruct (recur (S (size h)) h x ∅) as [[t' s']|] eqn:E; [|done]. inversion Ht; subst t'.
    split; eapply recur_everyObject; try exact E; [done|].
    intros ks Hks Hno. by apply engineOrder_lexicographic.
  - intros record obj h' next. apply stableTree_canonical.
  - intros n a s elems t s'. apply recur_array_visits.
  - intros n a s props t s'. apply recur_object_visits.
  - reflexivity.
  - intros n a s. apply recur_seen.
  - intros str. rewrite simpleHash_fnv1a.
    destruct (padStart8_toHex (fnv1a 2166136261 str)) as (Hlen & Hhex & Hval).
    { apply fnv1a_range. lia. }
    by repeat split.
  - apply traceId_canonical.
Qed.

(** ** The pipeline *)

(** A run of the handler in a session that holds the ruleset computes what
    [evaluate] computes from the input and the ruleset, and leaves the
    ruleset in its cell. *)
Lemma onClick_evaluate (ruleset : addr) (loaded : Ruleset) (now input : string) (s : Store) :
  Loaded ruleset loaded s ->
  exists s', onClick ruleset now input s = (evaluate now input loaded, s') /\
             Loaded ruleset loaded s'.
Proof.
  intros [Hcell Hfree]. unfold onClick, evaluate.
  unfold mbind at 1. unfold run_bind at 1. unfold rulesetAt. rewrite Hcell.
  unfold mbind at 1. unfold run_bind at 1. unfold pure at 1.
  destruct (parseSSELangOrLegacy input loaded) as [m|e]; cbn [mbind result_bind].
  2:{ exists s. by split. }
  unfold mbind at 1. unfold run_bind at 1. unfold create at 1.
  unfold mbind at 1. unfold run_bind at 1.
  unfold deriveInputAt, decideAt, mapAt, resultAt, assign, create, pure.
  unfold mbind, run_bind, mret, run_ret. cbn [cells free fst snd].
  rewrite (lookup_insert_eq (cells s)). cbn [cells free fst snd].
  rewrite lookup_insert_eq.
  destruct (decide loaded (fst (deriveInput m loaded))) as [r|e]; cbn [result_bind].
  2:{ eexists. split; [reflexivity|]. split; cbn [cells free]; [|lia].
      rewrite !lookup_insert_ne by lia. done. }
  cbn [cells free fst snd]. rewrite lookup_insert_eq. cbn [cells free fst snd].
  rewrite lookup_insert_eq.
  match goal with |- context [traceId now ?r] => destruct (traceId now r) as [id|e] end;
    cbn [result_bind].
  - eexists. split; [reflexivity|]. split; cbn [cells free]; [|lia].
    rewrite !lookup_insert_ne by lia. done.
  - eexists. split; [reflexivity|]. split; cbn [cells free]; [|lia].
    rewrite !lookup_insert_ne by lia. done.
Qed.

(** At two instants, [evaluate] differs in the trace identifier at most. *)
Lemma evaluate_instants (now1 now2 input : string) (ruleset : Ruleset) :
  match evaluate now1 input ruleset, evaluate now2 input ruleset with
  | Ok (r1, _), Ok (r2, _) => r1 = r2
  | Throw e1, Throw e2 => e1 = e2
  | _, _ => False
  end.
Proof.
  unfold evaluate.
  destruct (parseSSELangOrLegacy input ruleset) as [map|e]; cbn [mbind result_bind]; [|done].
  destruct (decide ruleset (fst (deriveInput map ruleset))) as [r|e];
    cbn [mbind result_bind]; [|done].
  match goal with |- context [traceId now1 ?r] =>
    destruct (traceId_tagged now1 r) as (? & ? & ? & ? & ? & _ & _ & _ & _ & ->);
    destruct (traceId_tagged now2 r) as (? & ? & ? & ? & ? & _ & _ & _ & _ & ->) end.
  cbn [mbind result_bind]. done.
Qed.

(** What [evaluate] returns is the decision of [decide] on the map that
    [deriveInput] returns for the map that the reader returns, with the
    derivations, and the trace identifier of that. *)
Lemma evaluate_stages (now input : string) (ruleset : Ruleset) (r : DecisionResult)
    (id : string) :
  evaluate now input ruleset = Ok (r, id) ->
  exists map r0,
    parseSSELangOrLegacy input ruleset = Ok map /\
    decide ruleset (fst (deriveInput map ruleset)) = Ok r0 /\
    verdict r = verdict r0 /\ res_judgement r = res_judgement r0 /\ rule r = rule r0 /\
    triggered r = triggered r0 /\ triggeredHard r = triggeredHard r0 /\
    triggeredSoft r = triggeredSoft r0 /\
    res_derivations r = Some (snd (deriveInput map ruleset)) /\
    traceId now r = Ok id.
Proof.
  unfold evaluate.
  destruct (parseSSELangOrLegacy input ruleset) as [map|e] eqn:Ep; cbn [mbind result_bind];
    [|done].
  destruct (decide ruleset (fst (deriveInput map ruleset))) as [r0|e] eqn:Ed;
    cbn [mbind result_bind]; [|done].
  match goal with |- context [traceId now ?r] => destruct (traceId now r) as [id'|e] eqn:E end;
    cbn [mbind result_bind]; [|done].
  intros H. inversion H; subst. exists map, r0. cbn [verdict res_judgement rule triggered
    triggeredHard triggeredSoft res_derivations]. by repeat split.
Qed.

(** C8: two runs of the handler on the same input, at any two instants and
    in any two states of a session that holds the same ruleset (whatever
    the earlier runs have left there), either fail both with the same
    error, or give both the same decision: verdict, judgement, primary
    rule, triggered rules with their hard and soft parts, and derivations.
    Each run leaves the ruleset in its cell, so that the second run may
    start where the first one ended.  What a run returns is the decision
    of [decide] on the map that [deriveInput] returns for the map that the
    reader returns for the input, with the derivations; only the trace
    identifier depends on the instant. *)
Theorem onClick_deterministic (ruleset : addr) (loaded : Ruleset) (now1 now2 input : string)
    (s1 s2 : Store) :
  Loaded ruleset loaded s1 -> Loaded ruleset loaded s2 ->
  Loaded ruleset loaded (snd (onClick ruleset now1 input s1)) /\
  Loaded ruleset loaded (snd (onClick ruleset now2 input s2)) /\
  match fst (onClick ruleset now1 input s1), fst (onClick ruleset now2 input s2) with
  | Ok (r1, _), Ok (r2, _) =>
      r1 = r2 /\ verdict r1 = verdict r2 /\ res_judgement r1 = res_judgement r2 /\
      triggered r1 = triggered r2 /\ triggeredHard r1 = triggeredHard r2 /\
      triggeredSoft r1 = triggeredSoft r2 /\ res_derivations r1 = res_derivations r2
  | Throw e1, Throw e2 => e1 = e2
  | _, _ => False
  end /\
  (forall r id, fst (onClick ruleset now1 input s1) = Ok (r, id) ->
     exists map r0,
       parseSSELangOrLegacy input loaded = Ok map /\
       decide loaded (fst (deriveInput map loaded)) = Ok r0 /\
       verdict r = verdict r0 /\ res_judgement r = res_judgement r0 /\ rule r = rule r0 /\
       triggered r = triggered r0 /\ triggeredHard r = triggeredHard r0 /\
       triggeredSoft r = triggeredSoft r0 /\
       res_derivations r = Some (snd (deriveInput map loaded)) /\
       traceId now1 r = Ok id).
Proof.
  intros H1 H2.
  destruct (onClick_evaluate ruleset loaded now1 input s1 H1) as (s1' & -> & H1').
  destruct (onClick_evaluate ruleset loaded now2 input s2 H2) as (s2' & -> & H2').
  cbn [fst snd]. split; [exact H1'|]. split; [exact H2'|]. split.
  - pose proof (evaluate_instants now1 now2 input loaded) as H.
    destruct (evaluate now1 input loaded) as [[r1 id1]|e1],
             (evaluate now2 input loaded) as [[r2 id2]|e2]; try done.
    subst r2. by repeat split.
  - intros r id. apply evaluate_stages.
Qed.

End Proofs.

(** * Further properties of the checker *)

Section Extras.
Context {JN : JSNumber}.

(** ** The alias table *)

Lemma alias_inserts_lookup (c k : string) (als : list string) :
  forall acc : gmap string string,
    fold_left (fun acc a => <[toLowerCase a := c]> acc) als acc !! k =
    if existsb (fun a => String.eqb (toLowerCase a) k) als then Some c else acc !! k.
Proof.
  induction als as [|a als IH]; intros acc; cbn [fold_left existsb]; [done|].
  rewrite IH. destruct (existsb _ als); [by rewrite orb_true_r|]. rewrite orb_false_r.
  destruct (String.eqb_spec (toLowerCase a) k) as [->|Hne].
  - by rewrite lookup_insert_eq.
  - by rewrite lookup_insert_ne.
Qed.

Lemma aliasEntry_lookup (acc : gmap string string) (e : string * option (list string))
    (k : string) :
  aliasEntry acc e !! k = if declares k e then Some (fst e) else acc !! k.
Proof.
  unfold aliasEntry, declares. rewrite alias_inserts_lookup.
  destruct (existsb _ _); [by rewrite orb_true_r|]. rewrite orb_false_r.
  destruct (String.eqb_spec (toLowerCase (fst e)) k) as [->|Hne].
  - by rewrite lookup_insert_eq.
  - by rewrite lookup_insert_ne.
Qed.

Lemma find_append {A : Type} (f : A -> bool) (l1 l2 : list A) :
  List.find f (l1 ++ l2) =
  match List.find f l1 with Some x => Some x | None => List.find f l2 end.
Proof. induction l1 as [|x l1 IH]; [done|]. cbn [app List.find]. by destruct (f x). Qed.

Lemma alias_fold_lookup (k : string) (entries : list (string * option (list string))) :
  forall acc : gmap string string,
    fold_left aliasEntry entries acc !! k =
    match List.find (declares k) (rev entries) with
    | Some e => Some (fst e)
    | None => acc !! k
    end.
Proof.
  induction entries as [|e entries IH]; intros acc; cbn [fold_left rev]; [done|].
  rewrite IH, find_append. destruct (List.find (declares k) (rev entries)); [done|].
  cbn [List.find]. rewrite aliasEntry_lookup. by destruct (declares k e).
Qed.

(** X2: the canonical name of a key is the name of the last entry of the alias
    table that declares the key, case apart, as its name or among its
    synonyms.  A key that no entry declares is left as it is, and so is a
    key whose entry has the empty name. *)
Theorem canonKey_last_declaration (ruleset : Ruleset) (key : string) :
  canonKey ruleset key =
    match lastDeclaration ruleset (toLowerCase key) with
    | Some e => if is_empty (fst e) then key else fst e
    | None => key
    end.
Proof.
  unfold canonKey, aliasToCanonical, lastDeclaration. rewrite alias_fold_lookup.
  destruct (List.find _ _); [done|]. by rewrite lookup_empty.
Qed.

(** ** Blank input *)

Lemma trim_blank (s : string) : allChars is_space s = true -> trim s = "".
Proof.
  intros H. unfold trim. assert (trimStart s = "") as ->; [|done].
  induction s as [|c s IH]; [done|]. cbn [allChars] in H.
  apply andb_true_iff in H as [Hc Hs]. cbn [trimStart]. rewrite Hc. by apply IH.
Qed.

Lemma splitLines_blank (s : string) :
  allChars is_space s = true -> Forall (fun l => allChars is_space l = true) (splitLines s).
Proof.
  assert (Hpre : forall c ls, is_space c = true ->
            Forall (fun l => allChars is_space l = true) ls ->
            Forall (fun l => allChars is_space l = true) (prepend c ls)).
  { intros c [|l ls] Hc Hls; cbn [prepend].
    - constructor; [|done]. cbn [allChars]. by rewrite Hc.
    - inversion Hls; subst. constructor; [|done]. cbn [allChars]. by rewrite Hc. }
  induction s as [|c s IH]; intros H; [by constructor|].
  cbn [allChars] in H. apply andb_true_iff in H as [Hc Hs]. specialize (IH Hs).
  cbn [splitLines]. destruct (code c =? 10)%nat; [by constructor|].
  destruct s as [|d s]; [by apply Hpre|].
  destruct ((code c =? 13)%nat && (code d =? 10)%nat) eqn:E; [|by apply Hpre].
  apply andb_true_iff in E as [_ Ed]. constructor; [done|]. cbn [splitLines] in IH.
  rewrite Ed in IH. by inversion IH.
Qed.

Lemma lines_blank (text : string) : allChars is_space text = true -> lines text = [].
Proof.
  intros H. apply splitLines_blank in H. unfold lines.
  induction H as [|l ls Hl _ IH]; [done|]. cbn [List.map List.filter].
  by rewrite (trim_blank l Hl).
Qed.

(** X3: a text of white space only, the empty text among them, is read as the
    empty field map: it selects the legacy dialect, which finds no line in
    it, and nothing is thrown. *)
Theorem parseSSELangOrLegacy_blank (text : string) (ruleset : Ruleset) :
  allChars is_space text = true ->
  isLikelySSELang text = false /\ parseSSELangOrLegacy text ruleset = Ok [].
Proof.
  intros H. assert (isLikelySSELang text = false) as Hd.
  { unfold isLikelySSELang. by rewrite (trim_blank text H). }
  split; [exact Hd|]. unfold parseSSELangOrLegacy. rewrite Hd.
  unfold parseKeyValueLines. by rewrite (lines_blank text H).
Qed.

(** ** The legacy reader *)

Lemma star_loop_sound (p : ascii -> bool)
    (k : option ascii -> string -> captures -> option captures) (caps : captures) (s : string) :
  forall prev res, star_loop p prev s caps k = Some res ->
    exists u v, s = u +:+ v /\ allChars p u = true /\ k (lastChar prev u) v caps = Some res.
Proof.
  induction s as [|c s IH]; intros prev res; cbn [star_loop].
  - intros H. by exists "", "".
  - destruct (p c) eqn:Hp; [|intros H; by exists "", (String c s)].
    destruct (star_loop p (Some c) s caps k) as [r|] eqn:E.
    + intros [= <-]. apply IH in E as (u & v & -> & Hu & Hk).
      exists (String c u), v. rewrite sapp_cons. cbn [allChars lastChar]. by rewrite Hp, Hu.
    + intros H. by exists "", (String c s).
Qed.

Lemma consumed_app (u v : string) : consumed (u +:+ v) v = u.
Proof.
  unfold consumed. rewrite slength_app.
  replace (String.length u + String.length v - String.length v) with (String.length u) by lia.
  induction u as [|c u IH]; [by destruct v|]. rewrite sapp_cons. cbn [String.length substring].
  by rewrite IH.
Qed.

Lemma exec_from_bol (r : regex) (s : string) :
  forall c, exec_from (RSeq RBol r) (Some c) s = None.
Proof. induction s as [|d s IH]; intros c; cbn [exec_from rmatch]; [done|apply IH]. Qed.

Lemma re_line_captures (line : string) (m : captures) :
  regex_exec re_line line = Some m ->
  exists g1 w1 sep w2 g2,
    line = g1 +:+ w1 +:+ String sep (w2 +:+ g2) /\
    g1 <> "" /\ allChars not_sep g1 = true /\ allChars is_space w1 = true /\
    is_sep sep = true /\ allChars is_space w2 = true /\ g2 <> "" /\
    allChars is_dot_any g2 = true /\
    capture 1 m = g1 /\ capture 2 m = g2.
Proof.
  unfold regex_exec. intros H.
  assert (rmatch re_line None line [] (fun _ _ caps => Some caps) = Some m) as Hm.
  { destruct line as [|c s]; cbn [exec_from] in H.
    - by destruct (rmatch re_line None "" [] _).
    - destruct (rmatch re_line None (String c s) [] _); [done|].
      unfold re_line in H. by rewrite exec_from_bol in H. }
  clear H. unfold re_line, RPlus in Hm. cbn [rmatch] in Hm.
  destruct line as [|c s]; [done|]. destruct (not_sep c) eqn:Hc; [|done].
  apply star_loop_sound in Hm as (u & v & -> & Hu & Hm).
  apply star_loop_sound in Hm as (w1 & v2 & -> & Hw1 & Hm).
  destruct v2 as [|sep v3]; [done|]. destruct (is_sep sep) eqn:Hsep; [|done].
  apply star_loop_sound in Hm as (w2 & v4 & -> & Hw2 & Hm).
  destruct v4 as [|d v5]; [done|]. destruct (is_dot_any d) eqn:Hd; [|done].
  apply star_loop_sound in Hm as (g & v6 & -> & Hg & Hm).
  destruct v6 as [|]; [|done]. injection Hm as <-.
  exists (String c u), w1, sep, w2, (String d g).
  rewrite sapp_nil_r. repeat split; try done.
  all: cbn [allChars capture Nat.eqb]; rewrite ?Hc, ?Hu, ?Hd, ?Hg; try done.
  - rewrite <- sapp_cons. apply consumed_app.
  - pose proof (consumed_app (String d g) "") as H. by rewrite sapp_nil_r in H.
Qed.

Lemma space_not_sep (c : ascii) : is_space c = true -> not_sep c = true.
Proof. destruct c as [[] [] [] [] [] [] [] []]; vm_compute; congruence. Qed.

Lemma trimStart_spaces_l (w s : string) :
  allChars is_space w = true -> trimStart (w +:+ s) = trimStart s.
Proof.
  induction w as [|c w IH]; [done|]. cbn [allChars]. intros [Hc Hw]%andb_true_iff.
  rewrite sapp_cons. cbn [trimStart]. rewrite Hc. by apply IH.
Qed.

Lemma trimEnd_blank (w : string) : allChars is_space w = true -> trimEnd w = "".
Proof.
  induction w as [|c w IH]; [done|]. cbn [allChars]. intros [Hc Hw]%andb_true_iff.
  cbn [trimEnd]. by rewrite (IH Hw), Hc.
Qed.

Lemma trimEnd_spaces_r (s w : string) :
  allChars is_space w = true -> trimEnd (s +:+ w) = trimEnd s.
Proof.
  intros Hw. induction s as [|c s IH]; [rewrite sapp_nil_l; by apply trimEnd_blank|].
  rewrite sapp_cons. cbn [trimEnd]. by rewrite IH.
Qed.

Lemma trimStart_blank (w : string) : allChars is_space w = true -> trimStart w = "".
Proof.
  induction w as [|c w IH]; [done|]. cbn [allChars]. intros [Hc Hw]%andb_true_iff.
  cbn [trimStart]. by rewrite Hc, IH.
Qed.

Lemma trim_spaces_l (w s : string) : allChars is_space w = true -> trim (w +:+ s) = trim s.
Proof. intros Hw. unfold trim. by rewrite trimStart_spaces_l. Qed.

Lemma trim_spaces_r (s w : string) : allChars is_space w = true -> trim (s +:+ w) = trim s.
Proof.
  intros Hw. unfold trim. induction s as [|c s IH].
  - rewrite sapp_nil_l. by rewrite (trimStart_blank w Hw).
  - rewrite sapp_cons. cbn [trimStart]. destruct (is_space c); [exact IH|].
    rewrite <- sapp_cons. by apply trimEnd_spaces_r.
Qed.

Lemma first_separator_unique (k k' : string) (sep sep' : ascii) (v v' : string) :
  allChars not_sep k = true -> allChars not_sep k' = true ->
  is_sep sep = true -> is_sep sep' = true ->
  k +:+ String sep v = k' +:+ String sep' v' -> k = k' /\ sep = sep' /\ v = v'.
Proof.
  intros Hk Hk' Hs Hs'. revert k' Hk'. induction k as [|c k IH]; intros [|c' k'] Hk' H.
  - rewrite !sapp_nil_l in H. by injection H as -> ->.
  - rewrite sapp_nil_l, sapp_cons in H. injection H as <- _. cbn [allChars] in Hk'.
    unfold not_sep at 1 in Hk'. by rewrite Hs in Hk'.
  - rewrite sapp_nil_l, sapp_cons in H. injection H as -> _. cbn [allChars] in Hk.
    unfold not_sep at 1 in Hk. by rewrite Hs' in Hk.
  - rewrite !sapp_cons in H. injection H as <- H. cbn [allChars] in Hk, Hk'.
    apply andb_true_iff in Hk as [_ Hk]. apply andb_true_iff in Hk' as [_ Hk'].
    destruct (IH Hk k' Hk' H) as (-> & -> & ->). done.
Qed.

Lemma spaces_not_sep (w : string) : allChars is_space w = true -> allChars not_sep w = true.
Proof.
  induction w as [|c w IH]; [done|]. cbn [allChars]. intros [Hc Hw]%andb_true_iff.
  by rewrite (space_not_sep c Hc), IH.
Qed.

Lemma re_line_shape (line : string) :
  is_Some (regex_exec re_line line) <-> LegacyShape line.
Proof.
  split.
  - intros [m E]. apply re_line_captures in E
      as (g1 & w1 & sep & w2 & g2 & -> & Hg1 & Hn1 & Hw1 & Hsep & Hw2 & Hg2 & Hd & _).
    exists (g1 +:+ w1), sep, w2, g2. repeat split; try done.
    + by rewrite sapp_assoc.
    + intros [? _]%sapp_eq_nil. done.
    + by rewrite allChars_app, Hn1, (spaces_not_sep w1 Hw1).
  - intros (k & sep & w & g & -> & Hk & Hn & Hsep & Hw & Hg & Hd).
    unfold regex_exec. apply exec_from_spec.
    exists "", (k +:+ String sep (w +:+ g)), "". split; [by rewrite sapp_nil_l, sapp_nil_r|].
    cbn [lastChar]. unfold re_line, RPlus. cbn [Matches].
    destruct k as [|c k]; [done|]. destruct g as [|d g]; [done|].
    cbn [allChars] in Hn, Hd. apply andb_true_iff in Hn as [Hc Hn].
    apply andb_true_iff in Hd as [Hd Hd'].
    exists "", (String c k +:+ String sep (w +:+ String d g)). split; [done|]. split; [done|].
    exists (String c k), (String sep (w +:+ String d g)). split; [done|]. split.
    { exists (String c ""), k. split; [done|]. split; [by exists c|done]. }
    exists "", (String sep (w +:+ String d g)). split; [done|]. split; [done|].
    exists (String sep ""), (w +:+ String d g). split; [done|]. split; [by exists sep|].
    exists w, (String d g). split; [done|]. split; [done|].
    exists (String d g), "". split; [by rewrite sapp_nil_r|]. split; [|done].
    exists (String d ""), g. split; [done|]. split; [by exists d|done].
Qed.

(** X4: how the legacy reader reads a line.  It reads the line when a text
    that is not empty stands before the first separator, and after that
    separator and the white space that follows it a text that is not empty
    and has no line break; otherwise it leaves the map as it is.  From a
    line it reads, it assigns to the canonical name of the trimmed text
    before the first separator the value of the trimmed text after it,
    backticks removed. *)
Theorem legacyLine_reads (ruleset : Ruleset) (map : FieldMap) (line : string) :
  (is_Some (regex_exec re_line line) <-> LegacyShape line) /\
  (~ LegacyShape line -> legacyLine ruleset map line = map) /\
  (forall k sep v,
     LegacyShape line ->
     line = k +:+ String sep v -> allChars not_sep k = true -> is_sep sep = true ->
     legacyLine ruleset map line =
       map_set (canonKey ruleset (trim k)) (legacyValue (stripBackticks (trim v))) map).
Proof.
  split; [apply re_line_shape|]. split.
  - intros Hno. unfold legacyLine. destruct (regex_exec re_line line) as [m|] eqn:E; [|done].
    exfalso. apply Hno, re_line_shape. by rewrite E.
  - intros k sep v Hshape Hline Hk Hsep. apply re_line_shape in Hshape as [m E].
    unfold legacyLine. rewrite E. apply re_line_captures in E
      as (g1 & w1 & sep' & w2 & g2 & Hl & Hg1 & Hn1 & Hw1 & Hsep' & Hw2 & Hg2 & _ & -> & ->).
    rewrite Hline, <- sapp_assoc in Hl.
    apply first_separator_unique in Hl as (-> & -> & ->); try done.
    2:{ by rewrite allChars_app, Hn1, (spaces_not_sep w1 Hw1). }
    unfold normalizeKey. by rewrite trim_spaces_r, trim_spaces_l.
Qed.

(** ** Normalized values *)

Lemma lower_ascii_backtick (c : ascii) : is_char "`" (lower_ascii c) = is_char "`" c.
Proof. destruct c as [[] [] [] [] [] [] [] []]; reflexivity. Qed.

Lemma code_backtick (c : ascii) : (code c =? 96)%nat = is_char "`" c.
Proof. destruct c as [[] [] [] [] [] [] [] []]; reflexivity. Qed.

Lemma toLowerCase_strip (s : string) :
  toLowerCase (stripBackticks s) = stripBackticks (toLowerCase s).
Proof.
  induction s as [|c s IH]; [done|]. cbn [toLowerCase stripBackticks].
  rewrite !code_backtick, lower_ascii_backtick.
  destruct (is_char "`" c); [done|]. cbn [toLowerCase]. by rewrite IH.
Qed.

Lemma strip_no_backtick (s : string) :
  allChars (fun c => negb (is_char "`" c)) (stripBackticks s) = true.
Proof.
  induction s as [|c s IH]; [done|]. cbn [stripBackticks]. rewrite code_backtick.
  destruct (is_char "`" c) eqn:E; [done|]. cbn [allChars]. by rewrite E, IH.
Qed.

Lemma normalText_strip_lower (s : string) : normalText (stripBackticks (toLowerCase s)).
Proof.
  split; [|apply strip_no_backtick]. by rewrite toLowerCase_strip, toLowerCase_idem.
Qed.

Lemma normalText_lower_strip (s : string) : normalText (toLowerCase (stripBackticks s)).
Proof. rewrite toLowerCase_strip. apply normalText_strip_lower. Qed.

Lemma Forall_map_set (P : value -> Prop) (k : string) (v : value) (m : FieldMap) :
  Forall (fun kv => P (snd kv)) m -> P v -> Forall (fun kv => P (snd kv)) (map_set k v m).
Proof.
  intros Hm Hv. induction Hm as [|[k' v'] m Hkv Hm IH]; cbn [map_set].
  - by repeat constructor.
  - destruct (String.eqb k' k); constructor; done.
Qed.

Lemma map_set_keys (k : string) (v : value) (m : FieldMap) (x : string) :
  In x (List.map fst (map_set k v m)) -> x = k \/ In x (List.map fst m).
Proof.
  induction m as [|[k' v'] m IH]; cbn [map_set List.map fst In].
  - intros [<-|[]]. by left.
  - destruct (String.eqb_spec k' k) as [->|Hne]; cbn [List.map fst In].
    + intros [<-|H]; [by left|right; by right].
    + intros [<-|H]; [right; by left|]. destruct (IH H) as [->|?]; [by left|right; by right].
Qed.

Lemma NoDup_map_set (k : string) (v : value) (m : FieldMap) :
  List.NoDup (List.map fst m) -> List.NoDup (List.map fst (map_set k v m)).
Proof.
  induction m as [|[k' v'] m IH]; cbn [map_set List.map fst]; intros H.
  - constructor; [by intros []|constructor].
  - apply List.NoDup_cons_iff in H as [Hk' Hm].
    destruct (String.eqb_spec k' k) as [->|Hne]; cbn [List.map fst].
    + by constructor.
    + constructor; [|by apply IH]. intros Hin. apply map_set_keys in Hin as [->|Hin]; done.
Qed.

Lemma Assigned_normal (m : FieldMap) : Assigned m -> Forall (fun kv => normalValue (snd kv)) m.
Proof. induction 1; [by constructor|by apply Forall_map_set]. Qed.

Lemma Assigned_NoDup (m : FieldMap) : Assigned m -> List.NoDup (List.map fst m).
Proof. induction 1; [constructor|by apply NoDup_map_set]. Qed.

Lemma legacyLine_assigned (ruleset : Ruleset) (map : FieldMap) (line : string) :
  Assigned map -> Assigned (legacyLine ruleset map line).
Proof.
  intros Hm. unfold legacyLine. destruct (regex_exec re_line line) as [m|]; [|done].
  constructor; [|done]. unfold legacyValue.
  destruct (regex_test re_number _); [done|]. apply normalText_lower_strip.
Qed.

Lemma parseValue_kind (toks : list Token) (v : value) (rest : list Token) :
  parseValue toks = Ok (v, rest) -> match v with VNum _ | VStr _ => True | _ => False end.
Proof.
  unfold parseValue. destruct toks as [|t toks]; [done|].
  destruct (type t); try done.
  - intros [= <- _]. done.
  - intros [= <- _]. done.
  - destruct (num_is_nan _); [done|]. intros [= <- _]. done.
  - destruct (parseEnumPath _ _) as [[parts rest']|e]; cbn [mbind result_bind]; [|done].
    intros [= <- _]. done.
Qed.

Lemma parseStatement_assigned (ruleset : Ruleset) (st st' : ParseState) (t : Token)
    (toks toks' : list Token) :
  Assigned (pmap st) ->
  parseStatement ruleset st t toks = Ok (st', toks') ->
  Assigned (pmap st').
Proof.
  intros Hst. unfold parseStatement.
  assert (Hq : parseQuery st toks = Ok (st', toks') -> Assigned (pmap st')).
  { unfold parseQuery. destruct toks as [|q rest]; [done|].
    destruct (negb _ && negb _); [done|].
    destruct (expect SEMI rest) as [[? rest']|e]; cbn [mbind result_bind]; [|done].
    intros [= <- _]. exact Hst. }
  destruct (type t); try done. unfold parseAssign.
  destruct (expect IDENT toks) as [[keyTok rest]|e]; cbn [mbind result_bind]; [|done].
  destruct rest as [|opTok rest1]; [done|].
  destruct (negb _ && negb _); [done|].
  destruct (parseValue rest1) as [[val rest2]|e] eqn:Ev; cbn [mbind result_bind]; [|done].
  destruct (expect SEMI rest2) as [[? rest3]|e]; cbn [mbind result_bind]; [|done].
  intros [= <- _]. cbn [pmap]. constructor; [|done].
  apply parseValue_kind in Ev. destruct val; try done. apply normalText_strip_lower.
Qed.

Lemma parseLoop_assigned (ruleset : Ruleset) (toks : list Token) :
  forall skip st st',
    Assigned (pmap st) -> parseLoop ruleset toks skip st = Ok st' -> Assigned (pmap st').
Proof.
  induction toks as [|t rest IH]; intros skip st st' Hst; [done|]. cbn [parseLoop].
  destruct skip as [|k]; [|by apply IH].
  destruct (tokType_eqb (type t) EOF); [by intros [= <-]|].
  destruct (parseStatement ruleset st t (t :: rest)) as [[st1 toks1]|e] eqn:E; [|done].
  apply IH. by eapply parseStatement_assigned.
Qed.

Lemma parseSSELangOrLegacy_assigned (text : string) (ruleset : Ruleset) (map : FieldMap) :
  parseSSELangOrLegacy text ruleset = Ok map -> Assigned map.
Proof.
  unfold parseSSELangOrLegacy. destruct (isLikelySSELang text).
  - unfold parseSSELangProgram.
    destruct (tokenizeSSE text) as [toks|e]; cbn [mbind result_bind]; [|done].
    destruct (parseLoop _ _ _ _) as [st|e] eqn:E; cbn [mbind result_bind]; [|done].
    intros [= <-]. eapply parseLoop_assigned; [|exact E]. constructor.
  - intros [= <-]. unfold parseKeyValueLines.
    assert (forall ls m, Assigned m -> Assigned (fold_left (legacyLine ruleset) ls m)) as H.
    { induction ls as [|l ls IH]; intros m Hm; [done|]. cbn [fold_left].
      apply IH. by apply legacyLine_assigned. }
    apply H. constructor.
Qed.

(** X5: every value of a field map read from a text, in either dialect, is
    normalized: a number, or a text in lower case without a backtick. *)
Theorem parseSSELangOrLegacy_normalized (text : string) (ruleset : Ruleset) (map : FieldMap) :
  parseSSELangOrLegacy text ruleset = Ok map ->
  Forall (fun kv => normalValue (snd kv)) map.
Proof. intros H. by apply Assigned_normal, (parseSSELangOrLegacy_assigned text ruleset). Qed.

(** No field occurs twice in a field map read from a text, nor in the map
    after derivation. *)
Lemma fieldMap_keys_unique (text : string) (ruleset : Ruleset) (map : FieldMap) :
  parseSSELangOrLegacy text ruleset = Ok map ->
  List.NoDup (List.map fst map) /\
  List.NoDup (List.map fst (fst (deriveInput map ruleset))).
Proof.
  intros H. apply parseSSELangOrLegacy_assigned, Assigned_NoDup in H. split; [exact H|].
  rewrite deriveInput_closed. destruct (ratingFields map); [exact H|].
  cbn [fst]. by apply NoDup_map_set.
Qed.

(** ** The tokenizer *)

Lemma startsWith_app (p s : string) : startsWith p (p +:+ s) = true.
Proof.
  induction p as [|c p IH]; [by destruct s|]. rewrite sapp_cons. cbn [startsWith].
  by rewrite Ascii.eqb_refl, IH.
Qed.

Lemma parseFailure_sse (msg : string) :
  parseFailure (ParseError ("SSE-Lang parse error: " +:+ msg)).
Proof. eexists. split; [done|]. left. apply startsWith_app. Qed.

Lemma parseFailure_number (msg : string) :
  parseFailure (ParseError ("Invalid number: " +:+ msg)).
Proof. eexists. split; [done|]. right. apply startsWith_app. Qed.

Lemma substring_length (s : string) :
  forall n m, String.length (substring n m s) <= m.
Proof.
  induction s as [|c s IH]; intros [|n] [|m]; cbn [substring String.length]; try lia.
  - specialize (IH 0 m). lia.
  - apply (IH n 0).
  - apply (IH n (S m)).
Qed.

Lemma drop_length (n : nat) (s : string) : String.length (drop n s) <= String.length s - n.
Proof. apply substring_length. Qed.

Lemma span_length (p : ascii -> bool) (s : string) :
  String.length (span p s) <= String.length s.
Proof.
  induction s as [|c s IH]; [done|]. cbn [span]. destruct (p c); cbn [String.length]; lia.
Qed.

Lemma lexString_bound (k : nat) :
  forall rest s n str m,
    String.length rest <= k -> lexString rest s n = inl (str, m) ->
    n < m <= n + String.length rest.
Proof.
  induction k as [|k IH]; intros rest s n str m Hk; destruct rest as [|c r];
    cbn [lexString String.length] in *; try done; try lia.
  destruct (Ascii.eqb c quote); [intros [= _ <-]; lia|].
  destruct (Ascii.eqb c LF); [done|].
  assert (Hr : lexString r (s +:+ str1 c) (S n) = inl (str, m) ->
               n < m <= n + S (String.length r)).
  { intros H. apply IH in H; lia. }
  destruct (Ascii.eqb c backslash); [|exact Hr].
  destruct r as [|e r']; [exact Hr|].
  destruct (Ascii.eqb e quote || Ascii.eqb e backslash); [|exact Hr].
  cbn [String.length] in *. intros H. apply IH in H; lia.
Qed.

Lemma lexNumber_bound (rest raw : string) :
  lexNumber rest = Some raw -> 1 <= String.length raw <= String.length rest.
Proof.
  unfold lexNumber.
  set (sign := match rest with String c _ => if is_char "-" c then "-" else "" | _ => "" end).
  assert (Hsign : String.length sign <= String.length rest).
  { unfold sign. destruct rest as [|c r]; [done|]. destruct (is_char "-" c); cbn; lia. }
  set (r1 := drop (String.length sign) rest).
  pose proof (drop_length (String.length sign) rest) as Hr1. fold r1 in Hr1.
  set (ds := span isDigit r1). pose proof (span_length isDigit r1) as Hds. fold ds in Hds.
  destruct (is_empty ds) eqn:Hne; [done|].
  assert (1 <= String.length ds) by (destruct ds; [done|cbn; lia]).
  set (r2 := drop (String.length ds) r1).
  pose proof (drop_length (String.length ds) r1) as Hr2. fold r2 in Hr2.
  set (frac := match r2 with String c r3 => _ | _ => _ end).
  assert (Hfrac : String.length frac <= String.length r2).
  { unfold frac. destruct r2 as [|c r3]; [done|].
    destruct (is_char "." c && _); [|cbn; lia].
    rewrite sapp_cons, sapp_nil_l. cbn [String.length].
    pose proof (span_length isDigit r3). lia. }
  intros [= <-]. rewrite !slength_app. lia.
Qed.

Lemma isAlpha_isAlnum (c : ascii) : isAlpha c = true -> isAlnum c = true.
Proof. unfold isAlpha, isAlnum, is_word. by intros ->. Qed.

(** One turn of the tokenizer's loop passes at least one character and
    stays inside the text; the token it pushes stands where the turn
    began, has a value, and is not the end-of-input token. *)
Lemma lexStep_spec (src : string) (c : ascii) (r : string) (i ln cl : nat)
    (tok : option Token) (n ln' cl' : nat) :
  lexStep src c r i ln cl = Ok (tok, n, ln', cl') ->
  1 <= n <= S (String.length r) /\
  forall t, tok = Some t -> type t <> EOF /\ is_Some (tvalue t) /\ index (loc t) = i.
Proof.
  assert (Hmk : forall ty v l, ty <> EOF -> index l = i ->
                  forall t, Some (mkToken ty v l) = Some t ->
                  type t <> EOF /\ is_Some (tvalue t) /\ index (loc t) = i).
  { intros ty v l Hty Hl t [= <-]. cbn. eauto. }
  unfold lexStep.
  destruct (is_char " " c || _ || _); [intros [= <- <- _ _]; split; [lia|done]|].
  destruct (Ascii.eqb c LF); [intros [= <- <- _ _]; split; [lia|done]|].
  destruct (is_char "/" c && startsWith "/" r) eqn:Ec.
  { intros [= <- <- _ _]. split; [|done].
    apply andb_true_iff in Ec as [_ Hr]. destruct r as [|d r]; [done|].
    pose proof (span_length (fun x => negb (Ascii.eqb x LF)) (drop 1 (String d r))).
    pose proof (drop_length 1 (String d r)). cbn [String.length] in *. lia. }
  destruct (is_char ":" c); [intros [= <- <- _ _]; split; [lia|by apply Hmk]|].
  destruct (is_char "=" c); [intros [= <- <- _ _]; split; [lia|by apply Hmk]|].
  destruct (is_char ";" c); [intros [= <- <- _ _]; split; [lia|by apply Hmk]|].
  destruct (is_char "." c); [intros [= <- <- _ _]; split; [lia|by apply Hmk]|].
  destruct (Ascii.eqb c quote).
  { destruct (lexString r "" 0) as [[s m]|m] eqn:Es; [|done].
    intros [= <- <- _ _]. apply (lexString_bound _ _ _ _ _ _ (le_n _)) in Es.
    split; [lia|by apply Hmk]. }
  destruct (is_char "#" c).
  { destruct (startsWith "!" r); [done|]. destruct r as [|d r'].
    - intros [= <- <- _ _]. split; [cbn; lia|by apply Hmk].
    - destruct (isAlnum d); [|done]. intros [= <- <- _ _].
      pose proof (span_length isAlnum (String d r')) as Hs. cbn [span] in Hs.
      split; [lia|by apply Hmk]. }
  destruct (is_char "-" c || isDigit c).
  { destruct (lexNumber (String c r)) as [raw|] eqn:En; [|done].
    intros [= <- <- _ _]. apply lexNumber_bound in En. cbn [String.length] in En.
    split; [lia|by apply Hmk]. }
  destruct (isAlpha c) eqn:Ea; [|done].
  intros [= <- <- _ _]. split.
  - cbn [span]. rewrite (isAlpha_isAlnum c Ea). cbn [String.length].
    pose proof (span_length isAlnum r). lia.
  - repeat case_match; by apply Hmk.
Qed.

Lemma lexStep_error (src : string) (c : ascii) (r : string) (i ln cl : nat) (e : error) :
  lexStep src c r i ln cl = Throw e -> parseFailure e.
Proof.
  unfold lexStep, err. repeat case_match; try done; intros [= <-]; apply parseFailure_sse.
Qed.

Lemma lexLoop_spec (src : string) (rest : string) :
  forall skip i ln cl tokens toks,
    skip <= String.length rest ->
    lexLoop src rest skip i ln cl tokens = Ok toks ->
    exists body eof,
      toks = tokens ++ body ++ [eof] /\
      type eof = EOF /\ tvalue eof = None /\
      index (loc eof) = i + String.length rest - skip /\
      Forall (fun t => type t <> EOF /\ is_Some (tvalue t) /\
                       index (loc t) < i + String.length rest - skip) body.
Proof.
  induction rest as [|c r IH]; intros skip i ln cl tokens toks Hskip; cbn [lexLoop].
  - intros [= <-]. exists [], {| type := EOF; tvalue := None;
                                 loc := {| line := ln; col := cl; index := i |} |}.
    cbn in *. repeat split; [lia|constructor].
  - cbn [String.length] in *. destruct skip as [|k].
    + destruct (lexStep src c r i ln cl) as [[[[tok n] ln'] cl']|e] eqn:Es; [|done].
      apply lexStep_spec in Es as [Hn Htok]. intros H.
      apply IH in H as (body & eof & -> & Heof & Hval & Hidx & Hbody); [|lia].
      destruct tok as [t|].
      * exists (t :: body), eof. rewrite <- app_assoc. cbn [app].
        repeat split; [done|done|lia|].
        destruct (Htok t eq_refl) as (? & ? & ?). constructor; [repeat split; [done|done|lia]|].
        eapply Forall_impl; [exact Hbody|]. intros x (? & ? & ?). repeat split; [done|done|lia].
      * exists body, eof. rewrite app_nil_r.
        repeat split; [done|done|lia|].
        eapply Forall_impl; [exact Hbody|]. intros x (? & ? & ?). repeat split; [done|done|lia].
    + intros H. apply IH in H as (body & eof & -> & Heof & Hval & Hidx & Hbody); [|lia].
      exists body, eof. repeat split; [done|done|lia|].
      eapply Forall_impl; [exact Hbody|]. intros x (? & ? & ?). repeat split; [done|done|lia].
Qed.

Lemma lexLoop_error (src : string) (rest : string) :
  forall skip i ln cl tokens e,
    lexLoop src rest skip i ln cl tokens = Throw e -> parseFailure e.
Proof.
  induction rest as [|c r IH]; intros skip i ln cl tokens e; cbn [lexLoop]; [done|].
  destruct skip as [|k]; [|apply IH].
  destruct (lexStep src c r i ln cl) as [[[[tok n] ln'] cl']|e'] eqn:Es.
  - apply IH.
  - intros [= <-]. by eapply lexStep_error.
Qed.

(** X6: a token array that [tokenizeSSE] returns is a run of tokens followed
    by the one end-of-input token.  That token has no value and stands at
    the length of the text; every token before it has a value, is of
    another type, and stands inside the text. *)
Theorem tokenizeSSE_shape (text : string) (toks : list Token) :
  tokenizeSSE text = Ok toks ->
  exists body eof,
    toks = body ++ [eof] /\
    type eof = EOF /\ tvalue eof = None /\ index (loc eof) = String.length text /\
    Forall (fun t => type t <> EOF /\ is_Some (tvalue t) /\
                     index (loc t) < String.length text) body.
Proof.
  intros H. apply lexLoop_spec in H as (body & eof & -> & Heof & Hval & Hidx & Hbody); [|lia].
  exists body, eof. repeat split; [done|done|lia|].
  eapply Forall_impl; [exact Hbody|]. intros x (? & ? & ?). repeat split; [done|done|lia].
Qed.

Lemma span_all (p : ascii -> bool) (s : string) : allChars p (span p s) = true.
Proof.
  induction s as [|c s IH]; [done|]. cbn [span]. destruct (p c) eqn:E; [|done].
  cbn [allChars]. by rewrite E, IH.
Qed.

Lemma lexString_no_newline (k : nat) :
  forall rest s n str m,
    String.length rest <= k ->
    allChars (fun c => negb (Ascii.eqb c LF)) s = true ->
    lexString rest s n = inl (str, m) ->
    allChars (fun c => negb (Ascii.eqb c LF)) str = true.
Proof.
  induction k as [|k IH]; intros rest s n str m Hk Hs; destruct rest as [|c r];
    cbn [lexString String.length] in *; try done; try lia.
  destruct (Ascii.eqb c quote); [by intros [= <- _]|].
  destruct (Ascii.eqb c LF) eqn:Ec; [done|].
  assert (Hr : lexString r (s +:+ str1 c) (S n) = inl (str, m) ->
               allChars (fun c => negb (Ascii.eqb c LF)) str = true).
  { apply IH; [lia|]. rewrite allChars_app, Hs. cbn [str1 allChars]. by rewrite Ec. }
  destruct (Ascii.eqb c backslash); [|exact Hr].
  destruct r as [|e r']; [exact Hr|].
  destruct (Ascii.eqb e quote || Ascii.eqb e backslash) eqn:Ee; [|exact Hr].
  cbn [String.length] in Hk. apply IH; [lia|]. rewrite allChars_app, Hs. cbn [str1 allChars].
  apply orb_true_iff in Ee as [->%Ascii.eqb_eq | ->%Ascii.eqb_eq]; reflexivity.
Qed.

Lemma lexNumber_numeral (rest raw : string) : lexNumber rest = Some raw -> Numeral raw.
Proof.
  unfold lexNumber.
  set (sign := match rest with String c _ => if is_char "-" c then "-" else "" | _ => "" end).
  set (r1 := drop (String.length sign) rest).
  destruct (is_empty (span isDigit r1)) eqn:Hne; [done|].
  assert (Hsign : sign = "" \/ sign = "-").
  { unfold sign. destruct rest as [|c r]; [by left|]. destruct (is_char "-" c); eauto. }
  assert (Hds : span isDigit r1 <> "") by (by destruct (span isDigit r1)).
  destruct (drop (String.length (span isDigit r1)) r1) as [|c r3].
  { intros [= <-]. exists sign, (span isDigit r1), "".
    repeat split; [done|done|apply span_all|by left]. }
  destruct (is_char "." c && negb (is_empty (span isDigit r3))) eqn:E.
  - intros [= <-]. exists sign, (span isDigit r1), ("." +:+ span isDigit r3).
    repeat split; [done|done|apply span_all|]. right. exists (span isDigit r3).
    apply andb_true_iff in E as [_ E].
    split; [done|]. split; [by destruct (span isDigit r3)|apply span_all].
  - intros [= <-]. exists sign, (span isDigit r1), "".
    repeat split; [done|done|apply span_all|by left].
Qed.

Lemma lexStep_lexeme (src : string) (c : ascii) (r : string) (i ln cl : nat)
    (t : Token) (n ln' cl' : nat) :
  lexStep src c r i ln cl = Ok (Some t, n, ln', cl') -> Lexeme t.
Proof.
  unfold lexStep.
  destruct (is_char " " c || _ || _); [done|].
  destruct (Ascii.eqb c LF); [done|].
  destruct (is_char "/" c && startsWith "/" r); [done|].
  destruct (is_char ":" c); [by intros [= <- _ _ _]|].
  destruct (is_char "=" c); [by intros [= <- _ _ _]|].
  destruct (is_char ";" c); [by intros [= <- _ _ _]|].
  destruct (is_char "." c); [by intros [= <- _ _ _]|].
  destruct (Ascii.eqb c quote).
  { destruct (lexString r "" 0) as [[s m]|m] eqn:Es; [|done]. intros [= <- _ _ _].
    by apply (lexString_no_newline _ _ _ _ _ _ (le_n _)) in Es. }
  destruct (is_char "#" c).
  { destruct (startsWith "!" r); [done|]. destruct r as [|d r'].
    - by intros [= <- _ _ _].
    - destruct (isAlnum d) eqn:Ed; [|done]. intros [= <- _ _ _].
      unfold Lexeme. cbn [type tokenText tvalue mkToken default].
      apply (span_all isAlnum (String d r')). }
  destruct (is_char "-" c || isDigit c).
  { destruct (lexNumber (String c r)) as [raw|] eqn:En; [|done]. intros [= <- _ _ _].
    by apply lexNumber_numeral in En. }
  destruct (isAlpha c) eqn:Ea; [|done]. intros [= <- _ _ _].
  pose proof (span_all isAlnum (String c r)) as Hall. cbn [span] in *.
  rewrite (isAlpha_isAlnum c Ea) in *.
  destruct (String.eqb_spec (toUpperCase (String c (span isAlnum r))) "CHECK") as [E1|E1];
    [done|].
  destruct (String.eqb_spec (toUpperCase (String c (span isAlnum r))) "EVAL") as [E2|E2];
    [done|].
  unfold Lexeme. cbn [type tokenText tvalue mkToken default]. eauto 10.
Qed.

Lemma lexLoop_lexemes (src : string) (rest : string) :
  forall skip i ln cl tokens toks,
    Forall Lexeme tokens ->
    lexLoop src rest skip i ln cl tokens = Ok toks -> Forall Lexeme toks.
Proof.
  induction rest as [|c r IH]; intros skip i ln cl tokens toks Htok; cbn [lexLoop].
  - intros [= <-]. apply Forall_app. split; [done|]. by repeat constructor.
  - destruct skip as [|k]; [|by apply IH].
    destruct (lexStep src c r i ln cl) as [[[[tok n] ln'] cl']|e] eqn:Es; [|done].
    apply IH. apply Forall_app. split; [done|]. destruct tok as [t|]; [|constructor].
    apply lexStep_lexeme in Es. by repeat constructor.
Qed.

(** X7: the value of every token that [tokenizeSSE] returns is of the form of
    its type: a punctuation token holds its character; a keyword token
    [CHECK] or [EVAL], in upper case; an identifier starts with a letter
    or an underscore, goes on with letters, digits, underscores and
    hyphens, and is not a keyword in any case; a symbol is made of such
    characters; a number is an optional minus sign, digits, and optionally
    a point and digits; a string has no line feed. *)
Theorem tokenizeSSE_lexemes (text : string) (toks : list Token) :
  tokenizeSSE text = Ok toks -> Forall Lexeme toks.
Proof. apply lexLoop_lexemes. constructor. Qed.

(** *** The positions of the tokens *)

Lemma countLF_app (a b : string) : countLF (a +:+ b) = countLF a + countLF b.
Proof.
  induction a as [|c a IH]; [done|]. rewrite sapp_cons. cbn [countLF]. rewrite IH. lia.
Qed.

Lemma sinceLF_app (a b : string) : forall acc, sinceLF acc (a +:+ b) = sinceLF (sinceLF acc a) b.
Proof.
  induction a as [|c a IH]; intros acc; [done|]. rewrite sapp_cons. cbn [sinceLF].
  destruct (Ascii.eqb c LF); apply IH.
Qed.

Lemma sinceLF_same_line (w : string) :
  forall acc, countLF w = 0 -> sinceLF acc w = acc + String.length w.
Proof.
  induction w as [|c w IH]; intros acc; cbn [countLF sinceLF String.length]; [lia|].
  destruct (Ascii.eqb c LF); [lia|]. intros H. rewrite IH by lia. lia.
Qed.

Lemma countLF_none (p : ascii -> bool) (w : string) :
  (forall c, p c = true -> Ascii.eqb c LF = false) -> allChars p w = true -> countLF w = 0.
Proof.
  intros Hp. induction w as [|c w IH]; [done|]. cbn [allChars countLF].
  intros [Hc Hw]%andb_true_iff. by rewrite (Hp c Hc), IH.
Qed.

Lemma isAlnum_not_LF (c : ascii) : isAlnum c = true -> Ascii.eqb c LF = false.
Proof. destruct c as [[] [] [] [] [] [] [] []]; vm_compute; congruence. Qed.

Lemma isDigit_not_LF (c : ascii) : isDigit c = true -> Ascii.eqb c LF = false.
Proof. destruct c as [[] [] [] [] [] [] [] []]; vm_compute; congruence. Qed.

Lemma substring_all (b : string) : substring 0 (String.length b) b = b.
Proof. induction b as [|c b IH]; [done|]. cbn [String.length substring]. by rewrite IH. Qed.

Lemma substring_prefix (a b : string) : substring 0 (String.length a) (a +:+ b) = a.
Proof.
  induction a as [|c a IH]; [by destruct b|]. rewrite sapp_cons. cbn [String.length substring].
  by rewrite IH.
Qed.

Lemma drop_app (a b : string) : drop (String.length a) (a +:+ b) = b.
Proof.
  unfold drop. rewrite slength_app.
  replace (String.length a + String.length b - String.length a) with (String.length b) by lia.
  induction a as [|c a IH]; [apply substring_all|]. rewrite sapp_cons. exact IH.
Qed.

Lemma span_prefix (p : ascii -> bool) (s : string) : exists v, s = span p s +:+ v.
Proof.
  induction s as [|c s [v IH]]; [by exists ""|]. cbn [span]. destruct (p c).
  - exists v. rewrite sapp_cons. by rewrite <- IH.
  - by exists (String c s).
Qed.

Lemma span_drop (p : ascii -> bool) (s : string) :
  s = span p s +:+ drop (String.length (span p s)) s.
Proof.
  destruct (span_prefix p s) as [v Hv]. pose proof (drop_app (span p s) v) as H.
  rewrite <- Hv in H. by rewrite H.
Qed.

Lemma lexString_consumed (k : nat) :
  forall rest s n str m,
    String.length rest <= k -> lexString rest s n = inl (str, m) ->
    exists w v, rest = w +:+ v /\ n + String.length w = m /\ countLF w = 0.
Proof.
  induction k as [|k IH]; intros rest s n str m Hk; destruct rest as [|c r];
    cbn [lexString String.length] in *; try done; try lia.
  destruct (Ascii.eqb c quote) eqn:Eq.
  { intros [= _ <-]. exists (String c ""), r. apply Ascii.eqb_eq in Eq as ->.
    repeat split. cbn. lia. }
  destruct (Ascii.eqb c LF) eqn:Ec; [done|].
  assert (Hr : lexString r (s +:+ str1 c) (S n) = inl (str, m) ->
               exists w v, String c r = w +:+ v /\ n + String.length w = m /\ countLF w = 0).
  { intros H. apply IH in H as (w & v & -> & <- & Hw); [|lia].
    exists (String c w), v. cbn [String.length countLF]. rewrite Ec, Hw. repeat split. lia. }
  destruct (Ascii.eqb c backslash); [|exact Hr].
  destruct r as [|e r']; [exact Hr|].
  destruct (Ascii.eqb e quote || Ascii.eqb e backslash) eqn:Ee; [|exact Hr].
  cbn [String.length] in Hk. intros H. apply IH in H as (w & v & -> & <- & Hw); [|lia].
  exists (String c (String e w)), v. cbn [String.length countLF]. rewrite Ec, Hw.
  assert (Ascii.eqb e LF = false) as ->.
  { apply orb_true_iff in Ee as [->%Ascii.eqb_eq | ->%Ascii.eqb_eq]; reflexivity. }
  repeat split. lia.
Qed.

Lemma lexNumber_consumed (rest raw : string) :
  lexNumber rest = Some raw -> exists v, rest = raw +:+ v /\ countLF raw = 0.
Proof.
  unfold lexNumber.
  set (sign := match rest with String c _ => if is_char "-" c then "-" else "" | _ => "" end).
  assert (exists r1, rest = sign +:+ r1 /\ drop (String.length sign) rest = r1 /\
                     countLF sign = 0) as (r1 & Hrest & -> & Hs).
  { unfold sign. destruct rest as [|c r]; [by exists ""|].
    destruct (is_char "-" c) eqn:E.
    - apply Ascii.eqb_eq in E as <-. exists r. repeat split. apply (drop_app "-" r).
    - exists (String c r). repeat split. apply (drop_app "" (String c r)). }
  destruct (is_empty (span isDigit r1)); [done|].
  pose proof (span_drop isDigit r1) as Hr1.
  pose proof (countLF_none isDigit _ isDigit_not_LF (span_all isDigit r1)) as Hds.
  destruct (drop (String.length (span isDigit r1)) r1) as [|c r3].
  { intros [= <-]. exists "". rewrite !countLF_app, Hs, Hds. split; [|done].
    rewrite Hrest, Hr1 at 1. by rewrite !sapp_nil_r. }
  destruct (is_char "." c && negb (is_empty (span isDigit r3))) eqn:E.
  - apply andb_true_iff in E as [E _]. apply Ascii.eqb_eq in E. subst c. intros [= <-].
    destruct (span_prefix isDigit r3) as [v Hv]. exists v.
    rewrite !countLF_app, Hs, Hds, sapp_cons, sapp_nil_l. cbn [countLF].
    rewrite (countLF_none isDigit _ isDigit_not_LF (span_all isDigit r3)). split; [|done].
    rewrite Hrest at 1. rewrite Hr1 at 1. rewrite Hv at 1.
    by rewrite !sapp_assoc, sapp_cons.
  - intros [= <-]. exists (String c r3). rewrite !countLF_app, Hs, Hds. split; [|done].
    rewrite Hrest, Hr1 at 1. by rewrite !sapp_nil_r, sapp_assoc.
Qed.


Lemma blank_not_LF (c : ascii) :
  is_char " " c || (code c =? 9)%nat || (code c =? 13)%nat = true -> Ascii.eqb c LF = false.
Proof. destruct c as [[] [] [] [] [] [] [] []]; vm_compute; congruence. Qed.

(** The characters that one turn of the tokenizer's loop passes: they are
    on one line, and the column advances by their number; or they are one
    line feed, and the next line begins. *)
Lemma lexStep_consumed (src : string) (c : ascii) (r : string) (i ln cl : nat)
    (tok : option Token) (n ln' cl' : nat) :
  lexStep src c r i ln cl = Ok (tok, n, ln', cl') ->
  exists w v, String c r = String c w +:+ v /\ S (String.length w) = n /\
    ((countLF (String c w) = 0 /\ ln' = ln /\ cl' = cl + n) \/
     (String c w = String LF "" /\ ln' = ln + 1 /\ cl' = 1)).
Proof.
  assert (Hone : Ascii.eqb c LF = false ->
            exists w v, String c r = String c w +:+ v /\ S (String.length w) = 1 /\
              ((countLF (String c w) = 0 /\ ln = ln /\ cl + 1 = cl + 1) \/
               (String c w = String LF "" /\ ln = ln + 1 /\ cl + 1 = 1))).
  { intros Hc. exists "", r. repeat split. left. cbn [countLF]. by rewrite Hc. }
  assert (Hspan : Ascii.eqb c LF = false -> forall r0 : string,
            exists v, String c r0 = String c (span isAlnum r0) +:+ v /\
                      countLF (String c (span isAlnum r0)) = 0).
  { intros Hc r0. destruct (span_prefix isAlnum r0) as [v Hv]. exists v.
    rewrite sapp_cons, <- Hv. split; [done|]. cbn [countLF]. rewrite Hc.
    by rewrite (countLF_none isAlnum _ isAlnum_not_LF (span_all isAlnum r0)). }
  unfold lexStep.
  destruct (is_char " " c || _ || _) eqn:Eb.
  { intros [= _ <- <- <-]. apply Hone. by apply blank_not_LF. }
  destruct (Ascii.eqb c LF) eqn:Ec.
  { intros [= _ <- <- <-]. apply Ascii.eqb_eq in Ec as ->. exists "", r. repeat split.
    by right. }
  specialize (Hone eq_refl). specialize (Hspan eq_refl).
  destruct (is_char "/" c && startsWith "/" r) eqn:E.
  { intros [= _ <- <- <-]. apply andb_true_iff in E as [_ Hr]. destruct r as [|d r']; [done|].
    cbn [startsWith] in Hr. apply andb_true_iff in Hr as [Hd _]. apply Ascii.eqb_eq in Hd.
    subst d. change (drop 1 (String "/" r')) with (drop (String.length "/") ("/" +:+ r')).
    rewrite drop_app. set (nl := fun x => negb (Ascii.eqb x LF)).
    destruct (span_prefix nl r') as [v Hv]. exists (String "/" (span nl r')), v.
    split; [by rewrite !sapp_cons, <- Hv|]. split; [done|]. left. repeat split.
    cbn [countLF]. rewrite Ec. cbn [Ascii.eqb]. change (Ascii.eqb "/" LF) with false.
    rewrite (countLF_none nl _ (fun c H => proj1 (negb_true_iff _) H) (span_all nl r')). done. }
  destruct (is_char ":" c); [intros [= _ <- <- <-]; exact Hone|].
  destruct (is_char "=" c); [intros [= _ <- <- <-]; exact Hone|].
  destruct (is_char ";" c); [intros [= _ <- <- <-]; exact Hone|].
  destruct (is_char "." c); [intros [= _ <- <- <-]; exact Hone|].
  destruct (Ascii.eqb c quote).
  { destruct (lexString r "" 0) as [[s m]|m] eqn:Es; [|done]. intros [= _ <- <- <-].
    apply (lexString_consumed _ _ _ _ _ _ (le_n _)) in Es as (w & v & -> & <- & Hw).
    exists w, v. split; [by rewrite sapp_cons|]. split; [done|]. left.
    cbn [countLF]. rewrite Ec, Hw. repeat split. lia. }
  destruct (is_char "#" c).
  { destruct (startsWith "!" r); [done|]. destruct r as [|d r'].
    - intros [= _ <- <- <-]. exact Hone.
    - destruct (isAlnum d) eqn:Ed; [|done]. intros [= _ <- <- <-].
      destruct (Hspan (String d r')) as (v & Hv & Hw).
      exists (span isAlnum (String d r')), v. split; [exact Hv|]. split; [done|]. left.
      repeat split; [exact Hw|lia]. }
  destruct (is_char "-" c || isDigit c).
  { destruct (lexNumber (String c r)) as [raw|] eqn:En; [|done]. intros [= _ <- <- <-].
    pose proof (lexNumber_bound _ _ En) as Hlen.
    apply lexNumber_consumed in En as (v & Hv & Hw).
    destruct raw as [|c0 w]; [cbn in Hlen; lia|]. rewrite sapp_cons in Hv.
    injection Hv as <- ->. exists w, v. split; [by rewrite sapp_cons|]. split; [done|].
    left. by repeat split. }
  destruct (isAlpha c) eqn:Ea; [|done]. intros [= _ <- <- <-].
  cbn [span]. rewrite (isAlpha_isAlnum c Ea). destruct (Hspan r) as (v & Hv & Hw).
  exists (span isAlnum r), v. split; [exact Hv|]. split; [done|]. left. by repeat split.
Qed.

Lemma lexStep_loc (src : string) (c : ascii) (r : string) (i ln cl : nat)
    (t : Token) (n ln' cl' : nat) :
  lexStep src c r i ln cl = Ok (Some t, n, ln', cl') ->
  loc t = {| line := ln; col := cl; index := i |}.
Proof.
  unfold lexStep. repeat case_match; try done; by intros [= <- _ _ _].
Qed.

Lemma Located_at (src pre rest : string) (t : Token) :
  src = pre +:+ rest ->
  loc t = {| line := 1 + countLF pre; col := 1 + sinceLF 0 pre; index := String.length pre |} ->
  Located src t.
Proof.
  intros -> H. unfold Located, lineOf, colOf. rewrite H. cbn [line col index].
  by rewrite substring_prefix.
Qed.

Lemma lexLoop_located (src : string) (rest : string) :
  forall pre u v skip i ln cl tokens toks,
    src = pre +:+ rest -> rest = u +:+ v -> String.length u = skip ->
    i = String.length (pre +:+ u) ->
    ln = 1 + countLF (pre +:+ u) -> cl = 1 + sinceLF 0 (pre +:+ u) ->
    Forall (Located src) tokens ->
    lexLoop src rest skip i ln cl tokens = Ok toks -> Forall (Located src) toks.
Proof.
  induction rest as [|c r IH]; intros pre u v skip i ln cl tokens toks Hsrc Hrest Hu Hi Hln Hcl Htok;
    cbn [lexLoop].
  - intros [= <-]. apply Forall_app. split; [done|]. constructor; [|constructor].
    symmetry in Hrest. apply sapp_eq_nil in Hrest as [-> _]. rewrite sapp_nil_r in Hi, Hln, Hcl.
    subst i ln cl. by apply (Located_at src pre "").
  - destruct skip as [|k].
    + destruct u; [|done]. rewrite sapp_nil_r in Hi, Hln, Hcl. clear Hrest v.
      destruct (lexStep src c r i ln cl) as [[[[tok n] ln'] cl']|e] eqn:Es; [|done].
      pose proof (lexStep_consumed _ _ _ _ _ _ _ _ _ _ Es) as (w & v & Hw & Hn & Hpos).
      rewrite sapp_cons in Hw. injection Hw as Hr.
      apply (IH (pre +:+ String c "") w v).
      * by rewrite sapp_assoc.
      * exact Hr.
      * lia.
      * rewrite sapp_assoc, sapp_cons, sapp_nil_l, !slength_app. cbn [String.length]. lia.
      * rewrite sapp_assoc, sapp_cons, sapp_nil_l, countLF_app.
        destruct Hpos as [(Hc & -> & _)|(Hc & -> & _)]; rewrite Hc; subst ln;
          [|change (countLF (String LF "")) with 1]; lia.
      * rewrite sapp_assoc, sapp_cons, sapp_nil_l, sinceLF_app.
        destruct Hpos as [(Hc & _ & ->)|(Hc & _ & ->)].
        -- rewrite sinceLF_same_line by exact Hc. subst cl n. cbn [String.length]. lia.
        -- rewrite Hc. reflexivity.
      * apply Forall_app. split; [done|]. destruct tok as [t|]; [|constructor].
        constructor; [|constructor]. apply lexStep_loc in Es. subst i ln cl.
        by apply (Located_at src pre (String c r)).
    + destruct u as [|c0 u']; [done|]. rewrite sapp_cons in Hrest. injection Hrest as <- Hr.
      apply (IH (pre +:+ String c "") u' v); try done.
      * by rewrite sapp_assoc.
      * cbn [String.length] in Hu. lia.
      * by rewrite sapp_assoc.
      * by rewrite sapp_assoc.
      * by rewrite sapp_assoc.
Qed.

(** X8: every token that [tokenizeSSE] returns carries the line and the
    column of its offset in the text: the line is one more than the
    number of line feeds before the offset, and the column one more than
    the number of characters between the last of them and the offset. *)
Theorem tokenizeSSE_positions (text : string) (toks : list Token) :
  tokenizeSSE text = Ok toks -> Forall (Located text) toks.
Proof.
  apply (lexLoop_located text text "" "" text); done.
Qed.

(** ** The parser *)

Lemma tokType_eqb_eq (a b : tokType) : tokType_eqb a b = true <-> a = b.
Proof. destruct a, b; vm_compute; split; congruence. Qed.

Lemma endsWithEOF_tail (t : Token) (rest : list Token) :
  endsWithEOF (t :: rest) -> type t <> EOF -> endsWithEOF rest.
Proof. cbn [endsWithEOF]. destruct rest; [done|]. by intros [_ H]. Qed.

Lemma endsWithEOF_app (body : list Token) (eof : Token) :
  Forall (fun t => type t <> EOF) body -> type eof = EOF -> endsWithEOF (body ++ [eof]).
Proof.
  intros Hb He. induction Hb as [|t body Ht _ IH]; [done|]. cbn [app endsWithEOF].
  destruct (body ++ [eof]) eqn:E; [by destruct body|]. by split.
Qed.

Lemma expect_consumes (ty : tokType) (toks : list Token) :
  ty <> EOF -> endsWithEOF toks -> Consumes true toks (expect ty toks).
Proof.
  intros Hty Hend. destruct toks as [|t rest]; [done|]. cbn [expect].
  destruct (tokType_eqb (type t) ty) eqn:E.
  - apply tokType_eqb_eq in E. split; [apply (endsWithEOF_tail t); congruence|].
    by exists [t].
  - rewrite <- sapp_assoc. apply parseFailure_sse.
Qed.

Lemma parseEnumPath_consumes (n : nat) :
  forall toks parts, length toks <= n -> endsWithEOF toks ->
    Consumes false toks (parseEnumPath parts toks).
Proof.
  induction n as [|n IH]; intros toks parts Hn Hend; destruct toks as [|t rest];
    cbn [length] in *; try done; try lia.
  cbn [parseEnumPath]. destruct (tokType_eqb (type t) DOT) eqn:E.
  2:{ split; [done|]. by exists []. }
  apply tokType_eqb_eq in E. assert (endsWithEOF rest) as Hrest.
  { apply (endsWithEOF_tail t); [done|]. by rewrite E. }
  destruct rest as [|t' rest']; [done|].
  destruct (tokType_eqb (type t') IDENT) eqn:E'.
  - apply tokType_eqb_eq in E'. assert (endsWithEOF rest') as Hrest'.
    { apply (endsWithEOF_tail t'); [done|]. by rewrite E'. }
    specialize (IH rest' (parts ++ [tokenText t'])). cbn [length] in Hn.
    unfold Consumes in *. destruct (parseEnumPath _ rest') as [[ps toks']|e]; [|apply IH; [lia|done]].
    destruct IH as (Hend' & pre & -> & _); [lia|done|]. split; [done|].
    by exists (t :: t' :: pre).
  - apply parseFailure_sse.
Qed.

Lemma parseValue_consumes (toks : list Token) :
  endsWithEOF toks -> Consumes true toks (parseValue toks).
Proof.
  intros Hend. destruct toks as [|t rest]; [done|]. cbn [parseValue].
  assert (Hone : forall v : value, type t <> EOF -> Consumes true (t :: rest) (Ok (v, rest))).
  { intros v Ht. split; [by apply (endsWithEOF_tail t)|]. by exists [t]. }
  destruct (type t) eqn:Et; try apply parseFailure_sse; try (by apply Hone).
  - destruct (num_is_nan _); [apply parseFailure_number|by apply Hone].
  - assert (endsWithEOF rest) as Hrest by (apply (endsWithEOF_tail t); [done|by rewrite Et]).
    pose proof (parseEnumPath_consumes (length rest) rest [tokenText t] (le_n _) Hrest) as H.
    unfold Consumes in *.
    destruct (parseEnumPath _ rest) as [[parts rest']|e]; cbn [mbind result_bind]; [|done].
    destruct H as (Hend' & pre & -> & _). split; [done|]. by exists (t :: pre).
Qed.

Lemma parseAssign_consumes (ruleset : Ruleset) (st : ParseState) (toks : list Token) :
  endsWithEOF toks -> Consumes true toks (parseAssign ruleset st toks).
Proof.
  intros Hend. unfold parseAssign.
  pose proof (expect_consumes IDENT toks ltac:(done) Hend) as H1. unfold Consumes in *.
  destruct (expect IDENT toks) as [[keyTok rest]|e]; cbn [mbind result_bind]; [|done].
  destruct H1 as (Hrest & pre1 & -> & _).
  destruct rest as [|opTok rest1]; [done|].
  destruct (negb (tokType_eqb (type opTok) COLON) && negb (tokType_eqb (type opTok) EQUAL)) eqn:Eop.
  { apply parseFailure_sse. }
  assert (type opTok <> EOF) as Hop.
  { intros HE. rewrite HE in Eop. discriminate Eop. }
  pose proof (parseValue_consumes rest1 (endsWithEOF_tail _ _ Hrest Hop)) as H2.
  unfold Consumes in H2.
  destruct (parseValue rest1) as [[val rest2]|e]; cbn [mbind result_bind]; [|done].
  destruct H2 as (Hrest2 & pre2 & -> & _).
  pose proof (expect_consumes SEMI rest2 ltac:(done) Hrest2) as H3. unfold Consumes in H3.
  destruct (expect SEMI rest2) as [[semi rest3]|e]; cbn [mbind result_bind]; [|done].
  destruct H3 as (Hrest3 & pre3 & -> & _). split; [done|].
  exists (pre1 ++ opTok :: pre2 ++ pre3). split.
  - by rewrite <- !app_assoc, <- app_comm_cons, <- app_assoc.
  - intros _ Hnil. apply app_eq_nil in Hnil as [_ Hnil]. discriminate Hnil.
Qed.

Lemma parseQuery_consumes (st : ParseState) (toks : list Token) :
  endsWithEOF toks -> Consumes true toks (parseQuery st toks).
Proof.
  intros Hend. unfold parseQuery. destruct toks as [|t rest]; [done|].
  destruct (negb (tokType_eqb (type t) KW_CHECK) && negb (tokType_eqb (type t) KW_EVAL)) eqn:Eq.
  { apply parseFailure_sse. }
  assert (type t <> EOF) as Ht.
  { intros HE. rewrite HE in Eq. discriminate Eq. }
  pose proof (expect_consumes SEMI rest ltac:(done) (endsWithEOF_tail _ _ Hend Ht)) as H.
  unfold Consumes in *.
  destruct (expect SEMI rest) as [[semi rest']|e]; cbn [mbind result_bind]; [|done].
  destruct H as (Hrest & pre & -> & _). split; [done|]. by exists (t :: pre).
Qed.

Lemma parseStatement_consumes (ruleset : Ruleset) (st : ParseState) (t : Token)
    (toks : list Token) :
  endsWithEOF toks -> Consumes true toks (parseStatement ruleset st t toks).
Proof.
  intros Hend. unfold parseStatement.
  destruct (type t); try (rewrite <- sapp_assoc; apply parseFailure_sse).
  - by apply parseAssign_consumes.
  - by apply parseQuery_consumes.
  - by apply parseQuery_consumes.
Qed.

Lemma parseLoop_skip (ruleset : Ruleset) (pre toks : list Token) (st : ParseState) :
  parseLoop ruleset (pre ++ toks) (length pre) st = parseLoop ruleset toks 0 st.
Proof.
  induction pre as [|t pre IH]; [done|]. cbn [app length parseLoop]. exact IH.
Qed.

Lemma parseLoop_errors (ruleset : Ruleset) (n : nat) :
  forall toks st e, length toks <= n -> endsWithEOF toks ->
    parseLoop ruleset toks 0 st = Throw e -> parseFailure e.
Proof.
  induction n as [|n IH]; intros toks st e Hn Hend; destruct toks as [|t rest];
    cbn [length] in *; try done; try lia.
  cbn [parseLoop]. destruct (tokType_eqb (type t) EOF); [done|].
  pose proof (parseStatement_consumes ruleset st t (t :: rest) Hend) as H. unfold Consumes in H.
  destruct (parseStatement ruleset st t (t :: rest)) as [[st' toks']|e'].
  - destruct H as (Hend' & pre & Heq & Hpre). destruct pre as [|t0 pre]; [by specialize (Hpre eq_refl)|].
    injection Heq as <- ->. cbn [length]. rewrite length_app.
    replace (S (length pre + length toks') - length toks' - 1) with (length pre) by lia.
    rewrite parseLoop_skip. apply IH; [|done]. rewrite length_app in Hn. lia.
  - by intros [= <-].
Qed.

(** X9: whatever the text, the SSE-Lang reader returns, or throws an error
    of its own with a message that begins [SSE-Lang parse error: ] or
    [Invalid number: ]: the parser never reads beyond the end-of-input
    token, where the token would be undefined and reading its type a
    [TypeError]. *)
Theorem parseSSELangProgram_errors (text : string) (ruleset : Ruleset) (e : error) :
  parseSSELangProgram text ruleset = Throw e ->
  exists msg, e = ParseError msg /\ parseErrorText msg.
Proof.
  unfold parseSSELangProgram. destruct (tokenizeSSE text) as [toks|e'] eqn:Et;
    cbn [mbind result_bind].
  - apply lexLoop_spec in Et as (body & eof & -> & Heof & _ & _ & Hbody); [|lia].
    apply (parseLoop_errors ruleset _ _ _ _ (le_n _)). apply endsWithEOF_app; [|done].
    eapply Forall_impl; [exact Hbody|]. by intros x (? & _).
  - intros [= <-]. by apply lexLoop_error in Et.
Qed.

(** ** The reader against the grammar *)

Lemma tokType_eqb_neq (a b : tokType) : tokType_eqb a b = false <-> a <> b.
Proof. rewrite <- tokType_eqb_eq. by destruct (tokType_eqb a b). Qed.

Lemma parseEnumPath_sound (n : nat) :
  forall toks parts parts' rest',
    length toks <= n -> parseEnumPath parts toks = Ok (parts', rest') ->
    exists dots segs, toks = dots ++ rest' /\ Dotted dots segs /\ parts' = parts ++ segs.
Proof.
  induction n as [|n IH]; intros toks parts parts' rest' Hn; destruct toks as [|t rest];
    cbn [length] in *; try done; try lia.
  cbn [parseEnumPath]. destruct (tokType_eqb (type t) DOT) eqn:Et.
  2:{ intros [= <- <-]. exists [], []. rewrite app_nil_r. repeat split. constructor. }
  destruct rest as [|t' rest'']; [done|].
  destruct (tokType_eqb (type t') IDENT) eqn:Et'; [|done].
  intros H. apply IH in H as (dots & segs & -> & Hd & ->); [|cbn [length] in Hn; lia].
  exists (t :: t' :: dots), (tokenText t' :: segs). rewrite <- app_assoc.
  repeat split. constructor; [by apply tokType_eqb_eq..|done].
Qed.

Lemma parseEnumPath_complete (dots : list Token) (segs : list string) :
  Dotted dots segs ->
  forall parts rest, NoDotAhead rest ->
    parseEnumPath parts (dots ++ rest) = Ok (parts ++ segs, rest).
Proof.
  induction 1 as [|d i dots segs Hd Hi _ IH]; intros parts rest Hrest.
  - destruct rest as [|t rest]; [done|]. cbn [app parseEnumPath].
    apply tokType_eqb_neq in Hrest. by rewrite Hrest, app_nil_r.
  - cbn [app parseEnumPath]. apply tokType_eqb_eq in Hd, Hi. rewrite Hd, Hi.
    rewrite IH by done. by rewrite <- app_assoc.
Qed.

Lemma parseValue_sound (toks : list Token) (v : value) (rest' : list Token) :
  parseValue toks = Ok (v, rest') -> exists vtoks, toks = vtoks ++ rest' /\ ValueOf vtoks v.
Proof.
  unfold parseValue. destruct toks as [|t rest]; [done|].
  destruct (type t) eqn:Et; try done.
  - intros [= <- <-]. exists [t]. split; [done|]. by constructor.
  - intros [= <- <-]. exists [t]. split; [done|]. by constructor.
  - destruct (num_is_nan _) eqn:En; [done|]. intros [= <- <-]. exists [t]. split; [done|].
    by apply Value_number.
  - destruct (parseEnumPath _ rest) as [[parts rest1]|e] eqn:Ep; cbn [mbind result_bind]; [|done].
    intros [= <- <-].
    apply (parseEnumPath_sound _ _ _ _ _ (le_n _)) in Ep as (dots & segs & -> & Hd & ->).
    exists (t :: dots). split; [done|]. by apply Value_path.
Qed.

Lemma parseValue_complete (vtoks : list Token) (v : value) :
  ValueOf vtoks v ->
  forall rest, NoDotAhead rest -> parseValue (vtoks ++ rest) = Ok (v, rest).
Proof.
  intros [t Ht Hn|t Ht|t Ht|t dots segs Ht Hd] rest Hrest; cbn [app parseValue]; rewrite Ht.
  - fold (numberOf (tokenText t)). by rewrite Hn.
  - done.
  - done.
  - by rewrite (parseEnumPath_complete dots segs Hd).
Qed.

Lemma expect_ok (ty : tokType) (toks : list Token) (t : Token) (rest : list Token) :
  expect ty toks = Ok (t, rest) <-> toks = t :: rest /\ type t = ty.
Proof.
  unfold expect. destruct toks as [|t0 rest0]; [split; [done|by intros [? _]]|].
  destruct (tokType_eqb (type t0) ty) eqn:E.
  - apply tokType_eqb_eq in E. split; [by intros [= <- <-]|by intros [[= -> ->] _]].
  - apply tokType_eqb_neq in E. split; [done|]. by intros [[= -> ->] ?].
Qed.

Lemma parseStatement_sound (ruleset : Ruleset) (st st' : ParseState) (t : Token)
    (rest toks' : list Token) :
  parseStatement ruleset st t (t :: rest) = Ok (st', toks') ->
  exists s, t :: rest = s ++ toks' /\ Statement ruleset s st st'.
Proof.
  unfold parseStatement.
  assert (Hq : type t = KW_CHECK \/ type t = KW_EVAL ->
               parseQuery st (t :: rest) = Ok (st', toks') ->
               exists s, t :: rest = s ++ toks' /\ Statement ruleset s st st').
  { intros Ht. unfold parseQuery. destruct (negb _ && negb _); [done|].
    destruct (expect SEMI rest) as [[semi rest1]|e] eqn:Es; cbn [mbind result_bind]; [|done].
    apply expect_ok in Es as [-> Hsemi]. intros [= <- <-]. exists [t; semi].
    split; [done|]. by constructor. }
  destruct (type t) eqn:Et; try done; [|apply Hq; by left|apply Hq; by right].
  unfold parseAssign. cbn [expect]. rewrite Et. change (tokType_eqb IDENT IDENT) with true.
  cbn [mbind result_bind]. destruct rest as [|opTok rest1]; [done|].
  destruct (negb (tokType_eqb (type opTok) COLON) && negb (tokType_eqb (type opTok) EQUAL))
    eqn:Eop; [done|].
  destruct (parseValue rest1) as [[val rest2]|e] eqn:Ev; cbn [mbind result_bind]; [|done].
  destruct (expect SEMI rest2) as [[semi rest3]|e] eqn:Es; cbn [mbind result_bind]; [|done].
  apply expect_ok in Es as [-> Hsemi]. apply parseValue_sound in Ev as (vtoks & -> & Hv).
  intros [= <- <-]. exists (t :: opTok :: vtoks ++ [semi]). split.
  - cbn [app]. by rewrite <- app_assoc.
  - apply (Statement_assign ruleset t opTok vtoks semi val st); try done.
    apply andb_false_iff in Eop as [E|E]; apply negb_false_iff, tokType_eqb_eq in E; tauto.
Qed.

Lemma parseStatement_complete (ruleset : Ruleset) (s : list Token) (st st' : ParseState) :
  Statement ruleset s st st' ->
  forall rest, exists t s',
    s = t :: s' /\ type t <> EOF /\
    parseStatement ruleset st t (s ++ rest) = Ok (st', rest).
Proof.
  intros [key op vtoks semi v st0 Hkey Hop Hv Hsemi|q semi st0 Hq Hsemi] rest.
  - exists key, (op :: vtoks ++ [semi]). split; [done|]. split; [by rewrite Hkey|].
    unfold parseStatement. rewrite Hkey. unfold parseAssign. cbn [app expect].
    rewrite Hkey. change (tokType_eqb IDENT IDENT) with true. cbn [mbind result_bind].
    assert (negb (tokType_eqb (type op) COLON) && negb (tokType_eqb (type op) EQUAL) = false)
      as ->.
    { destruct Hop as [-> | ->]; reflexivity. }
    rewrite <- app_assoc. cbn [app].
    rewrite (parseValue_complete vtoks v Hv) by (cbn; by rewrite Hsemi).
    cbn [mbind result_bind expect]. rewrite Hsemi. change (tokType_eqb SEMI SEMI) with true.
    cbn [mbind result_bind]. reflexivity.
  - exists q, [semi]. split; [done|]. split; [by destruct Hq as [-> | ->]|].
    unfold parseStatement, parseQuery. cbn [app expect]. rewrite Hsemi.
    destruct Hq as [-> | ->]; reflexivity.
Qed.

Lemma parseLoop_sound (ruleset : Ruleset) (n : nat) :
  forall toks st st', length toks <= n ->
    parseLoop ruleset toks 0 st = Ok st' -> Program ruleset toks st st'.
Proof.
  induction n as [|n IH]; intros toks st st' Hn; destruct toks as [|t rest];
    cbn [length] in *; try done; try lia.
  cbn [parseLoop]. destruct (tokType_eqb (type t) EOF) eqn:Et.
  { intros [= <-]. apply tokType_eqb_eq in Et. by constructor. }
  destruct (parseStatement ruleset st t (t :: rest)) as [[st1 toks1]|e] eqn:Es; [|done].
  apply parseStatement_sound in Es as (s & Heq & Hs).
  assert (exists s', s = t :: s') as [s' ->].
  { destruct Hs; injection Heq as -> _; eauto. }
  injection Heq as ->. cbn [length]. rewrite length_app.
  replace (S (length s' + length toks1) - length toks1 - 1) with (length s') by lia.
  rewrite parseLoop_skip. intros H. apply IH in H; [|rewrite length_app in Hn; lia].
  change (t :: s' ++ toks1) with ((t :: s') ++ toks1). by econstructor.
Qed.

Lemma parseLoop_complete (ruleset : Ruleset) (toks : list Token) (st st' : ParseState) :
  Program ruleset toks st st' -> parseLoop ruleset toks 0 st = Ok st'.
Proof.
  induction 1 as [eof rest st Heof|s rest st st1 st2 Hs _ IH].
  - cbn [parseLoop]. by rewrite Heof.
  - destruct (parseStatement_complete ruleset s st st1 Hs rest) as (t & s' & -> & Ht & Hp).
    cbn [app parseLoop]. apply tokType_eqb_neq in Ht. rewrite Ht.
    cbn [app] in Hp. rewrite Hp. cbn [length]. rewrite length_app.
    replace (S (length s' + length rest) - length rest - 1) with (length s') by lia.
    by rewrite parseLoop_skip.
Qed.

(** X10: the SSE-Lang reader implements its grammar: it returns a state for a
    text exactly when the tokens of the text are a program (assignments
    [ident (":"|"=") value ";"] and queries [CHECK;], [EVAL;], up to the end
    of the input), and the state is the one the statements of the program
    lead to from the empty map, in their order. *)
Theorem parseSSELangProgram_grammar (text : string) (ruleset : Ruleset) (st : ParseState) :
  parseSSELangProgram text ruleset = Ok st <->
  exists toks, tokenizeSSE text = Ok toks /\
               Program ruleset toks {| pmap := []; seenQuery := false |} st.
Proof.
  unfold parseSSELangProgram. split.
  - destruct (tokenizeSSE text) as [toks|e]; cbn [mbind result_bind]; [|done].
    intros H. exists toks. split; [done|]. by apply (parseLoop_sound ruleset _ _ _ _ (le_n _)).
  - intros (toks & -> & H). cbn [mbind result_bind]. by apply parseLoop_complete.
Qed.

(** ** Derived fields *)

Lemma map_set_idem (k : string) (v : value) (m : FieldMap) :
  map_set k v (map_set k v m) = map_set k v m.
Proof.
  induction m as [|[k' v'] m IH]; cbn [map_set].
  - by rewrite String.eqb_refl.
  - destruct (String.eqb k' k) eqn:E; cbn [map_set].
    + by rewrite String.eqb_refl.
    + by rewrite E, IH.
Qed.

Lemma filter_map_set (f : string * value -> bool) (k : string) (v : value) (m : FieldMap) :
  (forall v', f (k, v') = false) -> List.filter f (map_set k v m) = List.filter f m.
Proof.
  intros Hf. induction m as [|[k' v'] m IH]; cbn [map_set List.filter].
  - by rewrite Hf.
  - destruct (String.eqb_spec k' k) as [->|Hne]; cbn [List.filter].
    + by rewrite !Hf.
    + by rewrite IH.
Qed.

(** X11: deriving a second time changes nothing, provided the key that holds
    the count is not itself under the rating prefix: the map and the
    derivations of the second run are those of the first. *)
Theorem deriveInput_idempotent (map : FieldMap) (ruleset : Ruleset) :
  startsWith "rating." (toLowerCase (derivedKey ruleset)) = false ->
  deriveInput (fst (deriveInput map ruleset)) ruleset = deriveInput map ruleset.
Proof.
  intros Hkey. rewrite (deriveInput_closed map).
  destruct (ratingFields map) as [|kv l] eqn:E; cbn [fst].
  - rewrite deriveInput_closed. by rewrite E.
  - set (m' := map_set _ _ map).
    assert (Hr : forall v', isRatingEntry (derivedKey ruleset, v') = false) by (intros; exact Hkey).
    assert (ratingFields m' = ratingFields map) as Hrat by (by apply filter_map_set).
    assert (List.filter unrecognized m' = List.filter unrecognized map) as Hun.
    { apply filter_map_set. intros v'. unfold unrecognized. by rewrite Hr. }
    assert (List.filter moderateOrWorse m' = List.filter moderateOrWorse map) as Hmod.
    { apply filter_map_set. intros v'. unfold moderateOrWorse. by rewrite Hr. }
    rewrite deriveInput_closed. rewrite Hrat, E, Hun, Hmod.
    unfold tally. rewrite Hmod. unfold m'. by rewrite map_set_idem.
Qed.

(** X12: when a rating field is present, the derivations are the warnings for
    the unrecognized levels, in the order of their fields, then the record
    of the count with its contributors, then the critical flag; and the
    flag is set exactly when some rating field has the level [critical].
    A level is recognized when it is one of the seven names of the scale,
    blanks around it and case apart, and it counts when it is one of the
    four from [moderate] on. *)
Theorem deriveInput_derivations (map : FieldMap) (ruleset : Ruleset) :
  ratingFields map <> [] ->
  exists b,
    snd (deriveInput map ruleset) =
      List.map warningOf (List.filter unrecognized map) ++ [countRecord map; criticalFlag b] /\
    (b = true <->
     exists kv, In kv map /\ isRatingEntry kv = true /\ levelText (snd kv) = "critical") /\
    (forall kv, unrecognized kv = true <->
       isRatingEntry kv = true /\
       ~ In (levelText (snd kv))
            ["excellent"; "good"; "fair"; "moderate"; "poor"; "major"; "critical"]) /\
    (forall kv, moderateOrWorse kv = true <->
       isRatingEntry kv = true /\
       In (levelText (snd kv)) ["moderate"; "poor"; "major"; "critical"]).
Proof.
  intros Hne. rewrite deriveInput_closed. destruct (ratingFields map) as [|kv0 l]; [done|].
  eexists. split; [reflexivity|]. split; [|split].
  - rewrite existsb_exists. split.
    + intros (x & [kv [<- [Hin Hmod]%filter_In]]%in_map_iff & Hx%String.eqb_eq).
      exists kv. repeat split; [done| |done].
      unfold moderateOrWorse in Hmod. by apply andb_true_iff in Hmod as [? _].
    + intros (kv & Hin & Hr & Hlvl). exists (contributorOf kv). split.
      * apply in_map, filter_In. split; [done|]. unfold moderateOrWorse. by rewrite Hr, Hlvl.
      * cbn [contributorOf level]. by rewrite Hlvl.
  - intros kv. apply unrecognized_names.
  - intros kv. apply moderateOrWorse_names.
Qed.

(** ** Conditions and rules *)

Lemma compareValue_true_op (ruleset : Ruleset) (field : string) (op : option string)
    (lhs rhs : value) :
  compareValue ruleset field op lhs rhs = Ok true -> exists o, op = Some o /\ In o operators.
Proof.
  unfold compareValue.
  destruct (ordinalIndex ruleset field lhs) as [li|]; cbn [mbind result_bind]; [|done].
  destruct (ordinalIndex ruleset field rhs) as [ri|]; cbn [mbind result_bind]; [|done].
  destruct op as [o|].
  - intros H. exists o. split; [done|]. unfold operators. revert H. unfold op_is.
    destruct (String.eqb_spec o ">="); [subst; cbn; tauto|].
    destruct (String.eqb_spec o "<="); [subst; cbn; tauto|].
    destruct (String.eqb_spec o ">"); [subst; cbn; tauto|].
    destruct (String.eqb_spec o "<"); [subst; cbn; tauto|].
    destruct (String.eqb_spec o "="); [subst; cbn; tauto|].
    destruct (String.eqb_spec o "!="); [subst; cbn; tauto|].
    repeat case_match; discriminate.
  - unfold op_is. repeat case_match; discriminate.
Qed.

(** X13: on a field that has no scale to be looked up every comparison
    throws, whatever the operator.  On every other field, whatever the two
    values and the scales: a condition without an operator, or with one
    that is not among the six, is false; and [!=] holds exactly when [=]
    does not. *)
Theorem compareValue_operators (ruleset : Ruleset) (field : string) (lhs rhs : value) :
  (Inherits ruleset field ->
     forall op, compareValue ruleset field op lhs rhs = Throw notAScale) /\
  (~ Inherits ruleset field ->
     compareValue ruleset field None lhs rhs = Ok false /\
     (forall o, ~ In o operators -> compareValue ruleset field (Some o) lhs rhs = Ok false) /\
     exists b, compareValue ruleset field (Some "=") lhs rhs = Ok b /\
               compareValue ruleset field (Some "!=") lhs rhs = Ok (negb b)).
Proof.
  split; [intros H op; by apply compareValue_Inherits|]. intros Hown.
  split; [|split].
  - destruct (compareValue_returns ruleset field None lhs rhs Hown) as [[|] E]; [|done].
    apply compareValue_true_op in E as (o & ? & _). discriminate.
  - intros o Ho.
    destruct (compareValue_returns ruleset field (Some o) lhs rhs Hown) as [[|] E]; [|done].
    apply compareValue_true_op in E as (o' & [= <-] & Hin). contradiction.
  - unfold compareValue.
    destruct (ordinalIndex_returns ruleset field lhs Hown) as [li ->].
    destruct (ordinalIndex_returns ruleset field rhs Hown) as [ri ->].
    cbn [mbind result_bind]. eval_ops. eexists. split; [reflexivity|].
    repeat case_match; by rewrite ?negb_involutive.
Qed.

(** X14: a rule is triggered exactly when each of its conditions holds:
    none is unparsed, each names a field that the map has, and the value
    there compares true.  A rule without conditions is triggered by every
    map.  When [ruleMatches] returns, a match carries no reason, and a
    failure to match carries one, the conditions before the first that
    fails all holding.  [ruleMatches] throws exactly when the first
    condition that does not hold is on a field that the map has and that
    has no scale to be looked up. *)
Theorem ruleMatches_conjunction (ruleset : Ruleset) (rule : Rule) (inputMap : FieldMap) :
  let conds := default [] (r_if rule) in
  (Triggered ruleset inputMap rule <-> Forall (Holds ruleset inputMap) conds) /\
  (conds = [] -> Triggered ruleset inputMap rule) /\
  (forall m, ruleMatches ruleset rule inputMap = Ok m ->
     (matched m = true <-> reason m = None) /\
     (matched m = false ->
      exists pre c post, conds = pre ++ c :: post /\
        Forall (Holds ruleset inputMap) pre /\ Fails ruleset inputMap c)) /\
  (forall e, ruleMatches ruleset rule inputMap = Throw e <->
     e = notAScale /\
     exists pre c post, conds = pre ++ c :: post /\
       Forall (Holds ruleset inputMap) pre /\ Breaks ruleset inputMap c).
Proof.
  intros conds. unfold Triggered, ruleMatches. fold conds.
  pose proof (conditionsMatch_spec ruleset inputMap conds) as S.
  assert (Hall : Forall (Holds ruleset inputMap) conds ->
                 conditionsMatch ruleset conds inputMap = Ok {| matched := true; reason := None |}).
  { intros H. rewrite <- (app_nil_r conds). by rewrite conditionsMatch_holds. }
  split; [|split; [|split]].
  - split.
    + intros (m & Hm & Hmatched). rewrite Hm, Hmatched in S. by destruct S.
    + intros H. eexists. split; [by apply Hall|done].
  - intros ->. eexists. split; [reflexivity|done].
  - intros m Hm. rewrite Hm in S. destruct (matched m).
    + destruct S as [-> _]. by split.
    + destruct S as [[why ->] Hfirst]. split; [by split|]. by intros _.
  - intros e. split.
    + intros He. by rewrite He in S.
    + intros (-> & pre & c & post & -> & Hpre & Hc). by apply conditionsMatch_breaks.
Qed.

(** ** Texts compare without regard to case *)

(** X15: the case of two texts never matters to their comparison, on a scale
    or off it. *)
Theorem compareValue_ignores_case (ruleset : Ruleset) (field : string) (op : option string)
    (a b : string) :
  compareValue ruleset field op (VStr a) (VStr b) =
  compareValue ruleset field op (VStr (toLowerCase a)) (VStr (toLowerCase b)).
Proof.
  unfold compareValue, ordinalIndex. cbn [ToString]. by rewrite !toLowerCase_idem.
Qed.

(** ** The two versions of the decision *)

Lemma filter_all {A : Type} (f : A -> bool) (l : list A) :
  (forall x, In x l -> f x = true) -> List.filter f l = l.
Proof.
  induction l as [|x l IH]; intros H; [done|]. cbn [List.filter].
  rewrite (H x (or_introl eq_refl)). f_equal. apply IH. intros y Hy. apply H. by right.
Qed.

Lemma filter_none {A : Type} (f : A -> bool) (l : list A) :
  (forall x, In x l -> f x = false) -> List.filter f l = [].
Proof.
  induction l as [|x l IH]; intros H; [done|]. cbn [List.filter].
  rewrite (H x (or_introl eq_refl)). apply IH. intros y Hy. apply H. by right.
Qed.

(** X16: when no triggered rule is soft, the decision of version 0.2 is that of
    version 0.1: the same verdict, judgement, primary rule and triggered
    rules, every triggered rule being hard; or the same error. *)
Theorem decide_agrees_with_v1 (ruleset : Ruleset) (inputMap : FieldMap) :
  (forall r, In r (default [] (rules ruleset)) -> Triggered ruleset inputMap r ->
             Hard ruleset r) ->
  match V1.decide ruleset inputMap, decide ruleset inputMap with
  | Ok r1, Ok r2 =>
      V1.verdict r1 = verdict r2 /\ V1.res_judgement r1 = res_judgement r2 /\
      V1.rule r1 = rule r2 /\ V1.triggered r1 = triggered r2 /\
      triggeredHard r2 = triggered r2 /\ triggeredSoft r2 = []
  | Throw e1, Throw e2 => e1 = e2
  | _, _ => False
  end.
Proof.
  intros Hhard. unfold V1.decide, decide, triggeredRules.
  destruct (triggeredLoop ruleset _ inputMap) as [t|e] eqn:Et; cbn [mbind result_bind]; [|done].
  apply triggeredLoop_Ok in Et as [_ ->].
  assert (Hsoft : forall r, In r (List.filter (triggers ruleset inputMap)
                                               (default [] (rules ruleset))) ->
                            isSoft ruleset r = false).
  { intros r [Hin Hm%triggers_Triggered]%filter_In. specialize (Hhard r Hin Hm).
    destruct (isSoft ruleset r) eqn:E; [|done]. by apply isSoft_Soft in E. }
  rewrite (filter_all (fun r => negb (isSoft ruleset r))) by (intros r Hr; by rewrite Hsoft).
  rewrite (filter_none (isSoft ruleset)) by exact Hsoft.
  destruct (List.find isInfeasible _) as [p|]; [done|].
  destruct (List.find (fun r => negb (isInfeasible r)) _) as [p|]; [|done].
  by destruct (r_then p).
Qed.

(** X17: version 0.2 refuses only what version 0.1 refuses: where it gives the
    verdict NO, so does version 0.1.  (Not the other way round: the
    infeasible judgement of a soft rule is a NO for version 0.1 alone.) *)
Theorem decide_no_implies_v1_no (ruleset : Ruleset) (inputMap : FieldMap) (r2 : DecisionResult) :
  decide ruleset inputMap = Ok r2 -> verdict r2 = "NO" ->
  exists r1, V1.decide ruleset inputMap = Ok r1 /\ V1.verdict r1 = "NO".
Proof.
  unfold V1.decide, decide. intros H Hv.
  destruct (triggeredRules ruleset inputMap) as [t|e]; cbn [mbind result_bind] in *; [|done].
  destruct (List.find isInfeasible (List.filter _ t)) as [p|] eqn:E.
  - apply find_some in E as [[Hin _]%filter_In Hp].
    destruct (List.find isInfeasible t) as [q|] eqn:E1.
    + eexists. by split.
    + eapply find_none in E1; [|exact Hin]. congruence.
  - exfalso. repeat case_match; simplify_eq; cbn in Hv; discriminate.
Qed.

(** ** Shared references in the serializer *)

Lemma visitAll_split {A B : Type} (f : A -> gset addr -> option (B * gset addr))
    (l1 : list A) (x : A) (l2 : list A) :
  forall s bs s', visitAll f (l1 ++ x :: l2) s = Some (bs, s') ->
    exists bs1 s1 b s2 bs2,
      visitAll f l1 s = Some (bs1, s1) /\ f x s1 = Some (b, s2) /\
      visitAll f l2 s2 = Some (bs2, s') /\ bs = bs1 ++ b :: bs2 /\ length bs1 = length l1.
Proof.
  induction l1 as [|y l1 IH]; intros s bs s' H; cbn [app visitAll] in H.
  - destruct (f x s) as [[b s2]|] eqn:E1; [|done].
    destruct (visitAll f l2 s2) as [[bs2 s3]|] eqn:E2; [|done]. inversion H; subst.
    by exists [], s, b, s2, bs2.
  - destruct (f y s) as [[c s0]|] eqn:E0; [|done].
    destruct (visitAll f (l1 ++ x :: l2) s0) as [[bs0 s3]|] eqn:E; [|done].
    inversion H; subst. apply IH in E as (bs1 & s1 & b & s2 & bs2 & H1 & H2 & H3 & -> & Hlen).
    exists (c :: bs1), s1, b, s2, bs2. cbn [visitAll]. rewrite E0, H1. cbn [length].
    by rewrite Hlen.
Qed.

Lemma recur_adds (h : heap) (n : nat) (a : addr) (s : gset addr) (t : tree) (s' : gset addr) :
  recur n h (JRef a) s = Some (t, s') -> a ∈ s'.
Proof.
  destruct n as [|n]; [done|]. cbn [recur].
  destruct (base.decide (a ∈ s)); [by intros [= _ <-]|].
  destruct (h !! a) as [[elems|props]|].
  - destruct (visitAll _ elems _) as [[ts s1]|] eqn:E; [|done]. intros [= _ <-].
    apply visitAll_mono in E; [set_solver|apply recur_mono].
  - destruct (visitAll _ (sortedKeys props) _) as [[out s1]|] eqn:E; [|done]. intros [= _ <-].
    apply visitAll_mono in E; [set_solver|].
    intros k s0 [k' t'] s0' Hk.
    destruct (recur n h _ s0) as [[t1 s2]|] eqn:E1; [|done]. inversion Hk; subst.
    by eapply recur_mono.
  - intros [= _ <-]. set_solver.
Qed.

(** X18: an object is written once: where an array holds a reference that it
    held at an earlier position, the later place is serialized as null,
    whether or not the reference closes a cycle. *)
Theorem stableStringify_repeated_reference (h : heap) (b a : addr) (l1 l2 l3 : list jsval) :
  h !! b = Some (JArray (l1 ++ JRef a :: l2 ++ JRef a :: l3)) ->
  exists ts, stableTree h (JRef b) = Some (TArray ts) /\
             ts !! (length l1 + S (length l2)) = Some TNull.
Proof.
  intros Hb. unfold stableTree.
  destruct (recur_enough_fuel h (S (size h)) (JRef b) ∅) as [[t s'] E].
  { replace (dom h ∖ ∅) with (dom h) by set_solver. rewrite size_dom. lia. }
  rewrite E. cbn [recur] in E. destruct (base.decide (b ∈ ∅)); [set_solver|].
  rewrite Hb in E. destruct (visitAll _ _ _) as [[ts s1]|] eqn:Ev; [|done].
  injection E as <- <-. exists ts. split; [done|].
  apply visitAll_split in Ev as (ts1 & sa & t1 & sb & tsr & _ & H1 & Hr & -> & Hlen1).
  apply visitAll_split in Hr as (ts2 & sc & t2 & sd & ts3 & H2 & H3 & _ & -> & Hlen2).
  assert (a ∈ sc) as Ha.
  { apply recur_adds in H1. apply visitAll_mono in H2; [set_solver|apply recur_mono]. }
  destruct (size h) as [|m]; [done|]. rewrite recur_seen in H3 by exact Ha.
  injection H3 as <- <-.
  replace (ts1 ++ t1 :: ts2 ++ TNull :: ts3) with ((ts1 ++ t1 :: ts2) ++ TNull :: ts3)
    by (by rewrite <- app_assoc).
  apply list_lookup_middle. rewrite length_app. cbn [length]. lia.
Qed.

(** ** The fingerprint of texts that differ in one character *)

Lemma mul_prime_cancel (x y : Z) :
  (0 <= x < 2 ^ 32 -> 0 <= y < 2 ^ 32 ->
   (x * 16777619) mod 2 ^ 32 = (y * 16777619) mod 2 ^ 32 -> x = y)%Z.
Proof.
  intros Hx Hy H. apply (f_equal (fun z => (z * 899433627) mod 2 ^ 32)%Z) in H.
  rewrite !Z.mul_mod_idemp_l, <- !Z.mul_assoc in H by lia.
  rewrite <- (Z.mul_mod_idemp_r x), <- (Z.mul_mod_idemp_r y) in H by lia.
  change ((16777619 * 899433627) mod 2 ^ 32)%Z with 1%Z in H.
  rewrite !Z.mul_1_r, !Z.mod_small in H by lia. exact H.
Qed.

Lemma lxor_range (h c : Z) :
  (0 <= h < 2 ^ 32 -> 0 <= c < 2 ^ 32 -> 0 <= Z.lxor h c < 2 ^ 32)%Z.
Proof.
  intros Hh Hc. assert (Z.lxor h c mod 2 ^ 32 = Z.lxor h c)%Z as <-.
  { by rewrite lxor_mod, !Z.mod_small. }
  apply Z.mod_pos_bound. lia.
Qed.

Lemma code_range (c : ascii) : (0 <= Z.of_nat (code c) < 2 ^ 32)%Z.
Proof. destruct c as [[] [] [] [] [] [] [] []]; vm_compute; split; congruence. Qed.

Lemma fnv1a_app (a s : string) : forall h, fnv1a h (a +:+ s) = fnv1a (fnv1a h a) s.
Proof. induction a as [|c a IH]; intros h; [done|]. rewrite sapp_cons. apply IH. Qed.

Lemma fnv1a_state (b : string) :
  forall h1 h2, (0 <= h1 < 2 ^ 32 -> 0 <= h2 < 2 ^ 32 ->
                 fnv1a h1 b = fnv1a h2 b -> h1 = h2)%Z.
Proof.
  induction b as [|c b IH]; intros h1 h2 H1 H2; cbn [fnv1a]; [done|]. intros H.
  apply IH in H; try (apply Z.mod_pos_bound; lia).
  apply mul_prime_cancel in H; try (apply lxor_range; [done|apply code_range]).
  apply (f_equal (fun z => Z.lxor z (Z.of_nat (code c)))) in H.
  by rewrite !Z.lxor_assoc, !Z.lxor_nilpotent, !Z.lxor_0_r in H.
Qed.

(** X19: replacing one character of a text by another always changes the
    fingerprint: two texts that differ in exactly one position never have
    the same [simpleHash]. *)
Theorem simpleHash_substitution (a b : string) (c1 c2 : ascii) :
  simpleHash (a +:+ String c1 b) = simpleHash (a +:+ String c2 b) <-> c1 = c2.
Proof.
  split; [|by intros ->]. intros H. rewrite !simpleHash_fnv1a in H.
  assert (Hr : forall s, (0 <= fnv1a 2166136261 s < 2 ^ 32)%Z) by (intros; by apply fnv1a_range).
  apply (f_equal (hexValue 0)) in H.
  destruct (padStart8_toHex _ (Hr (a +:+ String c1 b))) as (_ & _ & E1).
  destruct (padStart8_toHex _ (Hr (a +:+ String c2 b))) as (_ & _ & E2).
  rewrite E1, E2 in H. clear E1 E2.
  rewrite !fnv1a_app in H. cbn [fnv1a] in H.
  apply fnv1a_state in H; try (apply Z.mod_pos_bound; lia).
  apply mul_prime_cancel in H; try (apply lxor_range; [apply Hr|apply code_range]).
  apply (f_equal (Z.lxor (fnv1a 2166136261 a))) in H.
  rewrite <- !Z.lxor_assoc, !Z.lxor_nilpotent, !Z.lxor_0_l in H.
  apply Nat2Z.inj in H. unfold code in H.
  rewrite <- (ascii_nat_embedding c1), <- (ascii_nat_embedding c2). by rewrite H.
Qed.

(** ** HTML escaping *)

Lemma replaceAll_app (c : ascii) (by_ s t : string) :
  replaceAll c by_ (s +:+ t) = replaceAll c by_ s +:+ replaceAll c by_ t.
Proof.
  induction s as [|x s IH]; [done|]. rewrite sapp_cons. cbn [replaceAll].
  destruct (Ascii.eqb x c); rewrite IH; [by rewrite sapp_assoc|by rewrite sapp_cons].
Qed.

Lemma replaceAll_absent (c : ascii) (by_ s : string) :
  allChars (fun x => negb (Ascii.eqb x c)) s = true -> replaceAll c by_ s = s.
Proof.
  induction s as [|x s IH]; [done|]. cbn [allChars replaceAll].
  intros [Hx Hs]%andb_true_iff. apply negb_true_iff in Hx. rewrite Hx. by rewrite IH.
Qed.

Lemma escapeHtml_cons (c : ascii) (s : string) :
  escapeHtml (String c s) = entity c +:+ escapeHtml s.
Proof.
  unfold escapeHtml. cbn [replaceAll].
  destruct (Ascii.eqb_spec c "&") as [->|Hamp].
  { rewrite !replaceAll_app. reflexivity. }
  cbn [replaceAll]. destruct (Ascii.eqb_spec c "<") as [->|Hlt].
  { rewrite !replaceAll_app. reflexivity. }
  cbn [replaceAll]. destruct (Ascii.eqb_spec c ">") as [->|Hgt].
  { rewrite !replaceAll_app. reflexivity. }
  cbn [replaceAll]. destruct (Ascii.eqb_spec c quote) as [->|Hq].
  { rewrite !replaceAll_app. reflexivity. }
  cbn [replaceAll]. destruct (Ascii.eqb_spec c "'") as [->|Hs].
  { reflexivity. }
  unfold entity, is_char.
  destruct (Ascii.eqb_spec "&" c); [congruence|]. destruct (Ascii.eqb_spec "<" c); [congruence|].
  destruct (Ascii.eqb_spec ">" c); [congruence|]. destruct (Ascii.eqb_spec quote c); [congruence|].
  destruct (Ascii.eqb_spec "'" c); [congruence|]. reflexivity.
Qed.

(** X20: the five replacements, made one after the other over the whole text,
    amount to one pass that replaces each character of the text by its
    entity: an ampersand that a replacement writes is never escaped again.
    So the escape of a concatenation is the concatenation of the escapes. *)
Theorem escapeHtml_single_pass (s t : string) :
  escapeHtml s = entities s /\
  escapeHtml (s +:+ t) = escapeHtml s +:+ escapeHtml t.
Proof.
  assert (H : forall u, escapeHtml u = entities u).
  { induction u as [|c u IH]; [done|]. rewrite escapeHtml_cons, IH. reflexivity. }
  split; [apply H|]. rewrite !H. induction s as [|c s IH]; [done|].
  rewrite sapp_cons. cbn [entities]. by rewrite IH, sapp_assoc.
Qed.

Lemma entity_no_markup (c : ascii) : allChars (fun x => negb (is_markup x)) (entity c) = true.
Proof.
  unfold entity. repeat (match goal with |- context [if ?b then _ else _] => destruct b eqn:? end);
    try reflexivity.
  cbn [allChars]. unfold is_markup.
  repeat match goal with H : _ = false |- _ => rewrite H; clear H end. reflexivity.
Qed.

(** X21: no character of an escaped text is [<], [>], a double quote or an
    apostrophe. *)
Theorem escapeHtml_no_markup (s : string) :
  allChars (fun c => negb (is_markup c)) (escapeHtml s) = true.
Proof.
  induction s as [|c s IH]; [done|]. rewrite escapeHtml_cons.
  rewrite allChars_app. by rewrite entity_no_markup, IH.
Qed.

(** X22: escaping loses nothing: two texts with the same escape are the same. *)
Theorem escapeHtml_injective (s t : string) :
  escapeHtml s = escapeHtml t <-> s = t.
Proof.
  split; [|by intros ->].
  revert t. induction s as [|c s IH]; intros [|d t] H.
  - done.
  - rewrite escapeHtml_cons in H. exfalso. revert H. unfold entity.
    repeat (match goal with |- context [if ?b then _ else _] => destruct b end); discriminate.
  - rewrite escapeHtml_cons in H. exfalso. revert H. unfold entity.
    repeat (match goal with |- context [if ?b then _ else _] => destruct b end); discriminate.
  - rewrite !escapeHtml_cons in H. revert H. unfold entity, is_char.
    destruct (Ascii.eqb_spec "&" c) as [<-|Hc1]; destruct (Ascii.eqb_spec "&" d) as [<-|Hd1].
    all: repeat (match goal with
                 | |- context [Ascii.eqb ?a ?b] => destruct (Ascii.eqb_spec a b); try subst
                 end).
    all: rewrite ?sapp_cons, ?sapp_nil_l; intros H; try discriminate H; try congruence.
    all: try (injection H as H; f_equal; by apply IH).
    all: try (injection H as -> H; f_equal; by apply IH).
Qed.

(** ** The failures of an evaluation *)

Lemma parseSSELangProgram_failure (text : string) (ruleset : Ruleset) (e : error) :
  parseSSELangProgram text ruleset = Throw e -> parseFailure e.
Proof.
  unfold parseSSELangProgram. destruct (tokenizeSSE text) as [toks|e'] eqn:Et;
    cbn [mbind result_bind].
  - apply lexLoop_spec in Et as (body & eof & -> & Heof & _ & _ & Hbody); [|lia].
    apply (parseLoop_errors ruleset _ _ _ _ (le_n _)). apply endsWithEOF_app; [|done].
    eapply Forall_impl; [exact Hbody|]. by intros x (? & _).
  - intros [= <-]. by apply lexLoop_error in Et.
Qed.

Lemma decide_failure (ruleset : Ruleset) (inputMap : FieldMap) (e : error) :
  decide ruleset inputMap = Throw e ->
  (e = TypeError "Cannot read properties of undefined (reading 'judgement')" /\
   exists p, In p (default [] (rules ruleset)) /\ Triggered ruleset inputMap p /\
             Hard ruleset p /\ r_then p = None) \/
  (e = notAScale /\
   exists p c, In p (default [] (rules ruleset)) /\ In c (default [] (r_if p)) /\
               Breaks ruleset inputMap c).
Proof.
  unfold decide, triggeredRules.
  destruct (triggeredLoop ruleset _ inputMap) as [t|e'] eqn:Et; cbn [mbind result_bind].
  - apply triggeredLoop_Ok in Et as [_ ->]. destruct (List.find isInfeasible _); [done|].
    destruct (List.find (fun r => negb (isInfeasible r)) _) as [p|] eqn:E.
    + destruct (r_then p) eqn:Ethen; [done|]. intros [= <-]. left. split; [done|]. exists p.
      apply find_some in E as [[[Hin Hm%triggers_Triggered]%filter_In Hh]%filter_In _].
      repeat split; [done|done| |done]. by apply isSoft_Hard.
    + by destruct (List.filter (isSoft ruleset) _).
  - intros [= <-]. apply triggeredLoop_Throw in Et as (-> & p & Hin & Hp). right.
    split; [done|]. unfold ruleMatches in Hp.
    pose proof (conditionsMatch_spec ruleset inputMap (default [] (r_if p))) as S.
    rewrite Hp in S. destruct S as (_ & pre & c & post & Heq & _ & Hc).
    exists p, c. split; [done|]. split; [|done]. rewrite Heq. apply in_or_app. right. by left.
Qed.

(** X23: an evaluation fails in three ways only: the SSE-Lang reader rejects
    the text; or the decision reads the judgement of a hard rule that has
    no consequence; or a condition of a rule is on a field that has no
    scale to be looked up, the name of a member that every object
    inherits.  So a text of the legacy dialect, against a ruleset each of
    whose rules has a consequence and none of whose conditions is on such
    a field, always gets its decision and its trace identifier. *)
Theorem evaluate_failures (now input : string) (ruleset : Ruleset) :
  (forall e, evaluate now input ruleset = Throw e ->
     (isLikelySSELang input = true /\ parseFailure e) \/
     (e = TypeError "Cannot read properties of undefined (reading 'judgement')" /\
      exists p, In p (default [] (rules ruleset)) /\ Hard ruleset p /\ r_then p = None) \/
     (e = notAScale /\
      exists p c f, In p (default [] (rules ruleset)) /\ In c (default [] (r_if p)) /\
                    c_field c = Some f /\ Inherits ruleset f)) /\
  (isLikelySSELang input = false ->
   (forall p, In p (default [] (rules ruleset)) -> r_then p <> None) ->
   (forall p c f, In p (default [] (rules ruleset)) -> In c (default [] (r_if p)) ->
                  c_field c = Some f -> ~ Inherits ruleset f) ->
   exists res id, evaluate now input ruleset = Ok (res, id)).
Proof.
  assert (Hd : forall m e, decide ruleset m = Throw e ->
     (e = TypeError "Cannot read properties of undefined (reading 'judgement')" /\
      exists p, In p (default [] (rules ruleset)) /\ Hard ruleset p /\ r_then p = None) \/
     (e = notAScale /\
      exists p c f, In p (default [] (rules ruleset)) /\ In c (default [] (r_if p)) /\
                    c_field c = Some f /\ Inherits ruleset f)).
  { intros m e [(-> & p & ? & _ & ? & ?)|(-> & p & c & ? & ? & (_ & f & ? & _ & ?))]%decide_failure.
    - left. eauto.
    - right. split; [done|]. by exists p, c, f. }
  assert (H : forall e, evaluate now input ruleset = Throw e ->
     (isLikelySSELang input = true /\ parseFailure e) \/
     (e = TypeError "Cannot read properties of undefined (reading 'judgement')" /\
      exists p, In p (default [] (rules ruleset)) /\ Hard ruleset p /\ r_then p = None) \/
     (e = notAScale /\
      exists p c f, In p (default [] (rules ruleset)) /\ In c (default [] (r_if p)) /\
                    c_field c = Some f /\ Inherits ruleset f)).
  { intros e. unfold evaluate, parseSSELangOrLegacy.
    destruct (isLikelySSELang input).
    - destruct (parseSSELangProgram input ruleset) as [st|e'] eqn:Ep; cbn [mbind result_bind].
      + destruct (decide ruleset _) as [r|e'] eqn:Ed; cbn [mbind result_bind].
        * match goal with |- context [traceId now ?r] =>
            destruct (traceId_tagged now r) as (? & ? & ? & ? & ? & _ & _ & _ & _ & ->) end.
          done.
        * intros [= <-]. right. by eapply Hd.
      + intros [= <-]. left. split; [done|]. by eapply parseSSELangProgram_failure.
    - cbn [mbind result_bind].
      destruct (decide ruleset _) as [r|e'] eqn:Ed; cbn [mbind result_bind].
      + match goal with |- context [traceId now ?r] =>
          destruct (traceId_tagged now r) as (? & ? & ? & ? & ? & _ & _ & _ & _ & ->) end.
        done.
      + intros [= <-]. right. by eapply Hd. }
  split; [exact H|]. intros Hlegacy Hthen Hown.
  destruct (evaluate now input ruleset) as [[res id]|e] eqn:E; [eauto|].
  exfalso.
  destruct (H e eq_refl) as [[Hsse _]|[(_ & p & Hin & _ & Hp)|(_ & p & c & f & Hin & Hc & Hf & Hi)]];
    [congruence|by apply (Hthen p Hin)|by apply (Hown p c f)].
Qed.

End Extras.

(** C7, the counterexample: with the aliases [{"A": ["x"], "B": ["a"]}] the
    key [x] canonicalizes to [A], and [A] to [B]. *)
Lemma canonKey_not_idempotent :
  canonKey clashingAliases (canonKey clashingAliases "x") <> canonKey clashingAliases "x".
Proof. vm_compute. discriminate. Qed.

Lemma canonKey_idempotent_witness :
  (forall c, In c (canonicalNames plainAliases) -> canonKey plainAliases c = c) /\
  canonKey plainAliases (canonKey plainAliases "Continuity") = canonKey plainAliases "Continuity".
Proof.
  assert (H : forall c, In c (canonicalNames plainAliases) -> canonKey plainAliases c = c).
  { intros c [<-|[]]. vm_compute. reflexivity. }
  split; [exact H|]. apply (canonKey_idempotent plainAliases "Continuity" H).
Defined.

Lemma ruleMatches_absent_field_witness :
  ~ Triggered oneRule continuityOnly ruleOnDimensionality /\
  (forall m, ruleMatches oneRule ruleOnDimensionality continuityOnly = Ok m ->
     matched m = false /\ exists why, reason m = Some why) /\
  ((forall c', In c' (default [] (r_if ruleOnDimensionality)) ->
               ~ Breaks oneRule continuityOnly c') ->
   exists m, ruleMatches oneRule ruleOnDimensionality continuityOnly = Ok m) /\
  (forall e, ruleMatches oneRule ruleOnDimensionality continuityOnly = Throw e ->
     e = notAScale /\
     exists pre c' post, default [] (r_if ruleOnDimensionality) = pre ++ c' :: post /\
                         Breaks oneRule continuityOnly c' /\
                         In {| c_raw := None; c_field := Some "Dimensionality";
                               c_op := Some "="; c_value := VStr "3d" |} post) /\
  (~ Unparsed {| c_raw := None; c_field := Some "Dimensionality";
                 c_op := Some "="; c_value := VStr "3d" |} ->
   forall pre post,
     default [] (r_if ruleOnDimensionality) =
       pre ++ {| c_raw := None; c_field := Some "Dimensionality";
                 c_op := Some "="; c_value := VStr "3d" |} :: post ->
     Forall (Holds oneRule continuityOnly) pre ->
     ruleMatches oneRule ruleOnDimensionality continuityOnly =
       Ok {| matched := false; reason := Some ("Missing field: " +:+ "Dimensionality") |}).
Proof.
  apply (ruleMatches_absent_field oneRule ruleOnDimensionality continuityOnly
           {| c_raw := None; c_field := Some "Dimensionality";
              c_op := Some "="; c_value := VStr "3d" |} "Dimensionality").
  - simpl. left. reflexivity.
  - reflexivity.
  - reflexivity.
Defined.

(** C2, the failing input: [demoRuleset] configures no scale for the field
    [constructor], and every object inherits a member of that name; the
    lookup of the scale finds the inherited member, and [compareValue]
    throws where it calls [scale.map], although the two texts are equal. *)
Lemma compareValue_throws_on_inherited_member :
  compareValue demoRuleset "constructor" (Some "=") (VStr "x") (VStr "x") =
    Throw (TypeError "scale.map is not a function").
Proof. reflexivity. Qed.

(** C4, the failing input: the second condition of [ruleOnConstructor] is
    on the field [Missing], which the field map lacks; but its first
    condition is on the field [constructor], which the map has, and
    [ruleMatches] throws in that comparison instead of returning a
    non-match. *)
Lemma ruleMatches_throws_before_absent_field :
  map_has constructorOnly "Missing" = false /\
  ruleMatches constructorRuleset ruleOnConstructor constructorOnly =
    Throw (TypeError "scale.map is not a function").
Proof. split; reflexivity. Qed.

(** C1, the failing input: the one rule of [noConsequence] is hard by
    default, has no condition and no [then]; it is triggered on the empty
    field map, and [decide] throws where it reads the judgement. *)
Lemma decide_throws_without_consequence :
  decide noConsequence [] =
    Throw (TypeError "Cannot read properties of undefined (reading 'judgement')").
Proof. reflexivity. Qed.

Lemma deriveInput_frame_witness :
  ratingFields ratedMap <> [] /\
  map_get (fst (deriveInput ratedMap emptyRuleset)) (derivedKey emptyRuleset)
    = Some (VNum (num_of_nat (tally ratedMap))) /\
  forall k, k <> derivedKey emptyRuleset ->
    map_get (fst (deriveInput ratedMap emptyRuleset)) k = map_get ratedMap k.
Proof.
  assert (H : ratingFields ratedMap <> []).
  { intros H. apply (f_equal length) in H. vm_compute in H. discriminate H. }
  split; [exact H|]. apply (deriveInput_frame ratedMap emptyRuleset H).
Defined.

Lemma deriveInput_tally_witness :
  let out := deriveInput mixedRatings emptyRuleset in
  tally mixedRatings = 2 /\ length (ratingFields mixedRatings) = 4 /\
  In (warningOf ("rating.cost", VStr "awful")) (snd out) /\
  ~ In ("rating.cost", VStr "awful") (List.filter moderateOrWorse mixedRatings) /\
  map_get (fst out) (derivedKey emptyRuleset) = Some (VNum (num_of_nat (tally mixedRatings))).
Proof.
  destruct (deriveInput_tally mixedRatings emptyRuleset) as (_ & Hcount & Hwarn & _).
  destruct (Hwarn ("rating.cost", VStr "awful")) as [Hw Hn];
    [right; left; reflexivity|reflexivity|].
  destruct Hcount as [_ Hget].
  { intros H. apply (f_equal length) in H. vm_compute in H. discriminate H. }
  cbv zeta. split; [reflexivity|]. split; [reflexivity|]. split; [exact Hw|].
  split; [exact Hn|exact Hget].
Defined.

(** C9, the counterexample: the object [{"10": 1, "9": 2}] is serialized
    with the key [9] before the key [10], which is not their lexicographic
    order. *)
Lemma stableStringify_index_keys_first :
  stableTree indexKeyHeap (JRef 0) =
    Some (TObject [("9", TNumber (Dec 2 0)); ("10", TNumber (Dec 1 0))]) /\
  ~ everyObject lexicographic (TObject [("9", TNumber (Dec 2 0)); ("10", TNumber (Dec 1 0))]).
Proof.
  split; [reflexivity|].
  intros [H _]. cbn in H. inversion H as [|? ? _ Hle]; subst.
  apply Forall_cons in Hle as [Hle _]. vm_compute in Hle. exact Hle.
Qed.

(** An object that refers to itself is serialized with [null] in the place
    of the reference. *)
Example stableStringify_cycle :
  stableTree cyclicHeap (JRef 0) = Some (TObject [("name", TString "loop"); ("self", TNull)]).
Proof. reflexivity. Qed.

(** A member named [__proto__] is not written. *)
Example stableStringify_skips_proto :
  stableTree protoKeyHeap (JRef 0) = Some (TObject [("a", TNumber (Dec 2 0))]).
Proof. reflexivity. Qed.

Lemma onClick_deterministic_witness :
  let s1 := freshSession in
  let s2 := snd (onClick 0 "2026-01-01T00:00:00.000Z" legacyText s1) in
  Loaded 0 demoRuleset s1 /\
  Loaded 0 demoRuleset (snd (onClick 0 "2026-01-01T00:00:00.000Z" legacyText s1)) /\
  Loaded 0 demoRuleset (snd (onClick 0 "2026-01-02T00:00:00.000Z" legacyText s2)) /\
  match fst (onClick 0 "2026-01-01T00:00:00.000Z" legacyText s1),
        fst (onClick 0 "2026-01-02T00:00:00.000Z" legacyText s2) with
  | Ok (r1, _), Ok (r2, _) =>
      r1 = r2 /\ verdict r1 = verdict r2 /\ res_judgement r1 = res_judgement r2 /\
      triggered r1 = triggered r2 /\ triggeredHard r1 = triggeredHard r2 /\
      triggeredSoft r1 = triggeredSoft r2 /\ res_derivations r1 = res_derivations r2
  | Throw e1, Throw e2 => e1 = e2
  | _, _ => False
  end /\
  (forall r id, fst (onClick 0 "2026-01-01T00:00:00.000Z" legacyText s1) = Ok (r, id) ->
     exists map r0,
       parseSSELangOrLegacy legacyText demoRuleset = Ok map /\
       decide demoRuleset (fst (deriveInput map demoRuleset)) = Ok r0 /\
       verdict r = verdict r0 /\ res_judgement r = res_judgement r0 /\ rule r = rule r0 /\
       triggered r = triggered r0 /\ triggeredHard r = triggeredHard r0 /\
       triggeredSoft r = triggeredSoft r0 /\
       res_derivations r = Some (snd (deriveInput map demoRuleset)) /\
       traceId "2026-01-01T00:00:00.000Z" r = Ok id).
Proof.
  intros s1 s2.
  assert (H1 : Loaded 0 demoRuleset s1) by (split; [reflexivity|unfold s1, freshSession; simpl; lia]).
  destruct (onClick_deterministic 0 demoRuleset "2026-01-01T00:00:00.000Z"
              "2026-01-01T00:00:00.000Z" legacyText s1 s1 H1 H1) as (H2 & _).
  split; [exact H1|].
  apply (onClick_deterministic 0 demoRuleset "2026-01-01T00:00:00.000Z"
           "2026-01-02T00:00:00.000Z" legacyText s1 s2 H1 H2).
Defined.

(** The first click of a session on [legacyText]: the verdict NO from the
    first rule, and the session after it, with the field map and the
    result that the run created. *)
Example onClick_first :
  let run := onClick 0 "2026-01-01T00:00:00.000Z" legacyText freshSession in
  (out ← fst run;
   Ok (verdict (fst out), option_map r_id (rule (fst out)),
       List.map r_id (triggered (fst out)), res_derivations (fst out)))
  = Ok ("NO", Some "R1", ["R1"], Some []) /\
  free (snd run) = 3 /\
  cells (snd run) !! 1 = Some (CMap [("IonPathDimensionality", VStr "3d");
                                     ("PathContinuity", VStr "flexible")]).
Proof. cbv zeta. split; [reflexivity|]. split; reflexivity. Qed.

(** A record written with its keys out of order, an array inside. *)
Example stableStringify_literal :
  let record := TObject [("b", TNumber (Dec 1 0));
                         ("a", TArray [TObject [("z", TNull); ("y", TBool true)]; TString "s"])] in
  let '(obj, (h, _)) := alloc record (∅, 0) in
  stableTree h obj =
    Some (TObject [("a", TArray [TObject [("y", TBool true); ("z", TNull)]; TString "s"]);
                   ("b", TNumber (Dec 1 0))]).
Proof. reflexivity. Qed.

(** ** Worked examples *)

(** The fingerprint on the published test vectors of 32-bit FNV-1a. *)
Example simpleHash_vectors :
  simpleHash "" = "811c9dc5" /\ simpleHash "a" = "e40c292c" /\ simpleHash "foobar" = "bf9cf968".
Proof. vm_compute. repeat split. Qed.

(** A legacy text: two lines canonicalized by alias, values in lower case,
    no derivation, and the verdict NO from the rule on the dimensionality. *)
Example legacy_evaluation :
  let text := unlines ["Ion Path Dimensionality: 3D"; "Path Continuity: flexible"; "no separator"] in
  isLikelySSELang text = false /\
  parseKeyValueLines text demoRuleset =
    [("IonPathDimensionality", VStr "3d"); ("PathContinuity", VStr "flexible")] /\
  snd (deriveInput (parseKeyValueLines text demoRuleset) demoRuleset) = [] /\
  (r ← decide demoRuleset (parseKeyValueLines text demoRuleset);
   Ok (verdict r, option_map r_id (rule r))) = Ok ("NO", Some "R1").
Proof. cbv zeta. repeat split. Qed.

(** An SSE-Lang text: a number, an enum path reduced to its last segment, a
    rating entered through an alias; the scale decides [partial < full],
    and the tally of one triggers the soft rule. *)
Example sselang_evaluation :
  let text := "dimensionality = 2; DataReliability: reliability.partial; Stability: #Poor; CHECK;" in
  isLikelySSELang text = true /\
  (m ← parseSSELangOrLegacy text demoRuleset;
   let d := deriveInput m demoRuleset in
   r ← decide demoRuleset (fst d);
   Ok (fst d, verdict r, option_map r_id (rule r), List.map r_id (triggered r)))
  = Ok ([("IonPathDimensionality", VNum (Dec 2 0)); ("DataReliability", VStr "partial");
         ("Rating.Stability", VStr "poor"); ("ModerateOrWorseCount", VNum (Dec 1 0))],
        "YES*", Some "R2", ["R2"; "R3"]).
Proof. cbv zeta. split; reflexivity. Qed.

(** The page's own example text selects the SSE-Lang dialect, whose grammar
    has no dotted key: the parser stops at the dot of [Rating.Stability]. *)
Example pageExample_rejected :
  isLikelySSELang pageExample = true /\
  parseSSELangOrLegacy pageExample demoRuleset =
    Throw (ParseError "SSE-Lang parse error: expected ':' or '=' at 5:7").
Proof. split; reflexivity. Qed.

(** The derived count overwrites the value the input gave for its key. *)
Example deriveInput_overwrites :
  fst (deriveInput ratedMap emptyRuleset) =
    [("Rating.Stability", VStr "poor"); ("ModerateOrWorseCount", VNum (Dec 1 0));
     ("Rating.Interface", VStr "good"); ("Notes", VStr "n/a")].
Proof. reflexivity. Qed.

(** ** Instances of the further properties *)

Lemma parseSSELangOrLegacy_blank_witness :
  isLikelySSELang blankText = false /\ parseSSELangOrLegacy blankText emptyRuleset = Ok [].
Proof. apply (parseSSELangOrLegacy_blank blankText emptyRuleset). reflexivity. Defined.

Lemma parseSSELangOrLegacy_normalized_witness :
  Forall (fun kv => normalValue (snd kv)) [("Phase", VStr "alpha"); ("Layers", VNum (Dec 2 0))].
Proof.
  apply (parseSSELangOrLegacy_normalized (unlines ["Phase: `Alpha`"; "Layers = 2"]) emptyRuleset).
  reflexivity.
Defined.

Lemma tokenizeSSE_shape_witness :
  exists toks, tokenizeSSE "a: 1;" = Ok toks /\
  exists body eof,
    toks = body ++ [eof] /\
    type eof = EOF /\ tvalue eof = None /\ index (loc eof) = String.length "a: 1;" /\
    Forall (fun t => type t <> EOF /\ is_Some (tvalue t) /\
                     index (loc t) < String.length "a: 1;") body.
Proof.
  eexists. split; [reflexivity|]. apply (tokenizeSSE_shape "a: 1;"). reflexivity.
Defined.

Lemma parseSSELangProgram_errors_witness :
  exists msg,
    ParseError "SSE-Lang parse error: expected SEMI but got EOF at 1:5" = ParseError msg /\
    parseErrorText msg.
Proof. apply (parseSSELangProgram_errors "a: #" emptyRuleset). reflexivity. Defined.

Lemma deriveInput_idempotent_witness :
  deriveInput (fst (deriveInput ratedMap emptyRuleset)) emptyRuleset =
  deriveInput ratedMap emptyRuleset.
Proof. apply (deriveInput_idempotent ratedMap emptyRuleset). reflexivity. Defined.

Lemma deriveInput_derivations_witness :
  exists b,
    snd (deriveInput mixedRatings emptyRuleset) =
      List.map warningOf (List.filter unrecognized mixedRatings) ++
      [countRecord mixedRatings; criticalFlag b] /\
    (b = true <->
     exists kv, In kv mixedRatings /\ isRatingEntry kv = true /\
                levelText (snd kv) = "critical") /\
    (forall kv, unrecognized kv = true <->
       isRatingEntry kv = true /\
       ~ In (levelText (snd kv))
            ["excellent"; "good"; "fair"; "moderate"; "poor"; "major"; "critical"]) /\
    (forall kv, moderateOrWorse kv = true <->
       isRatingEntry kv = true /\
       In (levelText (snd kv)) ["moderate"; "poor"; "major"; "critical"]).
Proof.
  apply (deriveInput_derivations mixedRatings emptyRuleset).
  intros H. apply (f_equal length) in H. vm_compute in H. discriminate H.
Defined.

(** The derivations of [mixedRatings]: the warning for the level that is
    not recognized, the count of two with its contributors, and the
    critical flag, set. *)
Example deriveInput_warns :
  snd (deriveInput mixedRatings emptyRuleset) =
    [{| name := "RatingParseWarning";
        dvalue := VStr "Ignored Rating field 'rating.cost' with unrecognized level 'awful'";
        from := None |};
     {| name := "ModerateOrWorseCount"; dvalue := VNum (Dec 2 0);
        from := Some [{| field := "Rating.Stability"; level := "critical" |};
                      {| field := "RATING.Synthesis"; level := "moderate" |}] |};
     {| name := "AnyCriticalFlag"; dvalue := VBool true; from := None |}].
Proof. reflexivity. Qed.

(** A legacy text with the field [constructor], against a rule on that
    field: the evaluation throws in the comparison. *)
Example evaluate_inherited_member :
  isLikelySSELang "constructor: x" = false /\
  evaluate "2026-01-01T00:00:00.000Z" "constructor: x" constructorRuleset =
    Throw (TypeError "scale.map is not a function").
Proof. split; reflexivity. Qed.

Lemma stableStringify_repeated_reference_witness :
  exists ts, stableTree sharedHeap (JRef 0) = Some (TArray ts) /\ ts !! 1 = Some TNull.
Proof.
  apply (stableStringify_repeated_reference sharedHeap 0 1 [] [] []). reflexivity.
Defined.

Lemma decide_agrees_with_v1_witness :
  match V1.decide oneRule threeD, decide oneRule threeD with
  | Ok r1, Ok r2 =>
      V1.verdict r1 = verdict r2 /\ V1.res_judgement r1 = res_judgement r2 /\
      V1.rule r1 = rule r2 /\ V1.triggered r1 = triggered r2 /\
      triggeredHard r2 = triggered r2 /\ triggeredSoft r2 = []
  | Throw e1, Throw e2 => e1 = e2
  | _, _ => False
  end.
Proof.
  apply (decide_agrees_with_v1 oneRule threeD).
  intros r [<-|[]] _. unfold Hard. vm_compute. discriminate.
Defined.

Lemma decide_no_implies_v1_no_witness :
  exists r1, V1.decide oneRule threeD = Ok r1 /\ V1.verdict r1 = "NO".
Proof. eapply (decide_no_implies_v1_no oneRule threeD); reflexivity. Defined.

Lemma tokenizeSSE_lexemes_witness :
  exists toks, tokenizeSSE "n = -2.5; Check;" = Ok toks /\ Forall Lexeme toks.
Proof.
  eexists. split; [reflexivity|]. apply (tokenizeSSE_lexemes "n = -2.5; Check;"). reflexivity.
Defined.

Lemma tokenizeSSE_positions_witness :
  exists toks, tokenizeSSE (unlines ["a = 1;"; "  b: #x;"]) = Ok toks /\
               Forall (Located (unlines ["a = 1;"; "  b: #x;"])) toks.
Proof.
  eexists. split; [reflexivity|].
  apply (tokenizeSSE_positions (unlines ["a = 1;"; "  b: #x;"])). reflexivity.
Defined.
